(** * local-file-sync: the detection, dedup, lock and dispatch core

    A shallow embedding of the Go sources
      internal/scanner/scanner.go  (module [Scanner], over [Path] and [FS])
      internal/state/state.go      (module [State])
      internal/app/lock.go         (module [Lock])
      internal/app/workerpool.go   (module [Workerpool])
      internal/uploader/gcs.go     (module [Uploader], over [Sha256])
    followed by the properties proved about them. *)

From Stdlib Require Import ZArith Lia List Bool Ascii String Permutation Sorted.
From stdpp Require Import base option list gmap strings.

Local Open Scope string_scope.
Local Open Scope list_scope.
Local Open Scope Z_scope.

(** Go's [time.Time] instants are counted in nanoseconds since the Unix
    epoch; [time.Duration] and [int64] values are integers as well. *)
Abbreviation Time := Z (only parsing).
Abbreviation Duration := Z (only parsing).

(** The zero [time.Time] (January 1, year 1, 00:00 UTC). *)
Definition zeroTime : Time := -62135596800 * 1000000000.

(* ===================================================================== *)
(** * Strings: the functions of Go's [strings] package the code calls *)
(* ===================================================================== *)

Module Strings.

(** [unicode.ToUpper] on one byte.  The code only asks whether the upper-cased
    name ends in the four ASCII bytes of the marker suffix, and the bytes of a
    multi-byte rune never upper-case to ASCII letters R, D, Y or the dot. *)
Definition upper_ascii (c : ascii) : ascii :=
  let n := nat_of_ascii c in
  if (97 <=? n)%nat && (n <=? 122)%nat then ascii_of_nat (n - 32) else c.

(** [strings.ToUpper] *)
Fixpoint ToUpper (s : string) : string :=
  match s with
  | EmptyString => EmptyString
  | String c s' => String (upper_ascii c) (ToUpper s')
  end.

(** [strings.HasSuffix(s, suffix)]:
    [len(s) >= len(suffix) && s[len(s)-len(suffix):] == suffix] *)
Definition HasSuffix (s suffix : string) : bool :=
  let n := String.length s in
  let m := String.length suffix in
  (m <=? n)%nat && String.eqb (substring (n - m) m s) suffix.

(** [strings.TrimSuffix(s, suffix)] *)
Definition TrimSuffix (s suffix : string) : string :=
  if HasSuffix s suffix
  then substring 0 (String.length s - String.length suffix) s
  else s.

(** [sort.Strings] and [sort.Slice] with a comparison of one string key:
    insertion into a list kept in ascending order of [key].  Go compares
    strings byte by byte, as [String.leb] does. *)
Fixpoint insert_by {A} (key : A -> string) (x : A) (l : list A) : list A :=
  match l with
  | [] => [x]
  | y :: l' =>
      if String.leb (key x) (key y) then x :: y :: l'
      else y :: insert_by key x l'
  end.

Definition sort_by {A} (key : A -> string) (l : list A) : list A :=
  fold_right (insert_by key) [] l.

Definition sort_Strings (l : list string) : list string := sort_by id l.

End Strings.

(* ===================================================================== *)
(** * Paths: the functions of Go's [path/filepath] the code calls (Unix) *)
(* ===================================================================== *)

Module Path.

(** [strings.Split(p, "/")]: the elements between the separators. *)
Fixpoint split_slash (p : string) : list string :=
  match p with
  | EmptyString => [EmptyString]
  | String c p' =>
      if Ascii.eqb c "/" then EmptyString :: split_slash p'
      else match split_slash p' with
           | [] => [String c EmptyString]
           | x :: xs => String c x :: xs
           end
  end.

(** A path is rooted when it starts with the separator. *)
Definition is_rooted (p : string) : bool :=
  match p with
  | String c _ => Ascii.eqb c "/"
  | EmptyString => false
  end.

(** One element in the loop of [filepath.Clean]; [out] holds the elements
    kept so far, the last one first.  Empty and [.] elements are dropped, a
    [..] element removes the element before it, or is kept when there is
    none to remove and the path is not rooted. *)
Definition clean_step (rooted : bool) (out : list string) (elem : string)
  : list string :=
  if String.eqb elem "" || String.eqb elem "." then out
  else if String.eqb elem ".." then
    match out with
    | top :: out' =>
        if String.eqb top ".." then ".." :: out else out'
    | [] => if rooted then [] else [".."]
    end
  else elem :: out.

(** The elements [filepath.Clean] keeps, in order. *)
Definition clean_elems (rooted : bool) (elems : list string) : list string :=
  rev (fold_left (clean_step rooted) elems []).

(** The text of a cleaned path. *)
Definition render (rooted : bool) (out : list string) : string :=
  let s := (if rooted then "/" else "") +:+ String.concat "/" out in
  if String.eqb s "" then "." else s.

(** [filepath.Clean] *)
Definition Clean (p : string) : string :=
  render (is_rooted p) (clean_elems (is_rooted p) (split_slash p)).

(** [filepath.Join] of two elements: empty elements before the first
    non-empty one are ignored, the rest is joined with separators and
    cleaned. *)
Definition Join (a b : string) : string :=
  if negb (String.eqb a "") then Clean (a +:+ "/" +:+ b)
  else if negb (String.eqb b "") then Clean b
  else "".

(** [filepath.Dir]: everything up to the last separator, cleaned. *)
Definition Dir (p : string) : string :=
  render (is_rooted p)
         (clean_elems (is_rooted p) (List.removelast (split_slash p))).

(** [filepath.Base]: the last element, trailing separators apart. *)
Definition Base (p : string) : string :=
  if String.eqb p "" then "."
  else List.last (List.filter (fun e => negb (String.eqb e "")) (split_slash p)) "/".

(** The scan of [filepath.Ext] from the end of [p]: [Some] once it has met a
    dot (the extension) or a separator (none), [None] while it has not. *)
Fixpoint ext_scan (p : string) : option string :=
  match p with
  | EmptyString => None
  | String c p' =>
      match ext_scan p' with
      | Some e => Some e
      | None =>
          if Ascii.eqb c "." then Some p
          else if Ascii.eqb c "/" then Some EmptyString
          else None
      end
  end.

(** [filepath.Ext] *)
Definition Ext (p : string) : string :=
  match ext_scan p with Some e => e | None => EmptyString end.

Fixpoint has_slash (s : string) : bool :=
  match s with
  | EmptyString => false
  | String c s' => Ascii.eqb c "/" || has_slash s'
  end.

(** The name of a directory entry: not empty, no separator in it, and
    neither [.] nor [..]. *)
Definition is_name (e : string) : bool :=
  negb (String.eqb e "") && negb (String.eqb e ".") &&
  negb (String.eqb e "..") && negb (has_slash e).

(** A path as [filepath.Clean] leaves it, with no [..] element left. *)
Definition is_clean (p : string) : bool :=
  let elems := clean_elems (is_rooted p) (split_slash p) in
  String.eqb p (render (is_rooted p) elems) && forallb is_name elems.

End Path.

(* ===================================================================== *)
(** * The file system the scanner and the uploader read *)
(* ===================================================================== *)

Module FS.

(** Size and modification time, as [fs.FileInfo] reports them. *)
Record meta := mkMeta { m_size : Z; m_modTime : Time }.

(** A file system tree.  A regular file has bytes, or cannot be opened; a
    directory has the permission to list it ([r]) and to go through it
    ([x]), and its entries in the order in which the system enumerates them;
    a symbolic link has the node it resolves to, if any. *)
#[local] Unset Elimination Schemes.
Inductive node :=
| File (m : meta) (content : option string)
| Dir (m : meta) (r x : bool) (children : list (string * node))
| Symlink (m : meta) (target : option node).
#[local] Set Elimination Schemes.

(** [fs.FileInfo], for what the code reads of it. *)
Record FileInfo := mkFileInfo {
  fi_IsDir   : bool;
  fi_Symlink : bool;       (* Mode()&os.ModeSymlink != 0 *)
  fi_Size    : Z;
  fi_ModTime : Time
}.

(** [fs.DirEntry]; [de_Info] is what [Info()] returns, [None] on error. *)
Record DirEntry := mkDirEntry {
  de_Name    : string;
  de_IsDir   : bool;
  de_Symlink : bool;       (* Type()&os.ModeSymlink != 0 *)
  de_Info    : option FileInfo
}.

Definition node_meta (n : node) : meta :=
  match n with File m _ | Dir m _ _ _ | Symlink m _ => m end.

Definition is_dir (n : node) : bool :=
  match n with Dir _ _ _ _ => true | _ => false end.

Definition is_symlink (n : node) : bool :=
  match n with Symlink _ _ => true | _ => false end.

(** What [lstat] reports of a node. *)
Definition info_of (n : node) : FileInfo :=
  {| fi_IsDir := is_dir n; fi_Symlink := is_symlink n;
     fi_Size := m_size (node_meta n); fi_ModTime := m_modTime (node_meta n) |}.

(** An entry of a listing; its [Info()] needs the permission to go through
    the directory listed. *)
Definition entry_of (x : bool) (c : string * node) : DirEntry :=
  {| de_Name := fst c; de_IsDir := is_dir (snd c);
     de_Symlink := is_symlink (snd c);
     de_Info := if x then Some (info_of (snd c)) else None |}.

(** [fs.FileInfoToDirEntry(info)], for the root of a walk. *)
Definition entry_of_info (name : string) (i : FileInfo) : DirEntry :=
  {| de_Name := name; de_IsDir := fi_IsDir i; de_Symlink := fi_Symlink i;
     de_Info := Some i |}.

(** Resolution of symbolic links. *)
Fixpoint follow (n : node) : option node :=
  match n with
  | Symlink _ (Some t) => follow t
  | Symlink _ None => None
  | _ => Some n
  end.

Fixpoint child (name : string) (cs : list (string * node)) : option node :=
  match cs with
  | [] => None
  | (n, c) :: cs' => if String.eqb n name then Some c else child name cs'
  end.

(** The node some elements below [n]: each step goes through a directory
    (links resolved) that grants [x]. *)
Fixpoint descend (elems : list string) (n : node) : option node :=
  match elems with
  | [] => Some n
  | e :: elems' =>
      match follow n with
      | Some (Dir _ _ true cs) =>
          match child e cs with
          | Some c => descend elems' c
          | None => None
          end
      | _ => None
      end
  end.

(** The node a path names, from the root directory [fs]; the working
    directory is the root, and [.] and [..] elements are resolved on the
    text of the path. *)
Definition locate (fs : node) (p : string) : option node :=
  descend (Path.clean_elems true (Path.split_slash p)) fs.

(** [os.Lstat] *)
Definition os_Lstat (fs : node) (p : string) : option FileInfo :=
  match locate fs p with
  | Some n => Some (info_of n)
  | None => None
  end.

(** [os.Stat]: links are resolved. *)
Definition os_Stat (fs : node) (p : string) : option FileInfo :=
  match locate fs p with
  | Some n => match follow n with
              | Some n' => Some (info_of n')
              | None => None
              end
  | None => None
  end.

(** The listing of a directory node that can be reached, in the order of
    enumeration.  Go's [os.ReadDir] hands the entries out sorted by name:
    that is the case of a tree whose directories enumerate in that order. *)
Definition listing (n : node) : option (list DirEntry) :=
  match n with
  | Dir _ true x cs => Some (map (entry_of x) cs)
  | _ => None
  end.

(** [os.ReadDir]; [None] on error. *)
Definition os_ReadDir (fs : node) (p : string) : option (list DirEntry) :=
  match locate fs p with
  | Some n => match follow n with
              | Some n' => listing n'
              | None => None
              end
  | None => None
  end.

(** [os.Open] followed by reading all bytes; [None] on error. *)
Definition read_file (fs : node) (p : string) : option string :=
  match locate fs p with
  | Some n => match follow n with
              | Some (File _ content) => content
              | _ => None
              end
  | None => None
  end.

Fixpoint distinct (names : list string) : bool :=
  match names with
  | [] => true
  | a :: names' => negb (existsb (String.eqb a) names') && distinct names'
  end.

(** A tree is well formed when the entries of every directory have proper
    names, no two of them the same. *)
Fixpoint wf (n : node) : bool :=
  match n with
  | Dir _ _ _ cs =>
      forallb (fun c => Path.is_name (fst c)) cs &&
      distinct (map fst cs) &&
      forallb (fun c => wf (snd c)) cs
  | Symlink _ (Some t) => wf t
  | _ => true
  end.

(** The same tree, every directory enumerating its entries in the order
    [rho] puts them in. *)
Fixpoint reorder (rho : list (string * node) -> list (string * node))
    (n : node) : node :=
  match n with
  | File m c => File m c
  | Dir m r x cs =>
      Dir m r x (rho (map (fun c => (fst c, reorder rho (snd c))) cs))
  | Symlink m (Some t) => Symlink m (Some (reorder rho t))
  | Symlink m None => Symlink m None
  end.

(** What the callback of [filepath.WalkDir] returns. *)
Inductive walk_result (E : Type) :=
| WNil
| WSkipDir
| WSkipAll
| WErr (e : E).
Arguments WNil {E}.
Arguments WSkipDir {E}.
Arguments WSkipAll {E}.
Arguments WErr {E} e.

Section Walk.

(** The state the callback closes over, its errors, and the error
    [os.ReadDir] reports for a path. *)
Variables (St E : Type).
Variable readdir_error : string -> E.
Variable fn : St -> string -> option DirEntry -> option E -> St * walk_result E.

Section Each.

(** The loop of [walkDir] over the entries read: [SkipDir] from an entry
    leaves the loop, an error or [SkipAll] is handed on. *)
Variable visit : string * node -> St -> St * walk_result E.

Fixpoint walk_each (cs : list (string * node)) (st : St)
  : St * walk_result E :=
  match cs with
  | [] => (st, WNil)
  | c :: cs' =>
      let '(st', res') := visit c st in
      match res' with
      | WNil => walk_each cs' st'
      | WSkipDir => (st', WNil)
      | _ => (st', res')
      end
  end.

End Each.

(** [filepath.walkDir(path, d, walkDirFn)], on the node [n] that is at
    [path]; [reach] tells whether every directory above [n] grants [x], so
    that [os.ReadDir(path)] gets as far as [n]. *)
Fixpoint walkDir (reach : bool) (path : string) (d : DirEntry) (n : node)
    (st : St) {struct n} : St * walk_result E :=
  let '(st1, res) := fn st path (Some d) None in
  match res with
  | WNil =>
      if negb (de_IsDir d) then (st1, WNil)
      else
        match n with
        | Dir _ r x cs =>
            if reach && r then
              walk_each
                (fun c st =>
                   walkDir (reach && x) (Path.Join path (fst c))
                           (entry_of x c) (snd c) st)
                cs st1
            else
              (* second call, to report the error of ReadDir, which gave
                 no entries *)
              let '(st2, res2) :=
                fn st1 path (Some d) (Some (readdir_error path)) in
              match res2 with
              | WNil => (st2, WNil)
              | WSkipDir => (st2, WNil)
              | _ => (st2, res2)
              end
        | _ => (st1, WNil)
        end
  | WSkipDir => if de_IsDir d then (st1, WNil) else (st1, WSkipDir)
  | _ => (st1, res)
  end.

(** [filepath.WalkDir(root, fn)]; [None] when the walk ends without error. *)
Definition WalkDir (lstat_error : E) (fs : node) (root : string) (st : St)
  : St * option E :=
  let '(st', res) :=
    match locate fs root with
    | None => fn st root None (Some lstat_error)
    | Some n =>
        walkDir true root (entry_of_info (Path.Base root) (info_of n)) n st
    end in
  match res with
  | WErr e => (st', Some e)
  | _ => (st', None)
  end.

End Walk.

End FS.

(* ===================================================================== *)
(** * internal/scanner/scanner.go *)
(* ===================================================================== *)

Module Scanner.
Import Strings FS.

(** [type FileEntry struct] *)
Record FileEntry := mkFileEntry {
  Name    : string;
  Size    : Z;
  ModTime : Time;
  Path    : string
}.

(** [type Match struct]; a nil [FolderEntries] is the empty list. *)
Record Match := mkMatch {
  ReadyFile     : string;
  Folder        : string;
  MissingFolder : bool;
  FolderEntries : list FileEntry
}.

(** [type Options struct] *)
Record Options := mkOptions {
  Recursive      : bool;
  FollowSymlinks : bool
}.

Inductive error :=
| ErrStat (path : string)          (* os.Stat failed *)
| ErrLstat (path : string)         (* os.Lstat failed *)
| ErrReadDir (path : string)       (* os.ReadDir failed *)
| ErrRootNotDir                    (* "root is not a directory" *)
| ErrWalk (e : error).             (* "walk error: %w" *)

(** [strings.HasSuffix(strings.ToUpper(name), ".RDY")] *)
Definition isReady (name : string) : bool :=
  HasSuffix (ToUpper name) ".RDY".

(** The callback [walkFn] of the recursive scan; its state is the slice
    [rdyFiles] it appends to. *)
Definition walkFn (opts : Options) (rdyFiles : list string) (path : string)
    (d : option DirEntry) (err : option error)
  : list string * walk_result error :=
  match err with
  | Some e => (rdyFiles, WErr e)
  | None =>
      match d with
      | None => (rdyFiles, WNil)   (* d is nil only together with an error *)
      | Some d =>
          if negb (de_IsDir d) then
            (if isReady (de_Name d) then rdyFiles ++ [path] else rdyFiles,
             WNil)
          else if negb (FollowSymlinks opts) && de_Symlink d then
            (rdyFiles, WSkipDir)
          else (rdyFiles, WNil)
      end
  end.

(** The loop over [os.ReadDir(root)] of the non-recursive scan. *)
Definition readyIn (root : string) (entries : list DirEntry) : list string :=
  fold_left
    (fun rdyFiles e =>
       if de_IsDir e then rdyFiles
       else if isReady (de_Name e)
            then rdyFiles ++ [Path.Join root (de_Name e)]
            else rdyFiles)
    entries [].

(** The marker files found under [root], in the order of discovery. *)
Definition collect (fs : node) (root : string) (opts : Options)
  : list string + error :=
  if Recursive opts then
    match WalkDir _ _ ErrReadDir (walkFn opts) (ErrLstat root) fs root [] with
    | (_, Some e) => inr (ErrWalk e)
    | (rdyFiles, None) => inl rdyFiles
    end
  else
    match os_ReadDir fs root with
    | None => inr (ErrReadDir root)
    | Some entries => inl (readyIn root entries)
    end.

(** The folder a marker file stands for: its name without the extension, in
    the directory of the marker. *)
Definition candidateDir (rdy : string) : string :=
  let base := Path.Base rdy in
  let nameNoExt := TrimSuffix base (Path.Ext base) in
  Path.Join (Path.Dir rdy) nameNoExt.

(** One entry of the folder; size and time stay zero when [e.Info()]
    fails. *)
Definition fileEntry (candidateDir : string) (e : DirEntry) : FileEntry :=
  match de_Info e with
  | Some finfo =>
      {| Name := de_Name e; Size := fi_Size finfo;
         ModTime := fi_ModTime finfo;
         Path := Path.Join candidateDir (de_Name e) |}
  | None =>
      {| Name := de_Name e; Size := 0; ModTime := zeroTime;
         Path := Path.Join candidateDir (de_Name e) |}
  end.

(** The body of the loop over the sorted marker files. *)
Definition matchOf (fs : node) (rdy : string) : Match :=
  let candidateDir := candidateDir rdy in
  match os_Stat fs candidateDir with
  | Some st =>
      if fi_IsDir st then
        match os_ReadDir fs candidateDir with
        | None =>
            {| ReadyFile := rdy; Folder := candidateDir;
               MissingFolder := true; FolderEntries := [] |}
        | Some entries =>
            {| ReadyFile := rdy; Folder := candidateDir;
               MissingFolder := false;
               FolderEntries :=
                 sort_by Name (map (fileEntry candidateDir) entries) |}
        end
      else
        {| ReadyFile := rdy; Folder := ""; MissingFolder := true;
           FolderEntries := [] |}
  | None =>
      {| ReadyFile := rdy; Folder := ""; MissingFolder := true;
         FolderEntries := [] |}
  end.

(** [func Scan(root string, opts Options) ([]Match, error)] *)
Definition Scan (fs : node) (root : string) (opts : Options)
  : list Match + error :=
  match os_Stat fs root with
  | None => inr (ErrStat root)
  | Some info =>
      if negb (fi_IsDir info) then inr ErrRootNotDir
      else
        match collect fs root opts with
        | inr e => inr e
        | inl rdyFiles => inl (map (matchOf fs) (sort_Strings rdyFiles))
        end
  end.

End Scanner.

(* ===================================================================== *)
(** * internal/state/state.go *)
(* ===================================================================== *)

Module State.

(** [type Store struct { Path; Data; LastRun; dirty; mu }].  The mutex
    serialises the methods; each method below is one critical section. *)
Record Store := mkStore {
  Path    : string;
  Data    : gmap string Z;
  LastRun : Time;
  dirty   : bool
}.

(** [type diskState struct { Version; LastRun; Files }].  [Files] is a Go
    map that may be nil (key absent, or JSON null). *)
Record diskState := mkDiskState {
  Version    : Z;
  dsLastRun  : Time;
  Files      : option (gmap string Z)
}.

(** What [json.Unmarshal(b, &ds)] makes of the bytes of a file: either it
    reports an error, or it fills a [diskState]. *)
Inductive FileContent :=
| Garbage
| Json (ds : diskState).

(** One file of the disk, as [os.ReadFile] sees it: a file that exists but
    cannot be read, or a file with its content. *)
Inductive fstate :=
| Unreadable
| Readable (c : FileContent).

(** The disk: path to file; an absent key is a file that does not exist. *)
Abbreviation Disk := (gmap string fstate) (only parsing).

Inductive error :=
| ErrRead      (* os.ReadFile failed, and not with ErrNotExist *)
| ErrMkdirAll
| ErrMarshal
| ErrWriteFile
| ErrRename.

(** [func New(path string) *Store] *)
Definition New (path : string) : Store :=
  {| Path := path; Data := ∅; LastRun := zeroTime; dirty := false |}.

(** [maps.Copy(dst, src)]: every key of [src] is written into [dst]. *)
Definition maps_Copy (dst src : gmap string Z) : gmap string Z := src ∪ dst.

(** [func (s *Store) Load() error] *)
Definition Load (disk : Disk) (s : Store) : Store * option error :=
  if String.eqb (Path s) "" then (s, None)
  else
    match disk !! Path s with
    | None => (s, None)                       (* os.IsNotExist(err) *)
    | Some Unreadable => (s, Some ErrRead)
    | Some (Readable c) =>
        match c with
        | Json ds =>
            match Files ds with
            | Some files =>
                ({| Path := Path s;
                    Data := maps_Copy (Data s) files;
                    LastRun := dsLastRun ds;
                    dirty := dirty s |}, None)
            | None => (s, None)
            end
        | Garbage => (s, None)
        end
    end.

(** The outcome of the system calls [Save] makes, in program order: the
    first of them that fails, if any. *)
Inductive save_io :=
| MkdirAllFails
| MarshalFails
| WriteFileFails
| RenameFails
| SaveIoOk.

(** [func (s *Store) Save() error] *)
Definition Save (io : save_io) (disk : Disk) (s : Store)
  : Disk * Store * option error :=
  if String.eqb (Path s) "" || negb (dirty s) then (disk, s, None)
  else
    let tmp := Path s +:+ ".tmp" in
    let ds := {| Version := 1; dsLastRun := LastRun s; Files := Some (Data s) |} in
    match io with
    | MkdirAllFails => (disk, s, Some ErrMkdirAll)
    | MarshalFails => (disk, s, Some ErrMarshal)
    | WriteFileFails => (disk, s, Some ErrWriteFile)
    | RenameFails => (<[tmp := Readable (Json ds)]> disk, s, Some ErrRename)
    | SaveIoOk =>
        (<[Path s := Readable (Json ds)]> (delete tmp (<[tmp := Readable (Json ds)]> disk)),
         {| Path := Path s; Data := Data s; LastRun := LastRun s; dirty := false |},
         None)
    end.

(** [func (s *Store) Get(path string) (int64, bool)] *)
Definition Get (s : Store) (path : string) : Z * bool :=
  match Data s !! path with
  | Some v => (v, true)
  | None => (0, false)
  end.

(** [func (s *Store) Set(path string, value int64)] *)
Definition Set_ (s : Store) (path : string) (value : Z) : Store :=
  match Data s !! path with
  | Some cur =>
      if negb (Z.eqb cur value)
      then {| Path := Path s; Data := <[path := value]> (Data s);
              LastRun := LastRun s; dirty := true |}
      else s
  | None =>
      {| Path := Path s; Data := <[path := value]> (Data s);
         LastRun := LastRun s; dirty := true |}
  end.

(** [func (s *Store) SetLastRun(t time.Time)] *)
Definition SetLastRun (s : Store) (t : Time) : Store :=
  {| Path := Path s; Data := Data s; LastRun := t; dirty := true |}.

(** The operations of the package, as one run issues them against a store
    and the disk under it. *)
Inductive op :=
| OpLoad
| OpSave (io : save_io)
| OpGet (path : string)
| OpSet (path : string) (value : Z)
| OpSetLastRun (t : Time).

Definition step (o : op) (st : Disk * Store) : Disk * Store :=
  let '(disk, s) := st in
  match o with
  | OpLoad => (disk, fst (Load disk s))
  | OpSave io => fst (Save io disk s)
  | OpGet _ => (disk, s)
  | OpSet k v => (disk, Set_ s k v)
  | OpSetLastRun t => (disk, SetLastRun s t)
  end.

Definition run (ops : list op) (st : Disk * Store) : Disk * Store :=
  fold_left (fun st o => step o st) ops st.

(** The marker paths recorded in the state file at [path]: the keys of its
    [files] object when it decodes, none otherwise. *)
Definition file_keys (disk : gmap string fstate) (path : string) : gset string :=
  match disk !! path with
  | Some (Readable (Json ds)) =>
      match Files ds with Some files => dom files | None => ∅ end
  | _ => ∅
  end.

End State.

(* ===================================================================== *)
(** * internal/app/lock.go *)
(* ===================================================================== *)

Module Lock.

(** [time.Duration] is an int64 count of nanoseconds. *)
Definition maxDuration : Duration := 2 ^ 63 - 1.
Definition minDuration : Duration := - 2 ^ 63.

(** [func (t Time) Sub(u Time) Duration]: the difference, or the largest
    (smallest) duration when the difference does not fit. *)
Definition Time_Sub (t u : Time) : Duration :=
  let d := t - u in
  if d >? maxDuration then maxDuration
  else if d <? minDuration then minDuration
  else d.

(** Result of [os.OpenFile(path, O_CREATE|O_EXCL|O_WRONLY, 0o600)]. *)
Inductive open_result :=
| OpenOk
| OpenErrExist     (* errors.Is(err, os.ErrExist) *)
| OpenErrOther.

(** The calls the function makes on the lock file. *)
Inductive syscall :=
| SysOpenExcl
| SysStat
| SysRemove
| SysFprintf
| SysClose.

(** What the operating system answers to the calls, in program order.  Other
    processes act on the same path between two calls, so the answers are
    inputs: [stat] is [Some modTime] when [os.Stat] succeeds. *)
Record env := mkEnv {
  open1 : open_result;
  stat  : option Time;
  open2 : open_result
}.

Inductive error :=
| ErrCreateLockFile.   (* fmt.Errorf("create lock file: %w", err) *)

(** What [acquireLockWith] hands back: [owned] is the variable captured by
    the release closure; [trace] lists the calls made, in order. *)
Record result := mkResult {
  owned    : bool;
  acquired : bool;
  err      : option error;
  trace    : list syscall
}.

(** The tail of the function, from [owned = true] on. *)
Definition own (tr : list syscall) : result :=
  {| owned := true; acquired := true; err := None;
     trace := tr ++ [SysFprintf; SysClose] |}.

Definition not_acquired (e : option error) (tr : list syscall) : result :=
  {| owned := false; acquired := false; err := e; trace := tr |}.

(** [func acquireLockWith(path string, ttl time.Duration, now func() time.Time)]
    [now] is the injected clock, read once for the staleness test. *)
Definition acquireLockWith (e : env) (ttl : Duration) (now : Time) : result :=
  match open1 e with
  | OpenOk => own [SysOpenExcl]
  | OpenErrOther => not_acquired (Some ErrCreateLockFile) [SysOpenExcl]
  | OpenErrExist =>
      match stat e with
      | Some modTime =>
          if Time_Sub now modTime >? ttl then
            match open2 e with
            | OpenOk => own [SysOpenExcl; SysStat; SysRemove; SysOpenExcl]
            | _ => not_acquired None [SysOpenExcl; SysStat; SysRemove; SysOpenExcl]
            end
          else not_acquired None [SysOpenExcl; SysStat]
      | None => not_acquired None [SysOpenExcl; SysStat]
      end
  end.

(** [func AcquireLock(path string)]: a TTL of 30 minutes. *)
Definition AcquireLock (e : env) (now : Time) : result :=
  acquireLockWith e (30 * 60 * 1000000000) now.

(** The [release] closure: the new value of [owned] and the calls made. *)
Definition release (owned : bool) : bool * list syscall :=
  if negb owned then (owned, []) else (false, [SysRemove]).

End Lock.

(* ===================================================================== *)
(** * internal/app/workerpool.go *)
(* ===================================================================== *)

Module Workerpool.

Section Pool.

(** The state the tasks act on, and the errors they return. *)
Variables (S E : Type).

(** [type Task func(ctx context.Context) error] *)
Definition Task := S -> S * option E.

(** The value of [concurrency] at [wg.Add(concurrency)]: the number of
    worker goroutines started.  [numCPU] is [runtime.NumCPU()]. *)
Definition workers (numCPU concurrency ntasks : Z) : Z :=
  let concurrency :=
    if concurrency <=? 0 then Z.max (Z.min numCPU 8) 2 else concurrency in
  if concurrency >? ntasks then ntasks else concurrency.

(** The tasks of a run, one after the other in the order [sched] in which
    the workers took them (an index outside the slice names no task); the
    error is the first one sent on [errCh]. *)
Fixpoint runTasks (tasks : list Task) (sched : list nat) (st : S)
  : S * option E :=
  match sched with
  | [] => (st, None)
  | i :: sched' =>
      match nth_error tasks i with
      | None => runTasks tasks sched' st
      | Some t =>
          let '(st1, e1) := t st in
          let '(st2, e2) := runTasks tasks sched' st1 in
          (st2, match e1 with Some e => Some e | None => e2 end)
      end
  end.

(** What a call of [RunParallel] did. *)
Record outcome := mkOutcome {
  spawned : Z;            (* worker goroutines started *)
  final   : S;            (* the state the tasks leave *)
  perr    : option E      (* the error returned *)
}.

(** [func RunParallel(parentCtx, concurrency int, tasks []Task) error] *)
Definition RunParallel (numCPU : Z) (sched : list nat)
    (concurrency : Z) (tasks : list Task) (st : S) : outcome :=
  if Z.of_nat (length tasks) =? 0 then
    {| spawned := 0; final := st; perr := None |}
  else
    let '(st', e) := runTasks tasks sched st in
    {| spawned := workers numCPU concurrency (Z.of_nat (length tasks));
       final := st'; perr := e |}.

End Pool.

Arguments runTasks {S E} tasks sched st.
Arguments RunParallel {S E} numCPU sched concurrency tasks st.
Arguments spawned {S E} o.
Arguments final {S E} o.
Arguments perr {S E} o.

End Workerpool.


(* ===================================================================== *)
(** * SHA-256, as [crypto/sha256] computes it (FIPS 180-4) *)
(* ===================================================================== *)

Module Sha256.

(** A 32-bit word is an integer below [2^32]; sums wrap around. *)
Definition w32 (x : Z) : Z := Z.land x 0xffffffff.

Definition add32 (x y : Z) : Z := w32 (x + y).

Definition rotr (n x : Z) : Z :=
  w32 (Z.lor (Z.shiftr x n) (Z.shiftl x (32 - n))).

Definition not32 (x : Z) : Z := Z.lxor x 0xffffffff.

Definition Ch (x y z : Z) : Z := Z.lxor (Z.land x y) (Z.land (not32 x) z).

Definition Maj (x y z : Z) : Z :=
  Z.lxor (Z.lxor (Z.land x y) (Z.land x z)) (Z.land y z).

Definition bigSigma0 (x : Z) : Z :=
  Z.lxor (Z.lxor (rotr 2 x) (rotr 13 x)) (rotr 22 x).

Definition bigSigma1 (x : Z) : Z :=
  Z.lxor (Z.lxor (rotr 6 x) (rotr 11 x)) (rotr 25 x).

Definition smallSigma0 (x : Z) : Z :=
  Z.lxor (Z.lxor (rotr 7 x) (rotr 18 x)) (Z.shiftr x 3).

Definition smallSigma1 (x : Z) : Z :=
  Z.lxor (Z.lxor (rotr 17 x) (rotr 19 x)) (Z.shiftr x 10).

(** The round constants and the initial hash value, in decimal. *)
Definition K : list Z :=
  [1116352408; 1899447441; 3049323471; 3921009573; 961987163; 1508970993;
   2453635748; 2870763221; 3624381080; 310598401; 607225278; 1426881987;
   1925078388; 2162078206; 2614888103; 3248222580; 3835390401; 4022224774;
   264347078; 604807628; 770255983; 1249150122; 1555081692; 1996064986;
   2554220882; 2821834349; 2952996808; 3210313671; 3336571891; 3584528711;
   113926993; 338241895; 666307205; 773529912; 1294757372; 1396182291;
   1695183700; 1986661051; 2177026350; 2456956037; 2730485921; 2820302411;
   3259730800; 3345764771; 3516065817; 3600352804; 4094571909; 275423344;
   430227734; 506948616; 659060556; 883997877; 958139571; 1322822218;
   1537002063; 1747873779; 1955562222; 2024104815; 2227730452; 2361852424;
   2428436474; 2756734187; 3204031479; 3329325298].

Definition H0 : list Z :=
  [1779033703; 3144134277; 1013904242; 2773480762;
   1359893119; 2600822924; 528734635; 1541459225].

(** The message followed by the bit 1, zero bytes up to 56 modulo 64, and
    the length in bits on eight bytes, the most significant first. *)
Definition be_bytes (n : nat) (x : Z) : list Z :=
  map (fun i => Z.land (Z.shiftr x (8 * Z.of_nat i)) 0xff) (rev (seq 0 n)).

Definition pad (msg : list Z) : list Z :=
  let len := Z.of_nat (List.length msg) in
  let zeros := Z.to_nat ((55 - len) mod 64) in
  msg ++ [0x80] ++ repeat 0 zeros ++ be_bytes 8 (8 * len).

(** Four bytes as one word, the most significant first. *)
Fixpoint words (bytes : list Z) : list Z :=
  match bytes with
  | b0 :: b1 :: b2 :: b3 :: rest =>
      (Z.shiftl b0 24 + Z.shiftl b1 16 + Z.shiftl b2 8 + b3) :: words rest
  | _ => []
  end.

(** The message schedule: [n] more words after the ones of [w]. *)
Fixpoint schedule (n : nat) (w : list Z) : list Z :=
  match n with
  | O => w
  | S n' =>
      let t := List.length w in
      let at_ (k : nat) := nth (t - k) w 0 in
      schedule n'
        (w ++ [add32 (add32 (smallSigma1 (at_ 2%nat)) (at_ 7%nat))
                     (add32 (smallSigma0 (at_ 15%nat)) (at_ 16%nat))])
  end.

(** One round on the working variables [a .. h]. *)
Definition round (v : list Z) (kw : Z * Z) : list Z :=
  match v with
  | [a; b; c; d; e; f; g; h] =>
      let t1 := add32 (add32 (add32 h (bigSigma1 e)) (Ch e f g))
                      (add32 (fst kw) (snd kw)) in
      let t2 := add32 (bigSigma0 a) (Maj a b c) in
      [add32 t1 t2; a; b; c; add32 d t1; e; f; g]
  | _ => v
  end.

(** The compression of one block of sixteen words into the hash value. *)
Definition compress (h : list Z) (block : list Z) : list Z :=
  let w := schedule 48 block in
  let v := fold_left round (combine K w) h in
  map (fun p => add32 (fst p) (snd p)) (combine h v).

Fixpoint blocks (n : nat) (ws : list Z) : list (list Z) :=
  match n with
  | O => []
  | S n' =>
      match ws with
      | [] => []
      | _ => firstn 16 ws :: blocks n' (skipn 16 ws)
      end
  end.

Definition digest (msg : list Z) : list Z :=
  let ws := words (pad msg) in
  fold_left compress (blocks (List.length ws) ws) H0.

Definition hex_digit (d : Z) : ascii :=
  ascii_of_nat (Z.to_nat (if d <? 10 then 48 + d else 87 + d)).

(** A word in hexadecimal, eight digits in lower case. *)
Definition hex32 (x : Z) : string :=
  string_of_list_ascii
    (map (fun i => hex_digit (Z.land (Z.shiftr x (4 * Z.of_nat i)) 0xf))
         (rev (seq 0 8))).

Definition bytes_of (s : string) : list Z :=
  map (fun c => Z.of_nat (nat_of_ascii c)) (list_ascii_of_string s).

(** [fmt.Sprintf("%x", h.Sum(nil))] after the bytes of the file went
    through [sha256.New()]. *)
Definition sum_hex (content : string) : string :=
  String.concat "" (map hex32 (digest (bytes_of content))).

End Sha256.

(* ===================================================================== *)
(** * internal/uploader/gcs.go *)
(* ===================================================================== *)

Module Uploader.
Import Strings FS Scanner.

(** [type UploadedFile struct] *)
Record UploadedFile := mkUploadedFile {
  uName     : string;
  uSize     : Z;
  uChecksum : string;
  uPath     : string
}.

Inductive error :=
| ErrBucketNotConfigured          (* "bucket not configured" *)
| ErrClientNotInitialized         (* "uploader client not initialized" *)
| ErrChecksumOpen (path : string) (* "checksum open file: %w" *)
| ErrNilBucket                    (* "nil bucket for real upload" *)
| ErrUpload (msg : string).       (* from the hook or from uploadObject *)

(** [type GCSUploader struct]: [hasClient] is [client != nil], and the test
    hook, when set, answers an upload with an error or nil. *)
Record GCSUploader := mkGCSUploader {
  Bucket         : string;
  hasClient      : bool;
  Concurrency    : Z;
  fileUploadHook : option (string -> string -> option error)
}.

(** [u.fileUploadHook != nil] *)
Definition hasHook (u : GCSUploader) : bool :=
  match fileUploadHook u with Some _ => true | None => false end.

(** What the tasks of one call act on: the uploads started, as pairs of
    local path and object name, and the slice [meta]. *)
Record effects := mkEffects {
  uploads : list (string * string);
  meta    : list UploadedFile
}.

Section Upload.

(** The answer of the bucket to
    [uploadObject(ctx, bucket, localPath, objectName)]. *)
Variable uploadObject : string -> string -> option error.

(** [func getChecksum(path string) (string, error)] *)
Definition getChecksum (fs : node) (path : string) : string + error :=
  match read_file fs path with
  | None => inr (ErrChecksumOpen path)
  | Some bytes => inl (Sha256.sum_hex bytes)
  end.

(** The closure [makePrefixGetter(objectPrefix)] returns; its cache only
    remembers results. *)
Definition getPrefix (objectPrefix dir : string) : string :=
  let base := Path.Base dir in
  if negb (String.eqb objectPrefix "")
  then TrimSuffix objectPrefix "/" +:+ "/" +:+ base
  else base.

(** The task appended for one entry; [bucket] tells whether the bucket
    handle is not nil. *)
Definition uploadTask (fs : node) (u : GCSUploader) (bucket : bool)
    (name localPath objectName : string) (fi : FileInfo)
  : Workerpool.Task effects error :=
  fun st =>
    let size := fi_Size fi in
    match getChecksum fs localPath with
    | inr err => (st, Some err)
    | inl checksum =>
        let started :=
          {| uploads := uploads st ++ [(localPath, objectName)];
             meta := meta st |} in
        match fileUploadHook u with
        | Some hook => (started, hook localPath objectName)
        | None =>
            if negb bucket then (st, Some ErrNilBucket)
            else
              match uploadObject localPath objectName with
              | Some err => (started, Some err)
              | None =>
                  ({| uploads := uploads started;
                      meta := meta started ++
                        [{| uName := name; uSize := size;
                            uChecksum := checksum; uPath := objectName |}] |},
                   None)
              end
        end
    end.

(** One round of the loop over [entries]: the task appended, if any. *)
Definition taskFor (fs : node) (u : GCSUploader) (bucket : bool)
    (objectPrefix : string) (fe : FileEntry)
  : list (Workerpool.Task effects error) :=
  let name := Name fe in
  let localPath := Scanner.Path fe in
  if String.eqb localPath "" then []
  else
    match os_Lstat fs localPath with
    | None => []
    | Some fi =>
        if fi_Symlink fi || fi_IsDir fi || isReady name then []
        else
          let dir := Path.Dir localPath in
          let prefix := getPrefix objectPrefix dir in
          let objectName := prefix +:+ "/" +:+ name in
          [uploadTask fs u bucket name localPath objectName fi]
    end.

(** What a call returns and does. *)
Record result := mkResult {
  files   : option (list UploadedFile);   (* nil with an error *)
  err     : option error;
  started : list (string * string)        (* the uploads started *)
}.

(** [func (u *GCSUploader) UploadListedEntries(entries, objectPrefix)];
    [numCPU] and [sched] are the number of CPUs and the order in which the
    workers of the pool took the tasks. *)
Definition UploadListedEntries (fs : node) (u : GCSUploader)
    (numCPU : Z) (sched : list nat)
    (entries : list FileEntry) (objectPrefix : string) : result :=
  if String.eqb (Bucket u) "" then
    {| files := None; err := Some ErrBucketNotConfigured; started := [] |}
  else if negb (hasClient u) && negb (hasHook u) then
    {| files := None; err := Some ErrClientNotInitialized; started := [] |}
  else if Z.of_nat (length entries) =? 0 then
    {| files := Some []; err := None; started := [] |}
  else
    (* bucket = u.client.Bucket(u.Bucket) when there is no hook *)
    let bucket := negb (hasHook u) in
    let tasks := flat_map (taskFor fs u bucket objectPrefix) entries in
    if Z.of_nat (length tasks) =? 0 then
      {| files := Some []; err := None; started := [] |}
    else
      let out :=
        Workerpool.RunParallel numCPU sched (Concurrency u) tasks
          {| uploads := []; meta := [] |} in
      match Workerpool.perr out with
      | Some e =>
          {| files := None; err := Some e;
             started := uploads (Workerpool.final out) |}
      | None =>
          {| files := Some (meta (Workerpool.final out)); err := None;
             started := uploads (Workerpool.final out) |}
      end.

End Upload.

End Uploader.

(* ===================================================================== *)
(** * Vocabulary of the statements, and the inputs of the examples *)
(* ===================================================================== *)

(** Ascending order of the keys. *)
Definition key_le {A : Type} (key : A -> string) (a b : A) : Prop :=
  String.leb (key a) (key b) = true.

Section StoreVocabulary.
Import State.

(** The keys of the state file are among the keys in memory. *)
Definition file_covered (disk : gmap string fstate) (s : Store) : Prop :=
  file_keys disk (Path s) ⊆ dom (Data s).

(** A clean store that holds one token. *)
Definition store_a1 : Store :=
  {| Path := "/in/state.json"; Data := {[ "/in/A.RDY" := 1 ]};
     LastRun := 0; dirty := false |}.

(** A state file of an unknown schema version, with one token in it. *)
Definition disk_v2 : gmap string fstate :=
  {[ "/in/state.json" :=
       Readable (Json {| Version := 2; dsLastRun := 42;
                         Files := Some {[ "/in/A.RDY" := 7 ]} |}) ]}.

(** A state file of the current version, with one token in it. *)
Definition disk_one : gmap string fstate :=
  {[ "/in/state.json" :=
       Readable (Json {| Version := 1; dsLastRun := 42;
                         Files := Some {[ "/in/A.RDY" := 7 ]} |}) ]}.

End StoreVocabulary.

Section LockVocabulary.
Import Lock.

(** A lock file last written at instant 0, examined 31 minutes later. *)
Definition env_stale : env :=
  {| open1 := OpenErrExist; stat := Some 0; open2 := OpenOk |}.

End LockVocabulary.

Section ScanVocabulary.
Import Strings FS Scanner.

(** Whether the walk of [n] meets a directory that [os.ReadDir] cannot
    list. *)
Fixpoint unlistable (reach : bool) (n : node) : bool :=
  match n with
  | Dir _ r x cs =>
      negb (reach && r) ||
      existsb (fun c => unlistable (reach && x) (snd c)) cs
  | _ => false
  end.

(** The marker files of the walk of [n], which is at [path] under the name
    [name], in the order of the walk. *)
Fixpoint found (path name : string) (n : node) : list string :=
  match n with
  | Dir _ _ _ cs =>
      flat_map (fun c => found (Path.Join path (fst c)) (fst c) (snd c)) cs
  | _ => if isReady name then [path] else []
  end.

(** What the walk of [n] returns: an error of [os.ReadDir] when a directory
    cannot be listed, the markers found otherwise. *)
Definition walk_spec (reach : bool) (path name : string) (n : node)
    (st : list string) (res : list string * walk_result error) : Prop :=
  if unlistable reach n
  then exists st' p, res = (st', WErr (ErrReadDir p))
  else res = (st ++ found path name n, WNil).

(** The marker the non-recursive scan takes from one entry of the root. *)
Definition readyOf (root : string) (e : DirEntry) : list string :=
  if de_IsDir e then []
  else if isReady (de_Name e) then [Path.Join root (de_Name e)] else [].

(** Two listings: both fail, or they hold the same entries. *)
Definition same_listing (a b : option (list DirEntry)) : Prop :=
  match a, b with
  | Some l, Some l' => Permutation l l'
  | None, None => True
  | _, _ => False
  end.

(** Two results of [collect]: both fail, or they hold the same markers. *)
Definition same_markers (a b : list string + error) : Prop :=
  match a, b with
  | inl l, inl l' => Permutation l l'
  | inr _, inr _ => True
  | _, _ => False
  end.

Definition meta0 : meta := {| m_size := 0; m_modTime := 0 |}.

(** A root with one marker whose folder exists but cannot be listed. *)
Definition tree_locked : node :=
  Dir meta0 true true
    [("data", Dir meta0 true true
        [("locked.RDY", File meta0 (Some "ready"));
         ("locked", Dir meta0 false true [("a.txt", File meta0 (Some "a"))])])].

(** The non-recursive and the recursive scan. *)
Definition flat : Options := {| Recursive := false; FollowSymlinks := false |}.
Definition deep : Options := {| Recursive := true; FollowSymlinks := false |}.

(** A root with two markers, one folder, entries out of order. *)
Definition tree_orders : node :=
  Dir meta0 true true
    [("in", Dir meta0 true true
        [("ORDER200.RDY", File meta0 (Some "ready"));
         ("ORDER100", Dir meta0 true true
            [("notes.md", File {| m_size := 5; m_modTime := 20 |} (Some "notes"));
             ("data.txt", File {| m_size := 4; m_modTime := 10 |} (Some "data"))]);
         ("ORDER100.RDY", File meta0 (Some "ready"))])].

(** A root with a marker whose whole name is the suffix. *)
Definition tree_bare : node :=
  Dir meta0 true true
    [("in", Dir meta0 true true
        [(".rDy", File {| m_size := 5; m_modTime := 7 |} (Some "ready"));
         ("a.txt", File meta0 (Some "a"))])].

End ScanVocabulary.

Section UploadVocabulary.
Import Strings FS Scanner Uploader.

Variable fs : node.
Variable entries : list FileEntry.

(** An entry the loop makes a task for: its path is not empty and names,
    without following links, something that is neither a symbolic link nor a
    directory, and its name does not end in the marker suffix. *)
Definition eligible (fe : FileEntry) (fi : FileInfo) : Prop :=
  Scanner.Path fe <> "" /\
  os_Lstat fs (Scanner.Path fe) = Some fi /\
  fi_Symlink fi = false /\ fi_IsDir fi = false /\
  isReady (Name fe) = false.

(** An upload of the path of such an entry. *)
Definition upload_ok (up : string * string) : Prop :=
  exists fe fi, In fe entries /\ eligible fe fi /\ Scanner.Path fe = fst up.

(** The metadata of such an entry: its name, its size, and the SHA-256 of
    its bytes. *)
Definition meta_ok (uf : UploadedFile) : Prop :=
  exists fe fi bytes,
    In fe entries /\ eligible fe fi /\
    uName uf = Name fe /\ uSize uf = fi_Size fi /\
    read_file fs (Scanner.Path fe) = Some bytes /\
    uChecksum uf = Sha256.sum_hex bytes.

Definition effects_ok (st : effects) : Prop :=
  List.Forall upload_ok (uploads st) /\ List.Forall meta_ok (meta st).

End UploadVocabulary.

(** A marker and its folder, which holds a plain file, a file named like a
    marker, a link and a subdirectory; the four entries [Scan] lists are
    handed over. *)
Definition tree_upload : FS.node :=
  FS.Dir meta0 true true
    [("in", FS.Dir meta0 true true
        [("ORDER100.RDY", FS.File meta0 (Some "ready"));
         ("ORDER100", FS.Dir meta0 true true
            [("a.txt", FS.File {| FS.m_size := 1; FS.m_modTime := 5 |} (Some "x"));
             ("old.RDY", FS.File meta0 (Some "ready"));
             ("b-link.log", FS.Symlink meta0 (Some (FS.File meta0 (Some "y"))));
             ("folder", FS.Dir meta0 true true [])])])].

(** The entries [Scan] lists for that folder. *)
Definition entries_upload : list Scanner.FileEntry :=
  match Scanner.Scan tree_upload "/in" flat with
  | inl [m] => Scanner.FolderEntries m
  | _ => []
  end.

(** An uploader with a client and no test hook. *)
Definition uploader_real : Uploader.GCSUploader :=
  {| Uploader.Bucket := "bucket"; Uploader.hasClient := true;
     Uploader.Concurrency := 0; Uploader.fileUploadHook := None |}.


(* ===================================================================== *)
(** * Further vocabulary and inputs *)
(* ===================================================================== *)

Section StoreMoreVocabulary.
Import State.

(** What [Save] writes for a store. *)
Definition saved (s : Store) : fstate :=
  Readable (Json {| Version := 1; dsLastRun := LastRun s;
                    Files := Some (Data s) |}).

(** A fresh store with one token set, and a store with two tokens. *)
Definition store_set : Store := Set_ (New "/in/state.json") "/in/A.RDY" 7.

Definition store_two : Store :=
  {| Path := "/in/state.json";
     Data := {[ "/in/A.RDY" := 1; "/in/B.RDY" := 2 ]};
     LastRun := 0; dirty := true |}.

End StoreMoreVocabulary.

Section LockMoreVocabulary.
Import Lock.

(** A lock file whose modification time is ahead of the clock. *)
Definition env_ahead : env :=
  {| open1 := OpenErrExist; stat := Some 5000; open2 := OpenOk |}.

End LockMoreVocabulary.

Section ScanMoreVocabulary.
Import Strings FS Scanner.

(** The node some elements below [n], going through directories only: no
    symbolic link is resolved on the way. *)
Fixpoint real_descend (elems : list string) (n : node) : option node :=
  match elems with
  | [] => Some n
  | e :: elems' =>
      match n with
      | Dir _ _ _ cs =>
          match child e cs with
          | Some c => real_descend elems' c
          | None => None
          end
      | _ => None
      end
  end.

(** A root with a marker, a marker below a linked directory, and a
    directory named like a marker. *)
Definition tree_links : node :=
  Dir meta0 true true
    [("in", Dir meta0 true true
        [("A.RDY", File meta0 (Some "ready"));
         ("dir.RDY", Dir meta0 true true []);
         ("inner", Dir meta0 true true
            [("B.rdy", File meta0 (Some "ready"))]);
         ("link", Symlink meta0
            (Some (Dir meta0 true true
                     [("C.RDY", File meta0 (Some "ready"))])))])].

Fixpoint has_dot (s : string) : bool :=
  match s with
  | EmptyString => false
  | String c s' => Ascii.eqb c "." || has_dot s'
  end.

Definition deep_follow : Options :=
  {| Recursive := true; FollowSymlinks := true |}.

End ScanMoreVocabulary.

Section UploadMoreVocabulary.
Import Strings FS Scanner Uploader.

(** [func makePrefixGetter(objectPrefix string) func(string) string]: the
    closure returned, with the map [cache] it closes over as its state; the
    map is empty when the closure is made. *)
Definition makePrefixGetter (objectPrefix : string)
    (cache : gmap string string) (dir : string)
  : gmap string string * string :=
  match cache !! dir with
  | Some p => (cache, p)
  | None =>
      let base := Path.Base dir in
      if negb (String.eqb objectPrefix "") then
        let p := TrimSuffix objectPrefix "/" +:+ "/" +:+ base in
        (<[dir := p]> cache, p)
      else (<[dir := base]> cache, base)
  end.

(** Calls of one closure, one after the other. *)
Fixpoint calls {St A B : Type} (f : St -> A -> St * B) (st : St) (xs : list A)
  : St * list B :=
  match xs with
  | [] => (st, [])
  | x :: xs' =>
      let '(st1, y) := f st x in
      let '(st2, ys) := calls f st1 xs' in
      (st2, y :: ys)
  end.

(** The test of the loop of [UploadListedEntries]: whether a task is made
    for the entry. *)
Definition eligibleb (fs : node) (fe : FileEntry) : bool :=
  negb (String.eqb (Scanner.Path fe) "") &&
  match os_Lstat fs (Scanner.Path fe) with
  | Some fi => negb (fi_Symlink fi || fi_IsDir fi || isReady (Name fe))
  | None => false
  end.

(** The object name the loop computes for an entry; [filepath.ToSlash]
    leaves the name as it is where the separator is the slash. *)
Definition objectName (objectPrefix : string) (fe : FileEntry) : string :=
  getPrefix objectPrefix (Path.Dir (Scanner.Path fe)) +:+ "/" +:+ Name fe.

(** An uploader with the test hook set, every upload answered with nil. *)
Definition uploader_hook : GCSUploader :=
  {| Bucket := "bucket"; hasClient := false; Concurrency := 2;
     fileUploadHook := Some (fun _ _ => None) |}.

End UploadMoreVocabulary.

Section FormatVocabulary.

(** Every character of a string passes the test. *)
Fixpoint all_chars (p : ascii -> bool) (s : string) : bool :=
  match s with
  | EmptyString => true
  | String c s' => p c && all_chars p s'
  end.

Definition is_digit (c : ascii) : bool :=
  let n := nat_of_ascii c in (48 <=? n)%nat && (n <=? 57)%nat.

(** A hexadecimal digit in lower case. *)
Definition is_hex (c : ascii) : bool :=
  let n := nat_of_ascii c in
  is_digit c || (97 <=? n)%nat && (n <=? 102)%nat.

(** A letter, a digit, the hyphen or the underscore. *)
Definition is_url_safe (c : ascii) : bool :=
  let n := nat_of_ascii c in
  is_digit c || (65 <=? n)%nat && (n <=? 90)%nat ||
  (97 <=? n)%nat && (n <=? 122)%nat ||
  Ascii.eqb c "-" || Ascii.eqb c "_".

End FormatVocabulary.

(* ===================================================================== *)
(** * internal/uploader/firestore.go *)
(* ===================================================================== *)

Module Firestore.
Import Uploader.

(** [type FolderRecord struct] *)
Record FolderRecord := mkFolderRecord {
  FolderPath : string;
  UploadedAt : Time;
  Files      : list UploadedFile
}.

(** The alphabet of [base64.URLEncoding]. *)
Definition encodeURL : list ascii :=
  list_ascii_of_string
    "ABCDEFGHIJKLMNOPQRSTUVWXYZabcdefghijklmnopqrstuvwxyz0123456789-_".

Definition enc (v : Z) : ascii := nth (Z.to_nat v) encodeURL "A"%char.

(** [base64.RawURLEncoding.EncodeToString]: four characters for three
    bytes, and three or two characters, without padding, for the two bytes
    or the one byte left at the end. *)
Fixpoint RawURLEncoding (src : list Z) : list ascii :=
  match src with
  | b0 :: b1 :: b2 :: rest =>
      let val := Z.lor (Z.lor (Z.shiftl b0 16) (Z.shiftl b1 8)) b2 in
      enc (Z.land (Z.shiftr val 18) 0x3f) ::
      enc (Z.land (Z.shiftr val 12) 0x3f) ::
      enc (Z.land (Z.shiftr val 6) 0x3f) ::
      enc (Z.land val 0x3f) :: RawURLEncoding rest
  | [b0; b1] =>
      let val := Z.lor (Z.shiftl b0 16) (Z.shiftl b1 8) in
      [enc (Z.land (Z.shiftr val 18) 0x3f);
       enc (Z.land (Z.shiftr val 12) 0x3f);
       enc (Z.land (Z.shiftr val 6) 0x3f)]
  | [b0] =>
      let val := Z.shiftl b0 16 in
      [enc (Z.land (Z.shiftr val 18) 0x3f);
       enc (Z.land (Z.shiftr val 12) 0x3f)]
  | [] => []
  end.

(** [sha256.Sum256]: the 32 bytes of the digest. *)
Definition Sum256 (data : list Z) : list Z :=
  flat_map (Sha256.be_bytes 4) (Sha256.digest data).

(** [func hashPath(path string) string] *)
Definition hashPath (path : string) : string :=
  string_of_list_ascii
    (RawURLEncoding (firstn 15 (Sum256 (Sha256.bytes_of path)))).

Inductive error :=
| ErrCollectionRequired        (* "collection required" *)
| ErrClientNotInitialized      (* "uploader client not initialized" *)
| ErrWrite (msg : string).     (* from the hook or from the client *)

(** [type Firestore struct]: [hasClient] is [client != nil]. *)
Record Firestore := mkFirestore {
  hasClient : bool;
  writeHook : option (string -> string -> FolderRecord -> option error)
}.

Section Write.

(** The answer of the service to
    [f.client.Collection(collection).Doc(id).Set(f.ctx, rec)]. *)
Variable docSet : string -> string -> FolderRecord -> option error.

(** [func (f *Firestore) WriteFolderRecord(collection string, rec FolderRecord) error],
    with the writes it makes: collection, document id and record. *)
Definition WriteFolderRecord (f : Firestore) (collection : string)
    (rec : FolderRecord)
  : option error * list (string * string * FolderRecord) :=
  if String.eqb collection "" then (Some ErrCollectionRequired, [])
  else if negb (hasClient f) &&
          match writeHook f with Some _ => false | None => true end
  then (Some ErrClientNotInitialized, [])
  else
    let id := hashPath (FolderPath rec) in
    match writeHook f with
    | Some hook => (hook collection id rec, [(collection, id, rec)])
    | None => (docSet collection id rec, [(collection, id, rec)])
    end.

End Write.

End Firestore.

(* ===================================================================== *)
(** * internal/app/workerpool.go, goroutine by goroutine *)
(* ===================================================================== *)

Module PoolRun.

Section Machine.

Variables (S E : Type).
Variable tasks : list (Workerpool.Task S E).

(** Where the goroutine that called [RunParallel] is. *)
Inductive main_pc :=
| MLoop                   (* at the head of the loop over the tasks *)
| MSend                   (* blocked in [jobs <- job{idx: i}] *)
| MWait                   (* [jobs] is closed; in [wg.Wait()] *)
| MDone (e : option E).   (* has returned [e] *)

(** Where a worker goroutine is. *)
Inductive worker_pc :=
| WRecv                   (* waiting in [range jobs] *)
| WGot (j : nat)          (* has job [j], before the test of [ctx.Err()] *)
| WRun (j : nat)          (* about to call [tasks[j]] *)
| WFail (err : E)         (* the task has returned [err]; before the
                             [select] that sends it *)
| WExit.                  (* has returned, [wg.Done()] called *)

(** The variables the goroutines share: the loop variable [i] of the
    feeding loop ([sent], the number of jobs handed over), the context
    ([parent]: the parent context is cancelled; [called]: [cancel()] was
    called), the buffered channel [errCh] and its capacity, and the state
    the tasks act on.  [ran] lists the tasks called, in order. *)
Record state := mkState {
  main   : main_pc;
  sent   : nat;
  ws     : list worker_pc;
  parent : bool;
  called : bool;
  errCh  : list E;
  cap    : nat;
  store  : S;
  ran    : list nat
}.

(** [ctx.Err() != nil] *)
Definition ctxErr (s : state) : bool := parent s || called s.

Definition jobs_closed (s : state) : bool :=
  match main s with
  | MWait | MDone _ => true
  | _ => false
  end.

Definition is_exit (w : worker_pc) : bool :=
  match w with WExit => true | _ => false end.

(** Who moves: the main goroutine; the main goroutine and worker [k]
    together, when the job is handed over on the unbuffered channel; worker
    [k]; or the owner of the parent context, who cancels it. *)
Inductive label :=
| LMain
| LHand (k : nat)
| LWorker (k : nat)
| LCancel.

Definition with_main (s : state) (m : main_pc) : state :=
  {| main := m; sent := sent s; ws := ws s; parent := parent s;
     called := called s; errCh := errCh s; cap := cap s;
     store := store s; ran := ran s |}.

Definition with_worker (s : state) (k : nat) (w : worker_pc) : state :=
  {| main := main s; sent := sent s; ws := <[k := w]> (ws s);
     parent := parent s; called := called s; errCh := errCh s;
     cap := cap s; store := store s; ran := ran s |}.

(** One step of one goroutine; [None] when it cannot move. *)
Definition step (l : label) (s : state) : option state :=
  match l with
  | LMain =>
      match main s with
      | MLoop =>
          (* [for i := range tasks { if ctx.Err() != nil { break } ...]
             and, past the loop, [close(jobs)] *)
          if (sent s <? length tasks)%nat && negb (ctxErr s)
          then Some (with_main s MSend)
          else Some (with_main s MWait)
      | MSend => None
      | MWait =>
          (* [wg.Wait()] returns once every worker is done; the first
             error in [errCh] is returned, and the deferred [cancel()]
             runs *)
          if forallb is_exit (ws s) then
            Some {| main := MDone (hd_error (errCh s)); sent := sent s;
                    ws := ws s; parent := parent s; called := true;
                    errCh := errCh s; cap := cap s; store := store s;
                    ran := ran s |}
          else None
      | MDone _ => None
      end
  | LHand k =>
      match main s, ws s !! k with
      | MSend, Some WRecv =>
          Some {| main := MLoop; sent := Datatypes.S (sent s);
                  ws := <[k := WGot (sent s)]> (ws s); parent := parent s;
                  called := called s; errCh := errCh s; cap := cap s;
                  store := store s; ran := ran s |}
      | _, _ => None
      end
  | LWorker k =>
      match ws s !! k with
      | Some WRecv =>
          (* the loop over [jobs] ends when the channel is closed *)
          if jobs_closed s then Some (with_worker s k WExit) else None
      | Some (WGot j) =>
          if ctxErr s then Some (with_worker s k WExit)
          else Some (with_worker s k (WRun j))
      | Some (WRun j) =>
          match nth_error tasks j with
          | None => None          (* an index outside the slice panics *)
          | Some t =>
              let '(st', e) := t (store s) in
              Some {| main := main s; sent := sent s;
                      ws := <[k := match e with
                                   | None => WRecv
                                   | Some err => WFail err
                                   end]> (ws s);
                      parent := parent s; called := called s;
                      errCh := errCh s; cap := cap s; store := st';
                      ran := ran s ++ [j] |}
          end
      | Some (WFail err) =>
          (* [select { case errCh <- err: cancel(); default: }; return].
             No goroutine reads [errCh] before every worker has returned,
             so the send and the call of [cancel()] that follows it are one
             step. *)
          if (length (errCh s) <? cap s)%nat then
            Some {| main := main s; sent := sent s;
                    ws := <[k := WExit]> (ws s); parent := parent s;
                    called := true; errCh := errCh s ++ [err];
                    cap := cap s; store := store s; ran := ran s |}
          else Some (with_worker s k WExit)
      | Some WExit | None => None
      end
  | LCancel =>
      if parent s then None
      else Some {| main := main s; sent := sent s; ws := ws s;
                   parent := true; called := called s; errCh := errCh s;
                   cap := cap s; store := store s; ran := ran s |}
  end.

(** The steps of a run, one after the other. *)
Fixpoint exec (tr : list label) (s : state) : option state :=
  match tr with
  | [] => Some s
  | l :: tr' =>
      match step l s with
      | Some s' => exec tr' s'
      | None => None
      end
  end.

(** [RunParallel(parentCtx, concurrency, tasks)] once the workers are
    started, or returned at once when there is no task; [parentDone] tells
    whether the parent context is cancelled already. *)
Definition start (numCPU concurrency : Z) (parentDone : bool) (st : S)
  : state :=
  if (length tasks =? 0)%nat then
    {| main := MDone None; sent := 0; ws := []; parent := parentDone;
       called := false; errCh := []; cap := 0; store := st; ran := [] |}
  else
    let n := Z.to_nat (Workerpool.workers numCPU concurrency
                         (Z.of_nat (length tasks))) in
    {| main := MLoop; sent := 0; ws := repeat WRecv n; parent := parentDone;
       called := false; errCh := []; cap := n; store := st; ran := [] |}.

(** The jobs the workers hold. *)
Definition job_of (w : worker_pc) : list nat :=
  match w with
  | WGot j | WRun j => [j]
  | _ => []
  end.

Definition inflight (l : list worker_pc) : list nat := flat_map job_of l.

(** The errors the workers hold, not sent yet. *)
Definition error_of (w : worker_pc) : list E :=
  match w with
  | WFail err => [err]
  | _ => []
  end.

Definition pending (l : list worker_pc) : list E := flat_map error_of l.

(** The workers that have returned. *)
Definition exited (l : list worker_pc) : nat :=
  length (List.filter is_exit l).

(** The errors the tasks return when they are run one after the other in
    the order [sched], all of them, in that order. *)
Fixpoint run_errors (sched : list nat) (st : S) : list E :=
  match sched with
  | [] => []
  | i :: sched' =>
      match nth_error tasks i with
      | None => run_errors sched' st
      | Some t =>
          let '(st1, e1) := t st in
          match e1 with
          | Some e => e :: run_errors sched' st1
          | None => run_errors sched' st1
          end
      end
  end.

(** What holds of every state of a run that started in store [st0]. *)
Record inv (st0 : S) (s : state) : Prop := mkInv {
  inv_cap : length (ws s) = cap s;
  inv_sent : (sent s <= length tasks)%nat;
  inv_send : main s = MSend -> (sent s < length tasks)%nat;
  inv_jobs : exists dropped,
      Permutation (seq 0 (sent s)) (ran s ++ inflight (ws s) ++ dropped) /\
      (ctxErr s = false -> dropped = []);
  inv_wait : main s = MWait -> ctxErr s = false -> sent s = length tasks;
  inv_called : called s = true ->
      errCh s <> [] \/ exists e, main s = MDone e;
  inv_pushed : errCh s <> [] -> called s = true;
  inv_done : forall e, main s = MDone e ->
      e = hd_error (errCh s) /\ forallb is_exit (ws s) = true /\
      (parent s = false -> e = None ->
       Permutation (ran s) (seq 0 (length tasks)));
  inv_store : fst (Workerpool.runTasks tasks (ran s) st0) = store s;
  inv_errors : Permutation (errCh s ++ pending (ws s))
                           (run_errors (ran s) st0);
  inv_room : (length (errCh s) <= exited (ws s))%nat;
  inv_exit : In WExit (ws s) -> jobs_closed s = true \/ ctxErr s = true
}.

(** The steps a state has still to make, at most. *)
Definition worker_fuel (w : worker_pc) : nat :=
  match w with
  | WRecv => 1
  | WGot _ => 3
  | WRun _ => 2
  | WFail _ => 1
  | WExit => 0
  end.

Definition fuel (s : state) : nat :=
  (match main s with
   | MLoop => 4 * (length tasks - sent s) + 2
   | MSend => 4 * (length tasks - sent s) + 1
   | MWait => 1
   | MDone _ => 0
   end
   + list_sum (map worker_fuel (ws s))
   + (if parent s then 0 else 1))%nat.

End Machine.

Arguments WRecv {E}.
Arguments WGot {E} j.
Arguments WRun {E} j.
Arguments WFail {E} err.
Arguments WExit {E}.
Arguments is_exit {E} w.
Arguments job_of {E} w.
Arguments inflight {E} l.
Arguments error_of {E} w.
Arguments pending {E} l.
Arguments exited {E} l.
Arguments worker_fuel {E} w.
Arguments run_errors {S E} tasks sched st.
Arguments MLoop {E}.
Arguments MSend {E}.
Arguments MWait {E}.
Arguments MDone {E} e.
Arguments main {S E} s.
Arguments sent {S E} s.
Arguments ws {S E} s.
Arguments parent {S E} s.
Arguments called {S E} s.
Arguments errCh {S E} s.
Arguments cap {S E} s.
Arguments store {S E} s.
Arguments ran {S E} s.
Arguments ctxErr {S E} s.
Arguments jobs_closed {S E} s.
Arguments step {S E} tasks l s.
Arguments exec {S E} tasks tr s.
Arguments start {S E} tasks numCPU concurrency parentDone st.
Arguments inv {S E} tasks st0 s.
Arguments fuel {S E} tasks s.

End PoolRun.

Section PoolVocabulary.
Import PoolRun.

(** Two tasks that count, and the same with a first task that fails. *)
Definition tasks_ok : list (Workerpool.Task nat unit) :=
  [fun n => (S n, None); fun n => (S n, None)].

Definition tasks_fail_first : list (Workerpool.Task nat unit) :=
  [fun n => (n, Some tt); fun n => (S n, None)].

(** A run of one worker through two tasks, to the return. *)
Definition run_ok : list label :=
  [LMain; LHand 0; LWorker 0; LWorker 0;
   LMain; LHand 0; LWorker 0; LWorker 0;
   LMain; LWorker 0; LMain].

(** A run in which the main goroutine goes on to the second send before
    the worker has run the first task. *)
Definition run_ahead : list label :=
  [LMain; LHand 0; LMain; LWorker 0; LWorker 0; LWorker 0].



End PoolVocabulary.
(* ===================================================================== *)
(** * Order of strings, and sorting *)
(* ===================================================================== *)

Section SortFacts.
Import Strings.

Lemma compare_lt_trans (a : string) : forall b c,
  String.compare a b = Lt -> String.compare b c = Lt -> String.compare a c = Lt.
Proof.
  induction a as [|x a IH]; intros [|y b] [|z c]; simpl; try discriminate; auto.
  unfold Ascii.compare.
  destruct (N.compare_spec (N_of_ascii x) (N_of_ascii y)) as [Exy|Lxy|Gxy];
    try discriminate;
    destruct (N.compare_spec (N_of_ascii y) (N_of_ascii z)) as [Eyz|Lyz|Gyz];
    try discriminate;
    destruct (N.compare_spec (N_of_ascii x) (N_of_ascii z)) as [Exz|Lxz|Gxz];
    try lia; auto.
  apply IH.
Qed.

Lemma leb_refl (a : string) : String.leb a a = true.
Proof. destruct (String.leb_total a a); assumption. Qed.

Lemma leb_trans (a b c : string) :
  String.leb a b = true -> String.leb b c = true -> String.leb a c = true.
Proof.
  unfold String.leb.
  destruct (String.compare a b) eqn:Hab; try discriminate;
    destruct (String.compare b c) eqn:Hbc; try discriminate; intros _ _.
  - apply String.compare_eq_iff in Hab, Hbc. subst.
    fold (String.leb c c). apply leb_refl.
  - apply String.compare_eq_iff in Hab. subst. rewrite Hbc. reflexivity.
  - apply String.compare_eq_iff in Hbc. subst. rewrite Hab. reflexivity.
  - rewrite (compare_lt_trans _ _ _ Hab Hbc). reflexivity.
Qed.

Context {A : Type} (key : A -> string).

Lemma insert_by_perm x l : Permutation (insert_by key x l) (x :: l).
Proof.
  induction l as [|y l IH]; simpl; [reflexivity|].
  destruct (String.leb (key x) (key y)); [reflexivity|].
  rewrite IH. apply perm_swap.
Qed.

Lemma sort_by_perm l : Permutation (sort_by key l) l.
Proof.
  induction l as [|x l IH]; simpl; [reflexivity|].
  rewrite insert_by_perm. apply perm_skip, IH.
Qed.

Lemma insert_by_sorted x l :
  StronglySorted (key_le key) l -> StronglySorted (key_le key) (insert_by key x l).
Proof.
  induction 1 as [|y l Hs IH Hall]; simpl.
  - constructor; constructor.
  - destruct (String.leb (key x) (key y)) eqn:Hxy.
    + constructor; [constructor; assumption|].
      constructor; [exact Hxy|].
      eapply Forall_impl; [exact Hall|].
      intros z Hz. unfold key_le in *. eapply leb_trans; eassumption.
    + constructor; [exact IH|].
      assert (Hyx : key_le key y x).
      { destruct (String.leb_total (key x) (key y)); [congruence|assumption]. }
      eapply Permutation_Forall; [symmetry; apply insert_by_perm|].
      constructor; assumption.
Qed.

Lemma sort_by_sorted l : StronglySorted (key_le key) (sort_by key l).
Proof.
  induction l as [|x l IH]; simpl; [constructor|].
  apply insert_by_sorted, IH.
Qed.

(** Two ascending lists with the same elements are the same list, when no
    two different elements share a key. *)
Lemma sorted_perm_eq : forall l1 l2,
  StronglySorted (key_le key) l1 -> StronglySorted (key_le key) l2 ->
  Permutation l1 l2 ->
  (forall a b, In a l1 -> In b l1 -> key a = key b -> a = b) ->
  l1 = l2.
Proof.
  induction l1 as [|a l1 IH]; intros l2 H1 H2 Hp Hinj.
  - apply Permutation_nil in Hp. subst. reflexivity.
  - destruct l2 as [|b l2].
    { symmetry in Hp. apply Permutation_nil in Hp. discriminate. }
    apply StronglySorted_inv in H1 as [H1 Ha].
    apply StronglySorted_inv in H2 as [H2 Hb].
    assert (Hba : In b (a :: l1)).
    { eapply Permutation_in; [symmetry; exact Hp|left; reflexivity]. }
    assert (Hab : In a (b :: l2)).
    { eapply Permutation_in; [exact Hp|left; reflexivity]. }
    assert (E : a = b).
    { apply Hinj; [left; reflexivity|exact Hba|].
      apply String.leb_antisym.
      - destruct Hba as [->|Hin]; [apply leb_refl|].
        rewrite List.Forall_forall in Ha. apply (Ha _ Hin).
      - destruct Hab as [->|Hin]; [apply leb_refl|].
        rewrite List.Forall_forall in Hb. apply (Hb _ Hin). }
    subst b. f_equal. apply IH; try assumption.
    + eapply Permutation_cons_inv; exact Hp.
    + intros x y Hx Hy. apply Hinj; right; assumption.
Qed.

Lemma sort_by_perm_eq l1 l2 :
  Permutation l1 l2 ->
  (forall a b, In a l1 -> In b l1 -> key a = key b -> a = b) ->
  sort_by key l1 = sort_by key l2.
Proof.
  intros Hp Hinj. apply sorted_perm_eq; try apply sort_by_sorted.
  - rewrite !sort_by_perm. exact Hp.
  - intros a b Ha Hb. apply Hinj; eapply Permutation_in;
      try apply sort_by_perm; assumption.
Qed.

End SortFacts.

Lemma sort_Strings_perm_eq (l1 l2 : list string) :
  Permutation l1 l2 -> Strings.sort_Strings l1 = Strings.sort_Strings l2.
Proof.
  intros Hp. apply sort_by_perm_eq; [exact Hp|]. intros a b _ _ H. exact H.
Qed.

(* ===================================================================== *)
(** * Properties of the dedup store *)
(* ===================================================================== *)

Section StoreFacts.
Import State.

Lemma Set_same (s : Store) k v :
  Data s !! k = Some v -> Set_ s k v = s.
Proof.
  intros H. unfold Set_. rewrite H, Z.eqb_refl. reflexivity.
Qed.

Lemma Set_lookup (s : Store) k v : Data (Set_ s k v) !! k = Some v.
Proof.
  unfold Set_. destruct (Data s !! k) as [cur|] eqn:Hk; simpl.
  - destruct (Z.eqb_spec cur v) as [->|Hne]; simpl.
    + exact Hk.
    + apply lookup_insert_eq.
  - apply lookup_insert_eq.
Qed.

Lemma Set_changed (s : Store) k v :
  Data s !! k <> Some v ->
  Set_ s k v = {| Path := Path s; Data := <[k := v]> (Data s);
                  LastRun := LastRun s; dirty := true |}.
Proof.
  intros H. unfold Set_. destruct (Data s !! k) as [cur|]; [|reflexivity].
  destruct (Z.eqb_spec cur v) as [->|Hne]; [congruence|reflexivity].
Qed.

Lemma Save_clean io disk (s : Store) :
  dirty s = false -> Save io disk s = (disk, s, None).
Proof.
  intros H. unfold Save. rewrite H. simpl. rewrite orb_true_r. reflexivity.
Qed.

(** C6: [Set] with the token already stored changes nothing, the dirty flag
    included, so that [Save] on a clean store stays a no-op; with the key
    absent or another value stored it writes the map and marks the store
    dirty; and a second identical [Set] changes nothing. *)
Theorem Set_changes_only_on_new_value (s : Store) (k : string) (v : Z) :
  (Data s !! k = Some v ->
     Set_ s k v = s /\
     (dirty s = false ->
      forall io disk, Save io disk (Set_ s k v) = (disk, s, None))) /\
  (Data s !! k <> Some v ->
     Data (Set_ s k v) = <[k := v]> (Data s) /\
     dirty (Set_ s k v) = true /\
     Path (Set_ s k v) = Path s /\ LastRun (Set_ s k v) = LastRun s) /\
  Set_ (Set_ s k v) k v = Set_ s k v.
Proof.
  repeat split.
  - apply Set_same; assumption.
  - intros Hd io disk. rewrite Set_same by assumption. apply Save_clean, Hd.
  - rewrite Set_changed by assumption. reflexivity.
  - rewrite Set_changed by assumption. reflexivity.
  - rewrite Set_changed by assumption. reflexivity.
  - rewrite Set_changed by assumption. reflexivity.
  - apply Set_same, Set_lookup.
Qed.

Lemma Set_changes_only_on_new_value_witness :
  (Set_ store_a1 "/in/A.RDY" 1 = store_a1 /\
   Save SaveIoOk ∅ (Set_ store_a1 "/in/A.RDY" 1) = (∅, store_a1, None)) /\
  dirty (Set_ store_a1 "/in/A.RDY" 2) = true.
Proof.
  pose proof (Set_changes_only_on_new_value store_a1 "/in/A.RDY" 1) as [H1 _].
  pose proof (Set_changes_only_on_new_value store_a1 "/in/A.RDY" 2) as [_ [H2 _]].
  assert (Ha : Data store_a1 !! "/in/A.RDY" = Some 1) by reflexivity.
  assert (Hb : Data store_a1 !! "/in/A.RDY" <> Some 2) by (rewrite Ha; discriminate).
  destruct (H1 Ha) as [E1 E2]. destruct (H2 Hb) as [_ [E3 _]].
  split; [split|].
  - exact E1.
  - apply E2. reflexivity.
  - exact E3.
Defined.

(** ** Load *)

Lemma Load_error_only_unreadable disk (s : Store) e :
  snd (Load disk s) = Some e -> disk !! Path s = Some Unreadable.
Proof.
  unfold Load. destruct (String.eqb (Path s) ""); [discriminate|].
  destruct (disk !! Path s) as [[|[|ds]]|]; simpl; try discriminate; auto.
  destruct (Files ds); discriminate.
Qed.

(** C7, as stated, fails: a file whose version is not the one [Save] writes
    is loaded all the same, and the store is not empty afterwards. *)
Lemma Load_unknown_version_is_loaded :
  Load disk_v2 (New "/in/state.json") =
    ({| Path := "/in/state.json"; Data := {[ "/in/A.RDY" := 7 ]};
        LastRun := 42; dirty := false |}, None) /\
  Data (fst (Load disk_v2 (New "/in/state.json"))) <> ∅ /\
  ~ (forall disk path ds,
       disk !! path = Some (Readable (Json ds)) -> Version ds <> 1 ->
       Load disk (New path) = (New path, None)).
Proof.
  assert (E : Load disk_v2 (New "/in/state.json") =
    ({| Path := "/in/state.json"; Data := {[ "/in/A.RDY" := 7 ]};
        LastRun := 42; dirty := false |}, None)).
  { reflexivity. }
  split; [exact E|]. split.
  - rewrite E. simpl. intros H.
    apply (f_equal (fun m : gmap string Z => m !! "/in/A.RDY")) in H.
    rewrite lookup_singleton_eq, lookup_empty in H. discriminate.
  - intros H.
    specialize (H disk_v2 "/in/state.json" _ (lookup_singleton_eq _ _) ltac:(simpl; lia)).
    rewrite E in H. inversion H.
Qed.

(** C7, amended: on a fresh store [Load] returns no error whenever the file
    is absent or can be read, whatever is in it; the store stays empty when
    the file is absent, fails to decode, or decodes without a [files] map;
    and a decoded [files] map is taken over with [last_run], whatever the
    [version] field says. *)
Theorem Load_fresh_tolerant (disk : gmap string fstate) (path : string) :
  (disk !! path <> Some Unreadable -> snd (Load disk (New path)) = None) /\
  (disk !! path = None -> Load disk (New path) = (New path, None)) /\
  (disk !! path = Some (Readable Garbage) ->
     Load disk (New path) = (New path, None)) /\
  (forall ds, disk !! path = Some (Readable (Json ds)) -> Files ds = None ->
     Load disk (New path) = (New path, None)) /\
  (forall ds files, disk !! path = Some (Readable (Json ds)) ->
     Files ds = Some files -> path <> "" ->
     Load disk (New path) =
       ({| Path := path; Data := files; LastRun := dsLastRun ds;
           dirty := false |}, None)).
Proof.
  split; [|split; [|split; [|split]]].
  - intros H. destruct (snd (Load disk (New path))) as [e|] eqn:E; [|reflexivity].
    apply Load_error_only_unreadable in E. simpl in E. contradiction.
  - intros H. unfold Load. simpl. rewrite H. destruct (String.eqb path ""); reflexivity.
  - intros H. unfold Load. simpl. rewrite H. destruct (String.eqb path ""); reflexivity.
  - intros ds H Hf. unfold Load. simpl. rewrite H, Hf.
    destruct (String.eqb path ""); reflexivity.
  - intros ds files H Hf Hp. unfold Load. simpl. rewrite H, Hf.
    destruct (String.eqb_spec path ""); [contradiction|].
    unfold maps_Copy. rewrite (right_id_L ∅ (∪)). reflexivity.
Qed.

Lemma Load_fresh_tolerant_witness :
  Load ∅ (New "/in/state.json") = (New "/in/state.json", None) /\
  Load {[ "/in/state.json" := Readable Garbage ]} (New "/in/state.json")
    = (New "/in/state.json", None) /\
  snd (Load disk_v2 (New "/in/state.json")) = None.
Proof.
  destruct (Load_fresh_tolerant ∅ "/in/state.json") as (_ & Ha & _).
  destruct (Load_fresh_tolerant {[ "/in/state.json" := Readable Garbage ]}
              "/in/state.json") as (_ & _ & Hb & _).
  destruct (Load_fresh_tolerant disk_v2 "/in/state.json") as (Hc & _).
  split; [|split].
  - apply Ha. apply lookup_empty.
  - apply Hb. apply lookup_singleton_eq.
  - apply Hc. unfold disk_v2. rewrite lookup_singleton_eq. discriminate.
Defined.

(** ** No key is ever removed *)

Lemma string_length_app (a b : string) :
  String.length (a +:+ b) = (String.length a + String.length b)%nat.
Proof. induction a as [|c a IH]; simpl; [reflexivity|]. rewrite IH. reflexivity. Qed.

Lemma append_tmp_neq (p : string) : p +:+ ".tmp" <> p.
Proof.
  intros H. apply (f_equal String.length) in H.
  rewrite string_length_app in H. simpl in H. lia.
Qed.

Lemma step_path o disk (s : Store) : Path (snd (step o (disk, s))) = Path s.
Proof.
  destruct o; simpl; try reflexivity.
  - unfold Load. destruct (String.eqb (Path s) ""); [reflexivity|].
    destruct (disk !! Path s) as [[|[|ds]]|]; try reflexivity.
    destruct (Files ds); reflexivity.
  - unfold Save. destruct (String.eqb (Path s) "" || negb (dirty s)); [reflexivity|].
    destruct io; reflexivity.
  - unfold Set_. destruct (Data s !! path); [|reflexivity].
    destruct (negb _); reflexivity.
Qed.

Lemma step_dom o disk (s : Store) :
  dom (Data s) ⊆ dom (Data (snd (step o (disk, s)))).
Proof.
  destruct o; simpl; try reflexivity.
  - unfold Load. destruct (String.eqb (Path s) ""); [reflexivity|].
    destruct (disk !! Path s) as [[|[|ds]]|]; try reflexivity.
    destruct (Files ds); [|reflexivity]. simpl. unfold maps_Copy.
    rewrite dom_union_L. set_solver.
  - unfold Save. destruct (String.eqb (Path s) "" || negb (dirty s)); [reflexivity|].
    destruct io; reflexivity.
  - unfold Set_. destruct (Data s !! path); [destruct (negb _)|];
      simpl; try reflexivity; rewrite dom_insert_L; set_solver.
Qed.

Lemma step_file o disk (s : Store) :
  file_covered disk s ->
  file_covered (fst (step o (disk, s))) (snd (step o (disk, s))) /\
  file_keys disk (Path s) ⊆ file_keys (fst (step o (disk, s))) (Path s).
Proof.
  unfold file_covered. intros Hc.
  destruct o.
  - split; [|reflexivity]. rewrite step_path.
    pose proof (step_dom OpLoad disk s). simpl in *. set_solver.
  - simpl. unfold Save.
    destruct (String.eqb (Path s) "" || negb (dirty s)); [split; [exact Hc|reflexivity]|].
    destruct io; simpl; try (split; [exact Hc|reflexivity]).
    + assert (E : file_keys (<[Path s +:+ ".tmp" := Readable (Json
          {| Version := 1; dsLastRun := LastRun s; Files := Some (Data s) |})]> disk)
          (Path s) = file_keys disk (Path s)).
      { unfold file_keys. rewrite lookup_insert_ne by apply append_tmp_neq. reflexivity. }
      rewrite E. split; [exact Hc|reflexivity].
    + unfold file_keys at 1 3. rewrite !lookup_insert_eq. simpl.
      split; [reflexivity|exact Hc].
  - split; [exact Hc|reflexivity].
  - split; [|reflexivity]. rewrite step_path.
    pose proof (step_dom (OpSet path value) disk s). simpl in *. set_solver.
  - split; [exact Hc|reflexivity].
Qed.

Lemma run_keys ops : forall disk (s : Store),
  Path (snd (run ops (disk, s))) = Path s /\
  dom (Data s) ⊆ dom (Data (snd (run ops (disk, s)))) /\
  (file_covered disk s ->
   file_keys disk (Path s) ⊆ file_keys (fst (run ops (disk, s))) (Path s)).
Proof.
  induction ops as [|o ops IH]; intros disk s.
  - simpl. repeat split; reflexivity.
  - change (run (o :: ops) (disk, s)) with (run ops (step o (disk, s))).
    destruct (step o (disk, s)) as [disk1 s1] eqn:E.
    pose proof (step_path o disk s) as Hp.
    pose proof (step_dom o disk s) as Hd.
    pose proof (step_file o disk s) as Hf.
    rewrite E in Hp, Hd, Hf. simpl in Hp, Hd, Hf.
    destruct (IH disk1 s1) as (IHp & IHd & IHf).
    split; [congruence|]. split; [etrans; [exact Hd|exact IHd]|].
    intros Hc. destruct (Hf Hc) as [Hc1 Hm].
    specialize (IHf Hc1). rewrite Hp in IHf. etrans; [exact Hm|exact IHf].
Qed.

Lemma run_no_path ops : forall disk (s : Store),
  Path s = "" -> fst (run ops (disk, s)) = disk.
Proof.
  induction ops as [|o ops IH]; intros disk s Hp; [reflexivity|].
  change (run (o :: ops) (disk, s)) with (run ops (step o (disk, s))).
  pose proof (step_path o disk s) as Hp1.
  assert (Hd : fst (step o (disk, s)) = disk).
  { destruct o; simpl; try reflexivity.
    unfold Save. rewrite Hp. reflexivity. }
  destruct (step o (disk, s)) as [disk1 s1]. simpl in *. subst disk1.
  apply IH. congruence.
Qed.

Lemma Load_fresh_covers disk path :
  path <> "" -> disk !! path <> Some Unreadable ->
  file_covered disk (fst (Load disk (New path))).
Proof.
  intros Hne Hr. unfold file_covered.
  pose proof (step_path OpLoad disk (New path)) as Hp. simpl in Hp. rewrite Hp.
  unfold file_keys, Load. simpl.
  destruct (String.eqb_spec path ""); [contradiction|].
  destruct (disk !! path) as [[|[|ds]]|] eqn:E; try set_solver.
  destruct (Files ds) as [files|] eqn:Ef; [|set_solver].
  simpl. unfold maps_Copy. rewrite dom_union_L. set_solver.
Qed.

(** C10, as stated, fails for the persisted state file: [Save] writes the
    map in memory and nothing else, so a store that is saved without having
    been loaded replaces the file, and the keys the file held are gone.
    The map in memory has lost nothing. *)
Lemma Save_without_Load_drops_file_keys :
  let st := run [OpSet "/in/B.RDY" 9; OpSave SaveIoOk]
                (disk_one, New "/in/state.json") in
  ("/in/A.RDY" ∈ file_keys disk_one "/in/state.json") /\
  ("/in/A.RDY" ∉ file_keys (fst st) "/in/state.json") /\
  file_keys (fst st) "/in/state.json" = {[ "/in/B.RDY" ]} /\
  dom (Data (New "/in/state.json")) ⊆ dom (Data (snd st)) /\
  ~ (forall ops disk (s : Store),
       file_keys disk (Path s)
         ⊆ file_keys (fst (run ops (disk, s))) (Path s)).
Proof.
  assert (Hin : "/in/A.RDY" ∈ file_keys disk_one "/in/state.json").
  { unfold file_keys, disk_one. rewrite lookup_singleton_eq. simpl.
    apply elem_of_dom. rewrite lookup_singleton_eq. eauto. }
  assert (Hk : file_keys
            (fst (run [OpSet "/in/B.RDY" 9; OpSave SaveIoOk]
                      (disk_one, New "/in/state.json"))) "/in/state.json"
          = {[ "/in/B.RDY" ]}).
  { assert (Hd : fst (run [OpSet "/in/B.RDY" 9; OpSave SaveIoOk]
                            (disk_one, New "/in/state.json"))
                 = <["/in/state.json" :=
                       Readable (Json {| Version := 1; dsLastRun := zeroTime;
                                         Files := Some (<["/in/B.RDY" := 9]> ∅) |})]>
                     (delete "/in/state.json.tmp"
                        (<["/in/state.json.tmp" :=
                             Readable (Json {| Version := 1; dsLastRun := zeroTime;
                                               Files := Some (<["/in/B.RDY" := 9]> ∅) |})]>
                           disk_one))) by reflexivity.
    rewrite Hd. unfold file_keys. rewrite lookup_insert_eq. simpl.
    rewrite dom_insert_L, dom_empty_L. apply (right_id_L ∅ (∪)). }
  assert (Hout : "/in/A.RDY" ∉ file_keys
            (fst (run [OpSet "/in/B.RDY" 9; OpSave SaveIoOk]
                      (disk_one, New "/in/state.json"))) "/in/state.json").
  { rewrite Hk. intros H. apply elem_of_singleton in H. discriminate. }
  intros st. split; [exact Hin|]. split; [exact Hout|]. split; [exact Hk|].
  split; [simpl; rewrite dom_empty_L; apply empty_subseteq|].
  intros H.
  specialize (H [OpSet "/in/B.RDY" 9; OpSave SaveIoOk] disk_one
                (New "/in/state.json")).
  apply Hout, H, Hin.
Qed.

(** C10, amended: no operation removes a key from the map in memory,
    whatever the sequence of operations; [Save] writes the whole map, so as
    long as the state file's keys are in memory they stay in the file; and a
    run that starts with [Load] on a fresh store, the file being absent or
    readable, leaves every key of the old file in the new one. *)
Theorem store_keys_never_removed (ops : list op)
    (disk : gmap string fstate) (s : Store) :
  dom (Data s) ⊆ dom (Data (snd (run ops (disk, s)))) /\
  (file_keys disk (Path s) ⊆ dom (Data s) ->
   file_keys disk (Path s) ⊆ file_keys (fst (run ops (disk, s))) (Path s)) /\
  (disk !! Path s <> Some Unreadable ->
   file_keys disk (Path s)
     ⊆ file_keys (fst (run (OpLoad :: ops) (disk, New (Path s)))) (Path s)).
Proof.
  destruct (run_keys ops disk s) as (_ & Hd & Hf).
  split; [exact Hd|]. split; [exact Hf|].
  intros Hr.
  change (run (OpLoad :: ops) (disk, New (Path s)))
    with (run ops (disk, fst (Load disk (New (Path s))))).
  pose proof (step_path OpLoad disk (New (Path s))) as Hp. simpl in Hp.
  destruct (String.eqb_spec (Path s) "") as [He|Hne].
  - rewrite run_no_path by (rewrite Hp; exact He). reflexivity.
  - destruct (run_keys ops disk (fst (Load disk (New (Path s))))) as (_ & _ & Hf').
    rewrite Hp in Hf'. apply Hf'. apply Load_fresh_covers; assumption.
Qed.

Lemma store_keys_never_removed_witness :
  file_keys disk_one "/in/state.json"
    ⊆ file_keys (fst (run [OpLoad; OpSet "/in/B.RDY" 9; OpSetLastRun 50; OpSave SaveIoOk]
                        (disk_one, New "/in/state.json"))) "/in/state.json".
Proof.
  destruct (store_keys_never_removed
              [OpSet "/in/B.RDY" 9; OpSetLastRun 50; OpSave SaveIoOk]
              disk_one (New "/in/state.json")) as (_ & _ & H).
  apply H. simpl. unfold disk_one. rewrite lookup_singleton_eq. discriminate.
Defined.

End StoreFacts.

(* ===================================================================== *)
(** * Properties of the process lock *)
(* ===================================================================== *)

Section LockFacts.
Import Lock.

Lemma Time_Sub_exact (t u : Time) :
  minDuration <= t - u <= maxDuration -> Time_Sub t u = t - u.
Proof.
  intros H. unfold Time_Sub.
  destruct (Z.gtb_spec (t - u) maxDuration); [lia|].
  destruct (Z.ltb_spec (t - u) minDuration); [lia|reflexivity].
Qed.

(** C5: the lock file exists already (the exclusive creation answers
    ErrExist).  No error is returned in any case.  When [os.Stat] succeeds
    and [now().Sub(modTime)] exceeds the TTL, the file is removed and the
    exclusive creation is tried again, once, and the lock is acquired exactly
    when that second creation succeeds.  When the file is not stale or cannot
    be examined, nothing is removed, nothing is retried and the lock is not
    acquired. *)
Theorem acquire_on_existing_lock (e : env) (ttl : Duration) (now : Time) :
  open1 e = OpenErrExist ->
  let r := acquireLockWith e ttl now in
  err r = None /\
  (forall modTime, stat e = Some modTime -> Time_Sub now modTime > ttl ->
     trace r = ([SysOpenExcl; SysStat; SysRemove; SysOpenExcl]
                  ++ (if acquired r then [SysFprintf; SysClose] else []))%list /\
     (acquired r = true <-> open2 e = OpenOk)) /\
  (stat e = None \/
   (exists modTime, stat e = Some modTime /\ Time_Sub now modTime <= ttl) ->
     acquired r = false /\ owned r = false /\
     trace r = [SysOpenExcl; SysStat]) /\
  (open2 e <> OpenOk -> acquired r = false).
Proof.
  intros H1 r. subst r. unfold acquireLockWith. rewrite H1.
  split; [|split; [|split]].
  - destruct (stat e) as [mt|]; [|reflexivity].
    destruct (Time_Sub now mt >? ttl); [|reflexivity].
    destruct (open2 e); reflexivity.
  - intros mt Hs Hstale. rewrite Hs.
    destruct (Z.gtb_spec (Time_Sub now mt) ttl); [|lia].
    destruct (open2 e); simpl; (split; [reflexivity|]); split; congruence.
  - intros [Hs|(mt & Hs & Hfresh)]; rewrite Hs; [repeat split|].
    destruct (Z.gtb_spec (Time_Sub now mt) ttl); [lia|]. repeat split.
  - intros H2. destruct (stat e) as [mt|]; [|reflexivity].
    destruct (Time_Sub now mt >? ttl); [|reflexivity].
    destruct (open2 e); [contradiction|reflexivity|reflexivity].
Qed.

Lemma acquire_on_existing_lock_witness :
  err (AcquireLock env_stale (31 * 60 * 1000000000)) = None /\
  acquired (AcquireLock env_stale (31 * 60 * 1000000000)) = true /\
  trace (AcquireLock env_stale (31 * 60 * 1000000000))
    = [SysOpenExcl; SysStat; SysRemove; SysOpenExcl; SysFprintf; SysClose].
Proof.
  destruct (acquire_on_existing_lock env_stale (30 * 60 * 1000000000)
              (31 * 60 * 1000000000) eq_refl) as (He & Hs & _).
  destruct (Hs 0 eq_refl) as [Ht Ha]; [vm_compute; reflexivity|].
  split; [exact He|]. split; [apply Ha; reflexivity|].
  unfold AcquireLock. rewrite Ht.
  replace (acquired _) with true by (symmetry; apply Ha; reflexivity).
  reflexivity.
Defined.

End LockFacts.

(* ===================================================================== *)
(** * Properties of the worker pool *)
(* ===================================================================== *)

Section PoolFacts.
Import Workerpool.
Context {S E : Type}.

(** C8: with no task the call returns at once, without error, no worker
    started and the state untouched.  Otherwise the number of workers is the
    requested concurrency, or, when that is zero or negative, the number of
    CPUs brought into the interval from 2 to 8; and in both cases it is
    lowered to the number of tasks when larger. *)
Theorem RunParallel_worker_count (numCPU : Z) (sched : list nat)
    (concurrency : Z) (tasks : list (Task S E)) (st : S) :
  (tasks = [] ->
     RunParallel numCPU sched concurrency tasks st
       = {| spawned := 0; final := st; perr := None |}) /\
  (tasks <> [] ->
     exists selected : Z,
       (concurrency <= 0 ->
          selected = Z.max (Z.min numCPU 8) 2 /\ 2 <= selected <= 8 /\
          (2 <= numCPU <= 8 -> selected = numCPU)) /\
       (0 < concurrency -> selected = concurrency) /\
       spawned (RunParallel numCPU sched concurrency tasks st)
         = Z.min selected (Z.of_nat (length tasks)) /\
       spawned (RunParallel numCPU sched concurrency tasks st)
         <= Z.of_nat (length tasks)).
Proof.
  split.
  - intros ->. reflexivity.
  - intros Hne.
    exists (if concurrency <=? 0 then Z.max (Z.min numCPU 8) 2 else concurrency).
    assert (Hlen : (Z.of_nat (length tasks) =? 0) = false).
    { destruct tasks; [contradiction|]. simpl length. apply Z.eqb_neq. lia. }
    unfold RunParallel. rewrite Hlen.
    destruct (runTasks tasks sched st) as [st' e]. simpl. unfold workers.
    destruct (Z.leb_spec concurrency 0).
    + split; [intros _; repeat split; lia|]. split; [lia|].
      destruct (Z.gtb_spec (Z.max (Z.min numCPU 8) 2) (Z.of_nat (length tasks))); lia.
    + split; [lia|]. split; [reflexivity|].
      destruct (Z.gtb_spec concurrency (Z.of_nat (length tasks))); lia.
Qed.

End PoolFacts.

Lemma RunParallel_worker_count_witness :
  Workerpool.spawned
    (Workerpool.RunParallel 16 [0%nat; 1%nat; 2%nat] 0
       [ (fun n : nat => (Datatypes.S n, None));
         (fun n : nat => (Datatypes.S n, None));
         (fun n : nat => (Datatypes.S n, @None unit)) ] 0%nat) = 3.
Proof.
  destruct (RunParallel_worker_count 16 [0%nat; 1%nat; 2%nat] 0
       [ (fun n : nat => (Datatypes.S n, None));
         (fun n : nat => (Datatypes.S n, None));
         (fun n : nat => (Datatypes.S n, @None unit)) ] 0%nat) as [_ H].
  destruct H as (sel & Ha & _ & Hs & _); [discriminate|].
  destruct (Ha ltac:(lia)) as (-> & _). rewrite Hs. reflexivity.
Defined.

(* ===================================================================== *)
(** * Paths in clean form *)
(* ===================================================================== *)

Section PathFacts.
Import Strings Path.

Lemma split_slash_nonnil p : split_slash p <> [].
Proof. destruct p as [|c p]; simpl; [discriminate|].
  destruct (Ascii.eqb c "/"); [discriminate|]. destruct (split_slash p); discriminate. Qed.

Lemma split_slash_name n : has_slash n = false -> split_slash n = [n].
Proof.
  induction n as [|c n IH]; simpl; [reflexivity|].
  intros H. apply orb_false_iff in H as [Hc Hn]. rewrite Hc, (IH Hn). reflexivity.
Qed.

Lemma split_slash_app a b :
  split_slash (a +:+ String "/" b) = split_slash a ++ split_slash b.
Proof.
  induction a as [|c a IH]; simpl; [reflexivity|].
  destruct (Ascii.eqb c "/"); rewrite IH; [reflexivity|].
  destruct (split_slash a) eqn:E; [|reflexivity].
  exfalso. eapply split_slash_nonnil, E.
Qed.

Lemma is_name_inv n :
  is_name n = true -> n <> "" /\ n <> "." /\ n <> ".." /\ has_slash n = false.
Proof.
  unfold is_name. rewrite !andb_true_iff, !negb_true_iff, !String.eqb_neq. tauto.
Qed.

Lemma split_concat cs :
  cs <> [] -> List.Forall (fun c => is_name c = true) cs ->
  split_slash (String.concat "/" cs) = cs.
Proof.
  induction cs as [|c cs IH]; [contradiction|]. intros _ H.
  inversion H as [|? ? Hc Hcs]; subst.
  apply is_name_inv in Hc as (_ & _ & _ & Hc).
  destruct cs as [|c' cs].
  - simpl. apply split_slash_name, Hc.
  - change (String.concat "/" (c :: c' :: cs))
      with (c +:+ String "/" (String.concat "/" (c' :: cs))).
    rewrite split_slash_app, split_slash_name by exact Hc.
    rewrite IH; [reflexivity|discriminate|exact Hcs].
Qed.

Lemma name_first_char c n : is_name (String c n) = true -> Ascii.eqb c "/" = false.
Proof.
  intros H. apply is_name_inv in H as (_ & _ & _ & H). simpl in H.
  apply orb_false_iff in H as [H _]. exact H.
Qed.

Lemma render_cons rt c cs :
  c <> "" ->
  render rt (c :: cs) = (if rt then "/" else "") +:+ String.concat "/" (c :: cs).
Proof.
  intros Hc. unfold render. destruct rt; [reflexivity|].
  destruct c as [|a c]; [contradiction|].
  destruct cs; reflexivity.
Qed.

(** The elements of a rendered path. *)
Lemma split_render rt cs :
  List.Forall (fun c => is_name c = true) cs ->
  split_slash (render rt cs) =
    match cs with
    | [] => if rt then [""; ""] else ["."]
    | _ => (if rt then [""] else []) ++ cs
    end.
Proof.
  intros H. destruct cs as [|c cs]; [destruct rt; reflexivity|].
  assert (Hs : split_slash (String.concat "/" (c :: cs)) = c :: cs)
    by (apply split_concat; [discriminate|exact H]).
  inversion H as [|? ? Hc _]; subst. apply is_name_inv in Hc as (Hc & _).
  rewrite render_cons by exact Hc. destruct rt.
  - change ("/" +:+ String.concat "/" (c :: cs))
      with ("" +:+ String "/" (String.concat "/" (c :: cs))).
    rewrite split_slash_app, Hs. reflexivity.
  - exact Hs.
Qed.

Lemma clean_step_name r out n :
  is_name n = true -> clean_step r out n = n :: out.
Proof.
  intros H. apply is_name_inv in H as (H1 & H2 & H3 & _).
  unfold clean_step.
  rewrite (proj2 (String.eqb_neq _ _) H1), (proj2 (String.eqb_neq _ _) H2),
          (proj2 (String.eqb_neq _ _) H3). reflexivity.
Qed.

Lemma fold_clean_names r cs : forall out,
  List.Forall (fun c => is_name c = true) cs ->
  fold_left (clean_step r) cs out = rev cs ++ out.
Proof.
  induction cs as [|c cs IH]; intros out H; simpl; [reflexivity|].
  inversion H as [|? ? Hc Hcs]; subst.
  rewrite clean_step_name by exact Hc. rewrite IH by exact Hcs.
  rewrite <- app_assoc. reflexivity.
Qed.

(** Cleaning a rendered path, possibly followed by more elements. *)
Lemma fold_clean_render r rt cs more out :
  List.Forall (fun c => is_name c = true) cs ->
  fold_left (clean_step r) (split_slash (render rt cs) ++ more) out
  = fold_left (clean_step r) more (rev cs ++ out).
Proof.
  intros H. rewrite fold_left_app. f_equal. rewrite split_render by exact H.
  destruct cs as [|c cs].
  - destruct rt; reflexivity.
  - destruct rt; simpl fold_left at 1.
    + change (clean_step r out "") with out. apply (fold_clean_names r (c :: cs)), H.
    + apply (fold_clean_names r (c :: cs)), H.
Qed.

Lemma clean_elems_render r rt cs :
  List.Forall (fun c => is_name c = true) cs ->
  clean_elems r (split_slash (render rt cs)) = cs.
Proof.
  intros H. unfold clean_elems.
  rewrite <- (app_nil_r (split_slash _)), fold_clean_render by exact H.
  simpl. rewrite app_nil_r. apply rev_involutive.
Qed.

Lemma is_rooted_render rt cs :
  List.Forall (fun c => is_name c = true) cs -> is_rooted (render rt cs) = rt.
Proof.
  intros H. destruct cs as [|c cs]; [destruct rt; reflexivity|].
  inversion H as [|? ? Hc _]; subst.
  rewrite render_cons by (apply is_name_inv in Hc; tauto).
  destruct rt; [reflexivity|].
  destruct c as [|a c]; [discriminate|].
  apply name_first_char in Hc. destruct cs; simpl; exact Hc.
Qed.

Lemma render_not_empty rt cs : String.eqb (render rt cs) "" = false.
Proof.
  unfold render.
  destruct (String.eqb_spec ((if rt then "/" else "") +:+ String.concat "/" cs) "") as [E|E].
  - reflexivity.
  - apply String.eqb_neq. exact E.
Qed.

Lemma is_rooted_append a b : a <> "" -> is_rooted (a +:+ b) = is_rooted a.
Proof. destruct a; [contradiction|reflexivity]. Qed.

Lemma Clean_render rt cs :
  List.Forall (fun c => is_name c = true) cs -> Clean (render rt cs) = render rt cs.
Proof.
  intros H. unfold Clean.
  rewrite is_rooted_render, clean_elems_render by exact H. reflexivity.
Qed.

Lemma Join_render_name rt cs n :
  List.Forall (fun c => is_name c = true) cs -> is_name n = true ->
  Join (render rt cs) n = render rt (cs ++ [n]).
Proof.
  intros H Hn. unfold Join. rewrite render_not_empty. simpl negb. cbv iota.
  unfold Clean.
  assert (Hne : render rt cs <> "") by (apply String.eqb_neq, render_not_empty).
  rewrite is_rooted_append, is_rooted_render by assumption.
  change ("/" +:+ n) with (String "/" n).
  rewrite split_slash_app. unfold clean_elems.
  rewrite fold_clean_render by exact H.
  rewrite split_slash_name by (apply is_name_inv in Hn; tauto).
  simpl. rewrite clean_step_name by exact Hn.
  rewrite app_nil_r. change (n :: rev cs) with (rev [n] ++ rev cs).
  rewrite <- rev_app_distr, rev_involutive. reflexivity.
Qed.

Lemma Join_render_empty rt cs :
  List.Forall (fun c => is_name c = true) cs ->
  Join (render rt cs) "" = render rt cs.
Proof.
  intros H. unfold Join. rewrite render_not_empty. simpl negb. cbv iota.
  unfold Clean.
  assert (Hne : render rt cs <> "") by (apply String.eqb_neq, render_not_empty).
  rewrite is_rooted_append, is_rooted_render by assumption.
  change ("/" +:+ "") with (String "/" "").
  rewrite split_slash_app. unfold clean_elems.
  rewrite fold_clean_render by exact H.
  simpl. change (clean_step rt (rev cs ++ []) "") with (rev cs ++ []). rewrite app_nil_r, rev_involutive. reflexivity.
Qed.

Lemma split_render_snoc rt cs n :
  List.Forall (fun c => is_name c = true) (cs ++ [n]) ->
  split_slash (render rt (cs ++ [n])) = ((if rt then [""] else []) ++ cs) ++ [n].
Proof.
  intros H. rewrite split_render by exact H.
  destruct (cs ++ [n]) eqn:E; [destruct cs; discriminate|].
  rewrite <- E, app_assoc. reflexivity.
Qed.

Lemma Dir_render rt cs n :
  List.Forall (fun c => is_name c = true) cs -> is_name n = true ->
  Dir (render rt (cs ++ [n])) = render rt cs.
Proof.
  intros H Hn.
  assert (H' : List.Forall (fun c => is_name c = true) (cs ++ [n]))
    by (apply List.Forall_app; split; [exact H|constructor; [exact Hn|constructor]]).
  unfold Dir. rewrite is_rooted_render by exact H'.
  rewrite split_render_snoc by exact H'. rewrite removelast_last.
  f_equal. unfold clean_elems. rewrite fold_left_app.
  destruct rt; simpl fold_left at 2.
  - change (clean_step true [] "") with (@nil string).
    rewrite fold_clean_names by exact H. rewrite app_nil_r. apply rev_involutive.
  - rewrite fold_clean_names by exact H. rewrite app_nil_r. apply rev_involutive.
Qed.

Lemma Base_render rt cs n :
  List.Forall (fun c => is_name c = true) cs -> is_name n = true ->
  Base (render rt (cs ++ [n])) = n.
Proof.
  intros H Hn.
  assert (H' : List.Forall (fun c => is_name c = true) (cs ++ [n]))
    by (apply List.Forall_app; split; [exact H|constructor; [exact Hn|constructor]]).
  unfold Base. rewrite render_not_empty, split_render_snoc by exact H'.
  rewrite List.filter_app. simpl List.filter at 2.
  replace (negb (String.eqb n "")) with true
    by (symmetry; apply negb_true_iff, String.eqb_neq; apply is_name_inv in Hn; tauto).
  apply last_last.
Qed.

End PathFacts.

(* ===================================================================== *)
(** * Properties of the scanner *)
(* ===================================================================== *)

Section ScanFacts.
Import Strings FS Scanner.

Lemma matchOf_ReadyFile fs rdy : ReadyFile (matchOf fs rdy) = rdy.
Proof.
  unfold matchOf. destruct (os_Stat fs _) as [st|]; [|reflexivity].
  destruct (fi_IsDir st); [|reflexivity].
  destruct (os_ReadDir fs _); reflexivity.
Qed.

Lemma Scan_ok_inv fs root opts ms :
  Scan fs root opts = inl ms ->
  exists info rdyFiles,
    os_Stat fs root = Some info /\ fi_IsDir info = true /\
    collect fs root opts = inl rdyFiles /\
    ms = map (matchOf fs) (sort_Strings rdyFiles).
Proof.
  unfold Scan. intros H.
  destruct (os_Stat fs root) as [info|]; [|discriminate].
  destruct (fi_IsDir info) eqn:Hd; [|discriminate]. simpl in H.
  destruct (collect fs root opts) as [rdyFiles|e]; [|discriminate].
  exists info, rdyFiles. inversion H. repeat split; auto.
Qed.

(** C1, as stated, fails: the folder of the marker is there, its listing
    fails, and the item produced has [MissingFolder] set but carries the path
    of the folder. *)
Lemma Scan_unlistable_folder_keeps_path :
  os_ReadDir tree_locked "/data/locked" = None /\
  Scan tree_locked "/data" flat =
    inl [ {| ReadyFile := "/data/locked.RDY"; Folder := "/data/locked";
             MissingFolder := true; FolderEntries := [] |} ] /\
  ~ (forall m, Scan tree_locked "/data" flat = inl [m] ->
       MissingFolder m = true /\ Folder m = "").
Proof.
  assert (E : Scan tree_locked "/data" flat =
    inl [ {| ReadyFile := "/data/locked.RDY"; Folder := "/data/locked";
             MissingFolder := true; FolderEntries := [] |} ])
    by (vm_compute; reflexivity).
  split; [vm_compute; reflexivity|]. split; [exact E|].
  intros H. destruct (H _ E) as [_ Hf]. simpl in Hf. discriminate.
Qed.

(** C1, amended: every marker found yields one item.  When [os.Stat] on the
    candidate folder fails or reports something that is not a directory, the
    item has [MissingFolder] set, no folder path and no entries.  When the
    candidate is a directory and [os.ReadDir] on it fails, the item has
    [MissingFolder] set and no entries, and its folder path is the
    candidate's. *)
Theorem Scan_missing_folder fs root opts ms :
  Scan fs root opts = inl ms ->
  (exists rdyFiles,
     collect fs root opts = inl rdyFiles /\
     length ms = length rdyFiles /\
     forall rdy, In rdy rdyFiles -> exists m, In m ms /\ ReadyFile m = rdy) /\
  (forall m, In m ms ->
     let dir := candidateDir (ReadyFile m) in
     ((os_Stat fs dir = None \/
       exists st, os_Stat fs dir = Some st /\ fi_IsDir st = false) ->
      MissingFolder m = true /\ Folder m = "" /\ FolderEntries m = []) /\
     ((exists st, os_Stat fs dir = Some st /\ fi_IsDir st = true) ->
      os_ReadDir fs dir = None ->
      MissingFolder m = true /\ Folder m = dir /\ FolderEntries m = [])).
Proof.
  intros H. apply Scan_ok_inv in H as (info & rdyFiles & _ & _ & Hc & ->).
  split.
  - exists rdyFiles. split; [exact Hc|]. split.
    + rewrite length_map. apply Permutation_length, sort_by_perm.
    + intros rdy Hin. exists (matchOf fs rdy). split; [|apply matchOf_ReadyFile].
      apply in_map. eapply Permutation_in; [symmetry; apply sort_by_perm|exact Hin].
  - intros m Hin. apply in_map_iff in Hin as (rdy & <- & _).
    rewrite matchOf_ReadyFile. simpl. unfold matchOf. split.
    + intros [Hs|(st & Hs & Hd)]; rewrite Hs; [|rewrite Hd]; repeat split.
    + intros (st & Hs & Hd) Hr. rewrite Hs, Hd, Hr. repeat split.
Qed.

Lemma Scan_missing_folder_witness :
  exists m, Scan tree_locked "/data" flat = inl [m] /\
            MissingFolder m = true /\ Folder m = "/data/locked".
Proof.
  assert (E : Scan tree_locked "/data" flat =
    inl [ {| ReadyFile := "/data/locked.RDY"; Folder := "/data/locked";
             MissingFolder := true; FolderEntries := [] |} ])
    by (vm_compute; reflexivity).
  destruct (Scan_missing_folder tree_locked "/data" flat _ E) as [_ H].
  eexists. split; [exact E|].
  destruct (H _ (or_introl eq_refl)) as [_ H2].
  destruct H2 as (Hm & Hf & _).
  - eexists. split; vm_compute; reflexivity.
  - vm_compute; reflexivity.
  - split; [exact Hm|exact Hf].
Defined.

(** ** Order of the result *)

Lemma map_matchOf_sorted fs l :
  StronglySorted (key_le id) l ->
  StronglySorted (key_le ReadyFile) (map (matchOf fs) l).
Proof.
  induction 1 as [|x l Hs IH Hall]; simpl; constructor; [exact IH|].
  rewrite List.Forall_forall in *. intros m Hin.
  apply in_map_iff in Hin as (y & <- & Hy).
  unfold key_le. rewrite !matchOf_ReadyFile. apply (Hall y Hy).
Qed.

Lemma matchOf_entries_sorted fs rdy :
  StronglySorted (key_le Name) (FolderEntries (matchOf fs rdy)).
Proof.
  unfold matchOf. destruct (os_Stat fs _) as [st|]; [|constructor].
  destruct (fi_IsDir st); [|constructor].
  destruct (os_ReadDir fs _); [|constructor].
  apply sort_by_sorted.
Qed.

Lemma Scan_sorted fs root opts ms :
  Scan fs root opts = inl ms ->
  StronglySorted (key_le ReadyFile) ms /\
  forall m, In m ms -> StronglySorted (key_le Name) (FolderEntries m).
Proof.
  intros H. apply Scan_ok_inv in H as (info & rdyFiles & _ & _ & _ & ->).
  split.
  - apply map_matchOf_sorted, sort_by_sorted.
  - intros m Hin. apply in_map_iff in Hin as (rdy & <- & _).
    apply matchOf_entries_sorted.
Qed.

(** ** The recursive walk *)

Lemma node_ind' (P : node -> Prop) :
  (forall m c, P (File m c)) ->
  (forall m r x cs, Forall (fun c => P (snd c)) cs -> P (Dir m r x cs)) ->
  (forall m, P (Symlink m None)) ->
  (forall m t, P t -> P (Symlink m (Some t))) ->
  forall n, P n.
Proof.
  intros HF HD HS0 HS. fix IH 1. intros [m c|m r x cs|m [t|]].
  - apply HF.
  - apply HD. induction cs as [|c cs IHcs]; constructor; [apply IH|exact IHcs].
  - apply HS, IH.
  - apply HS0.
Qed.

Lemma walk_each_spec opts reach x path cs :
  Forall (fun c => forall reach path d st,
            de_IsDir d = is_dir (snd c) -> de_Symlink d = is_symlink (snd c) ->
            walk_spec reach path (de_Name d) (snd c) st
              (walkDir _ _ ErrReadDir (walkFn opts) reach path d (snd c) st)) cs ->
  forall st,
    let res := walk_each _ _
      (fun c st => walkDir _ _ ErrReadDir (walkFn opts) (reach && x)
                     (Path.Join path (fst c)) (entry_of x c) (snd c) st) cs st in
    if existsb (fun c => unlistable (reach && x) (snd c)) cs
    then exists st' p, res = (st', WErr (ErrReadDir p))
    else res = (st ++ flat_map (fun c => found (Path.Join path (fst c)) (fst c) (snd c)) cs,
                WNil).
Proof.
  induction 1 as [|c cs Hc Hcs IH]; intros st; simpl.
  - rewrite app_nil_r. reflexivity.
  - specialize (Hc (reach && x) (Path.Join path (fst c)) (entry_of x c) st
                   eq_refl eq_refl).
    unfold walk_spec in Hc. simpl in Hc.
    destruct (unlistable (reach && x) (snd c)); simpl.
    + destruct Hc as (st' & p & ->). eauto.
    + rewrite Hc. specialize (IH (st ++ found (Path.Join path (fst c)) (fst c) (snd c))).
      simpl in IH.
      destruct (existsb _ cs); [exact IH|]. rewrite IH, <- app_assoc. reflexivity.
Qed.

Lemma walkDir_spec opts n : forall reach path d st,
  de_IsDir d = is_dir n -> de_Symlink d = is_symlink n ->
  walk_spec reach path (de_Name d) n st
    (walkDir _ _ ErrReadDir (walkFn opts) reach path d n st).
Proof.
  induction n as [m c|m r x cs IH|m|m t _] using node_ind';
    intros reach path d st Hd Hs; unfold walk_spec; simpl;
    rewrite ?Hd, ?Hs; simpl.
  - destruct (isReady (de_Name d)); [reflexivity|]. rewrite app_nil_r. reflexivity.
  - rewrite andb_false_r. simpl.
    destruct (reach && r) eqn:Hr; simpl.
    + apply (walk_each_spec opts reach x path cs IH st).
    + eauto.
  - destruct (isReady (de_Name d)); [reflexivity|]. rewrite app_nil_r. reflexivity.
  - destruct (isReady (de_Name d)); [reflexivity|]. rewrite app_nil_r. reflexivity.
Qed.

Lemma collect_recursive fs root opts n :
  Recursive opts = true -> locate fs root = Some n ->
  if unlistable true n
  then exists p, collect fs root opts = inr (ErrWalk (ErrReadDir p))
  else collect fs root opts = inl (found root (Path.Base root) n).
Proof.
  intros Hrec Hloc. unfold collect, WalkDir. rewrite Hrec, Hloc.
  pose proof (walkDir_spec opts n true root
                (entry_of_info (Path.Base root) (info_of n)) [] eq_refl eq_refl) as H.
  unfold walk_spec in H. simpl in H.
  destruct (unlistable true n).
  - destruct H as (st' & p & ->). eauto.
  - rewrite H. reflexivity.
Qed.

Lemma os_Stat_locate fs p i :
  os_Stat fs p = Some i -> exists n, locate fs p = Some n.
Proof.
  unfold os_Stat. destruct (locate fs p) as [n|]; [eauto|discriminate].
Qed.

(** C2 on a tree the recursive scan gets wrong: the root is a directory
    that lists, and the only failure is the listing of the folder of a
    marker.  The non-recursive scan treats it as the source says ("treat as
    missing contents rather than whole failure"); the recursive scan walks
    into the folder, [walkFn] hands the error of [os.ReadDir] back, and
    [Scan] returns that error instead of the list of matches. *)
Lemma Scan_recursive_fails_on_unlistable_folder :
  os_Stat tree_locked "/data"
    = Some {| fi_IsDir := true; fi_Symlink := false; fi_Size := 0; fi_ModTime := 0 |} /\
  is_Some (os_ReadDir tree_locked "/data") /\
  candidateDir "/data/locked.RDY" = "/data/locked" /\
  os_ReadDir tree_locked "/data/locked" = None /\
  Scan tree_locked "/data" deep = inr (ErrWalk (ErrReadDir "/data/locked")) /\
  ~ (exists ms, Scan tree_locked "/data" deep = inl ms) /\
  (exists m, Scan tree_locked "/data" flat = inl [m] /\ MissingFolder m = true).
Proof.
  assert (E : Scan tree_locked "/data" deep = inr (ErrWalk (ErrReadDir "/data/locked")))
    by (vm_compute; reflexivity).
  repeat split; try (vm_compute; reflexivity).
  - vm_compute. eauto.
  - intros [ms H]. rewrite E in H. discriminate.
  - eexists. split; vm_compute; reflexivity.
Qed.

(** The causes of an error of [Scan]: [os.Stat] on the root fails, the root
    is not a directory, the root's own listing fails (non-recursive scan),
    or the walk of the recursive scan meets a directory that cannot be
    listed.  The non-recursive scan of a root that lists returns the match
    of every marker, whatever the state of the folders and of their entries.
    The recursive scan returns the matches exactly when no directory of the
    walk is unlistable. *)
Theorem Scan_error_causes fs root opts :
  (forall e, Scan fs root opts = inr e ->
     (os_Stat fs root = None /\ e = ErrStat root) \/
     ((exists i, os_Stat fs root = Some i /\ fi_IsDir i = false) /\
      e = ErrRootNotDir) \/
     (Recursive opts = false /\ os_ReadDir fs root = None /\
      e = ErrReadDir root) \/
     (Recursive opts = true /\
      exists n p, locate fs root = Some n /\ unlistable true n = true /\
                  e = ErrWalk (ErrReadDir p))) /\
  (forall i, os_Stat fs root = Some i -> fi_IsDir i = true ->
     (Recursive opts = false ->
      forall entries, os_ReadDir fs root = Some entries ->
        Scan fs root opts
          = inl (map (matchOf fs) (sort_Strings (readyIn root entries)))) /\
     (Recursive opts = true ->
      forall n, locate fs root = Some n ->
        if unlistable true n
        then exists p, Scan fs root opts = inr (ErrWalk (ErrReadDir p))
        else Scan fs root opts
               = inl (map (matchOf fs)
                        (sort_Strings (found root (Path.Base root) n))))).
Proof.
  split.
  - intros e H. unfold Scan in H.
    destruct (os_Stat fs root) as [i|] eqn:Hs;
      [|left; inversion H; auto].
    right. destruct (fi_IsDir i) eqn:Hd; simpl in H;
      [|left; inversion H; eauto].
    right. destruct (Recursive opts) eqn:Hrec.
    + right. split; [reflexivity|].
      destruct (os_Stat_locate _ _ _ Hs) as [n Hn].
      pose proof (collect_recursive fs root opts n Hrec Hn) as Hc.
      destruct (unlistable true n) eqn:Hu.
      * destruct Hc as [p Hc]. rewrite Hc in H. inversion H. eauto.
      * rewrite Hc in H. discriminate.
    + left. split; [reflexivity|]. unfold collect in H. rewrite Hrec in H.
      destruct (os_ReadDir fs root); [discriminate|]. inversion H. auto.
  - intros i Hs Hd. split; intros Hrec.
    + intros entries Hr. unfold Scan, collect. rewrite Hs, Hd, Hrec, Hr. reflexivity.
    + intros n Hn. pose proof (collect_recursive fs root opts n Hrec Hn) as Hc.
      unfold Scan. rewrite Hs, Hd. simpl.
      destruct (unlistable true n).
      * destruct Hc as [p ->]. eauto.
      * rewrite Hc. reflexivity.
Qed.

Lemma Scan_error_causes_witness :
  exists ms, Scan tree_locked "/data" flat = inl ms /\ length ms = 1%nat.
Proof.
  destruct (Scan_error_causes tree_locked "/data" flat) as [_ H].
  destruct (H {| fi_IsDir := true; fi_Symlink := false; fi_Size := 0;
                 fi_ModTime := 0 |}) as [Hflat _];
    [vm_compute; reflexivity|reflexivity|].
  eexists. split.
  - apply Hflat; [reflexivity|]. vm_compute. reflexivity.
  - vm_compute. reflexivity.
Defined.

(** ** Well-formed trees *)

Lemma distinct_NoDup (l : list string) : distinct l = true <-> List.NoDup l.
Proof.
  induction l as [|a l IH]; simpl.
  - split; [constructor|reflexivity].
  - rewrite andb_true_iff, negb_true_iff, IH. split.
    + intros [Ha Hl]. constructor; [|exact Hl]. intros Hin.
      assert (existsb (String.eqb a) l = true); [|congruence].
      apply existsb_exists. exists a. split; [exact Hin|apply String.eqb_refl].
    + intros H. inversion H as [|? ? Hn Hl]; subst. split; [|exact Hl].
      destruct (existsb (String.eqb a) l) eqn:E; [|reflexivity].
      apply existsb_exists in E as (b & Hb & Hab).
      apply String.eqb_eq in Hab. subst. contradiction.
Qed.

Lemma wf_Dir m r x cs :
  wf (Dir m r x cs) = true ->
  List.Forall (fun c => Path.is_name (fst c) = true) cs /\
  List.NoDup (map fst cs) /\
  List.Forall (fun c => wf (snd c) = true) cs.
Proof.
  simpl. rewrite !andb_true_iff, !forallb_forall, distinct_NoDup.
  rewrite !List.Forall_forall. tauto.
Qed.

Lemma child_In nm c cs :
  List.NoDup (map fst cs) -> In (nm, c) cs -> child nm cs = Some c.
Proof.
  induction cs as [|[n0 c0] cs IH]; simpl; [contradiction|].
  intros Hnd [E|Hin].
  - inversion E; subst. rewrite String.eqb_refl. reflexivity.
  - inversion Hnd as [|? ? Hn Hl]; subst.
    destruct (String.eqb_spec n0 nm) as [->|Hne].
    + exfalso. apply Hn. apply (in_map fst) in Hin. exact Hin.
    + apply IH; assumption.
Qed.

Lemma child_Some nm c cs : child nm cs = Some c -> In (nm, c) cs.
Proof.
  induction cs as [|[n0 c0] cs IH]; simpl; [discriminate|].
  destruct (String.eqb_spec n0 nm) as [->|Hne].
  - intros E. inversion E. left. reflexivity.
  - intros H. right. apply IH, H.
Qed.

Lemma child_perm nm cs cs' :
  List.NoDup (map fst cs) -> Permutation cs cs' -> child nm cs = child nm cs'.
Proof.
  intros Hnd Hp.
  assert (Hnd' : List.NoDup (map fst cs')).
  { eapply Permutation_NoDup; [apply Permutation_map; exact Hp|exact Hnd]. }
  destruct (child nm cs) as [c|] eqn:E.
  - symmetry. apply child_In; [exact Hnd'|].
    eapply Permutation_in; [exact Hp|]. apply child_Some, E.
  - destruct (child nm cs') as [c'|] eqn:E'; [|reflexivity].
    apply child_Some in E'.
    erewrite child_In in E; [discriminate|exact Hnd|].
    eapply Permutation_in; [symmetry; exact Hp|exact E'].
Qed.

Lemma follow_wf n : forall n', wf n = true -> follow n = Some n' -> wf n' = true.
Proof.
  induction n as [m c|m r x cs _|m|m t IH] using node_ind'; simpl; intros n' Hw Hf;
    try (inversion Hf; subst; exact Hw); try discriminate.
  apply IH; assumption.
Qed.

Lemma descend_wf elems : forall n n',
  wf n = true -> descend elems n = Some n' -> wf n' = true.
Proof.
  induction elems as [|e elems IH]; simpl; intros n n' Hw Hd.
  - inversion Hd; subst. exact Hw.
  - destruct (follow n) as [[| m r [|] cs |]|] eqn:Hf; try discriminate.
    destruct (child e cs) as [c|] eqn:Hc; [|discriminate].
    apply (IH c); [|exact Hd].
    apply follow_wf in Hf; [|exact Hw].
    apply wf_Dir in Hf as (_ & _ & Hall).
    rewrite List.Forall_forall in Hall. apply (Hall (e, c)), child_Some, Hc.
Qed.

(** ** Order of enumeration *)

Lemma flat_map_perm {A B} (f : A -> list B) l l' :
  Permutation l l' -> Permutation (flat_map f l) (flat_map f l').
Proof.
  induction 1 as [|a l l' _ IH|a b l|l1 l2 l3 _ IH1 _ IH2]; simpl.
  - reflexivity.
  - apply Permutation_app_head, IH.
  - rewrite !app_assoc. apply Permutation_app_tail, Permutation_app_comm.
  - etransitivity; eassumption.
Qed.

Lemma existsb_perm {A} (f : A -> bool) l l' :
  Permutation l l' -> existsb f l = existsb f l'.
Proof.
  induction 1 as [|a l l' _ IH|a b l|l1 l2 l3 _ IH1 _ IH2]; simpl.
  - reflexivity.
  - rewrite IH. reflexivity.
  - destruct (f a), (f b); reflexivity.
  - congruence.
Qed.

Lemma NoDup_map_inj {A B} (f : A -> B) l a b :
  List.NoDup (map f l) -> In a l -> In b l -> f a = f b -> a = b.
Proof.
  induction l as [|c l IH]; simpl; [contradiction|].
  intros Hnd Ha Hb E. inversion Hnd as [|? ? Hn Hl]; subst.
  destruct Ha as [->|Ha], Hb as [->|Hb]; auto.
  - exfalso. apply Hn. rewrite E. apply in_map, Hb.
  - exfalso. apply Hn. rewrite <- E. apply in_map, Ha.
Qed.

Lemma readyIn_acc root entries : forall acc,
  fold_left
    (fun rdyFiles e =>
       if de_IsDir e then rdyFiles
       else if isReady (de_Name e)
            then rdyFiles ++ [Path.Join root (de_Name e)]
            else rdyFiles)
    entries acc
  = acc ++ flat_map (readyOf root) entries.
Proof.
  induction entries as [|e entries IH]; intros acc; simpl.
  - rewrite app_nil_r. reflexivity.
  - rewrite IH. unfold readyOf at 2. destruct (de_IsDir e); [reflexivity|].
    destruct (isReady (de_Name e)); [|reflexivity].
    rewrite <- app_assoc. reflexivity.
Qed.

Lemma readyIn_flat_map root entries :
  readyIn root entries = flat_map (readyOf root) entries.
Proof. unfold readyIn. rewrite readyIn_acc. reflexivity. Qed.

Section Reorder.

Variable rho : list (string * node) -> list (string * node).
Hypothesis rho_perm : forall l, Permutation (rho l) l.

Let entry (c : string * node) : string * node := (fst c, reorder rho (snd c)).

Lemma reorder_is_dir n : is_dir (reorder rho n) = is_dir n.
Proof. destruct n as [| |m [t|]]; reflexivity. Qed.

Lemma reorder_is_symlink n : is_symlink (reorder rho n) = is_symlink n.
Proof. destruct n as [| |m [t|]]; reflexivity. Qed.

Lemma reorder_info_of n : info_of (reorder rho n) = info_of n.
Proof. destruct n as [| |m [t|]]; reflexivity. Qed.

Lemma reorder_entry_of x c : entry_of x (entry c) = entry_of x c.
Proof.
  unfold entry_of, entry. simpl.
  rewrite reorder_is_dir, reorder_is_symlink, reorder_info_of. reflexivity.
Qed.

Lemma reorder_follow n :
  follow (reorder rho n) = option_map (reorder rho) (follow n).
Proof.
  induction n as [m c|m r x cs _|m|m t IH] using node_ind'; simpl; auto.
Qed.

Lemma child_entry nm cs :
  child nm (map entry cs) = option_map (reorder rho) (child nm cs).
Proof.
  induction cs as [|[n0 c0] cs IH]; simpl; [reflexivity|].
  destruct (String.eqb n0 nm); [reflexivity|exact IH].
Qed.

Lemma map_fst_entry cs : map fst (map entry cs) = map fst cs.
Proof. rewrite map_map. reflexivity. Qed.

Lemma reorder_child nm cs :
  List.NoDup (map fst cs) ->
  child nm (rho (map entry cs)) = option_map (reorder rho) (child nm cs).
Proof.
  intros Hnd. rewrite <- child_entry. symmetry. apply child_perm.
  - rewrite map_fst_entry. exact Hnd.
  - symmetry. apply rho_perm.
Qed.

Lemma reorder_descend elems : forall n,
  wf n = true ->
  descend elems (reorder rho n) = option_map (reorder rho) (descend elems n).
Proof.
  induction elems as [|e elems IH]; simpl; intros n Hw; [reflexivity|].
  rewrite reorder_follow.
  destruct (follow n) as [[| m r x cs |m [t|]]|] eqn:Hf; simpl; try reflexivity.
  destruct x; [|reflexivity].
  apply follow_wf in Hf; [|exact Hw].
  pose proof (wf_Dir _ _ _ _ Hf) as (_ & Hnd & Hall).
  rewrite reorder_child by exact Hnd.
  destruct (child e cs) as [c|] eqn:Hc; simpl; [|reflexivity].
  apply IH. rewrite List.Forall_forall in Hall.
  apply (Hall (e, c)), child_Some, Hc.
Qed.

Lemma reorder_os_Stat fs p :
  wf fs = true -> os_Stat (reorder rho fs) p = os_Stat fs p.
Proof.
  intros Hw. unfold os_Stat, locate. rewrite reorder_descend by exact Hw.
  destruct (descend _ fs) as [n|]; simpl; [|reflexivity].
  rewrite reorder_follow.
  destruct (follow n) as [n'|]; simpl; [|reflexivity].
  rewrite reorder_info_of. reflexivity.
Qed.

Lemma reorder_listing n : same_listing (listing (reorder rho n)) (listing n).
Proof.
  destruct n as [|m [|] x cs|m [t|]]; simpl; auto.
  etransitivity; [apply Permutation_map, rho_perm|]. rewrite map_map.
  erewrite map_ext; [reflexivity|]. intros c. apply reorder_entry_of.
Qed.

Lemma reorder_os_ReadDir fs p :
  wf fs = true ->
  same_listing (os_ReadDir (reorder rho fs) p) (os_ReadDir fs p).
Proof.
  intros Hw. unfold os_ReadDir, locate. rewrite reorder_descend by exact Hw.
  destruct (descend _ fs) as [n|]; simpl; [|exact I].
  rewrite reorder_follow.
  destruct (follow n) as [n'|]; simpl; [|exact I].
  apply reorder_listing.
Qed.

Lemma listing_names n l :
  wf n = true -> listing n = Some l -> List.NoDup (map de_Name l).
Proof.
  destruct n as [|m [|] x cs|]; intros Hw E; simpl in E; try discriminate.
  inversion E; subst.
  apply wf_Dir in Hw as (_ & Hnd & _).
  rewrite map_map. exact Hnd.
Qed.

Lemma os_ReadDir_names fs p l :
  wf fs = true -> os_ReadDir fs p = Some l -> List.NoDup (map de_Name l).
Proof.
  intros Hw. unfold os_ReadDir, locate.
  destruct (descend _ fs) as [n|] eqn:Hd; [|discriminate].
  destruct (follow n) as [n'|] eqn:Hf; [|discriminate].
  apply listing_names. eapply follow_wf; [|exact Hf].
  eapply descend_wf; [exact Hw|exact Hd].
Qed.

Lemma fileEntry_Name d e : Name (fileEntry d e) = de_Name e.
Proof. unfold fileEntry. destruct (de_Info e); reflexivity. Qed.

Lemma folder_entries_perm d l l' :
  List.NoDup (map de_Name l) -> Permutation l' l ->
  sort_by Name (map (fileEntry d) l') = sort_by Name (map (fileEntry d) l).
Proof.
  intros Hnd Hp. apply sort_by_perm_eq; [apply Permutation_map, Hp|].
  assert (Hnd' : List.NoDup (map de_Name l')).
  { eapply Permutation_NoDup; [apply Permutation_map; symmetry; exact Hp|exact Hnd]. }
  intros a b Ha Hb E.
  apply in_map_iff in Ha as (ea & <- & Ha). apply in_map_iff in Hb as (eb & <- & Hb).
  rewrite !fileEntry_Name in E.
  rewrite (NoDup_map_inj de_Name l' ea eb Hnd' Ha Hb E). reflexivity.
Qed.

Lemma reorder_matchOf fs rdy :
  wf fs = true -> matchOf (reorder rho fs) rdy = matchOf fs rdy.
Proof.
  intros Hw. unfold matchOf. rewrite reorder_os_Stat by exact Hw.
  destruct (os_Stat fs _) as [st|]; [|reflexivity].
  destruct (fi_IsDir st); [|reflexivity].
  pose proof (reorder_os_ReadDir fs (candidateDir rdy) Hw) as Hl.
  destruct (os_ReadDir fs (candidateDir rdy)) as [l|] eqn:E,
           (os_ReadDir (reorder rho fs) (candidateDir rdy)) as [l'|];
    simpl in Hl; try contradiction; [|reflexivity].
  f_equal. apply folder_entries_perm; [|exact Hl].
  eapply os_ReadDir_names; eassumption.
Qed.

Lemma reorder_unlistable n : forall reach,
  unlistable reach (reorder rho n) = unlistable reach n.
Proof.
  induction n as [m c|m r x cs IH|m|m t _] using node_ind'; intros reach;
    simpl; try reflexivity.
  f_equal. rewrite (existsb_perm _ _ _ (rho_perm _)).
  induction IH as [|c cs Hc _ IHcs]; simpl; [reflexivity|].
  rewrite Hc, IHcs. reflexivity.
Qed.

Lemma reorder_found n : forall path name,
  Permutation (found path name (reorder rho n)) (found path name n).
Proof.
  induction n as [m c|m r x cs IH|m|m t _] using node_ind'; intros path name;
    simpl; try reflexivity.
  rewrite (flat_map_perm _ _ _ (rho_perm _)).
  induction IH as [|c cs Hc _ IHcs]; simpl; [reflexivity|].
  apply Permutation_app; [apply Hc|exact IHcs].
Qed.

Lemma reorder_collect fs root opts :
  wf fs = true ->
  same_markers (collect (reorder rho fs) root opts) (collect fs root opts).
Proof.
  intros Hw. destruct (Recursive opts) eqn:Hrec.
  - assert (Hl : locate (reorder rho fs) root
                 = option_map (reorder rho) (locate fs root))
      by (apply reorder_descend, Hw).
    destruct (locate fs root) as [n|] eqn:Hn; simpl in Hl.
    + pose proof (collect_recursive _ root opts _ Hrec Hl) as H1.
      pose proof (collect_recursive _ root opts _ Hrec Hn) as H2.
      rewrite reorder_unlistable in H1.
      destruct (unlistable true n).
      * destruct H1 as [p1 ->], H2 as [p2 ->]. exact I.
      * rewrite H1, H2. simpl. apply reorder_found.
    + unfold collect, WalkDir. rewrite Hrec, Hl, Hn. simpl. exact I.
  - unfold collect. rewrite Hrec.
    pose proof (reorder_os_ReadDir fs root Hw) as Hl.
    destruct (os_ReadDir fs root) as [l|], (os_ReadDir (reorder rho fs) root) as [l'|];
      simpl in Hl; try contradiction; simpl; [|exact I].
    rewrite !readyIn_flat_map. apply flat_map_perm, Hl.
Qed.

Lemma reorder_Scan fs root opts :
  wf fs = true ->
  match Scan (reorder rho fs) root opts, Scan fs root opts with
  | inl ms', inl ms => ms' = ms
  | inr _, inr _ => True
  | _, _ => False
  end.
Proof.
  intros Hw. unfold Scan. rewrite reorder_os_Stat by exact Hw.
  destruct (os_Stat fs root) as [i|]; [|exact I].
  destruct (fi_IsDir i); simpl; [|exact I].
  pose proof (reorder_collect fs root opts Hw) as Hc.
  destruct (collect fs root opts) as [l|], (collect (reorder rho fs) root opts) as [l'|];
    simpl in Hc; try contradiction; [|exact I].
  rewrite (sort_Strings_perm_eq _ _ Hc).
  apply map_ext. intros rdy. apply reorder_matchOf, Hw.
Qed.

End Reorder.

(** C3: the matches [Scan] returns are in ascending order of the marker
    path, and the folder entries of each match in ascending order of the
    name.  The result does not depend on the order in which the directories
    enumerate their entries: on the same tree with every directory listed in
    another order, [Scan] returns the same list. *)
Theorem Scan_sorted_for_any_enumeration fs root opts
    (rho : list (string * node) -> list (string * node)) ms :
  wf fs = true ->
  (forall l, Permutation (rho l) l) ->
  Scan fs root opts = inl ms ->
  StronglySorted (key_le ReadyFile) ms /\
  (forall m, In m ms -> StronglySorted (key_le Name) (FolderEntries m)) /\
  Scan (reorder rho fs) root opts = inl ms.
Proof.
  intros Hw Hrho Hs. destruct (Scan_sorted _ _ _ _ Hs) as [H1 H2].
  split; [exact H1|]. split; [exact H2|].
  pose proof (reorder_Scan rho Hrho fs root opts Hw) as H.
  rewrite Hs in H. destruct (Scan (reorder rho fs) root opts); [|contradiction].
  rewrite H. reflexivity.
Qed.

Lemma Scan_sorted_for_any_enumeration_witness :
  Scan (reorder (@rev _) tree_orders) "/in" flat = Scan tree_orders "/in" flat /\
  map ReadyFile (match Scan tree_orders "/in" flat with inl ms => ms | inr _ => [] end)
    = ["/in/ORDER100.RDY"; "/in/ORDER200.RDY"].
Proof.
  destruct (Scan tree_orders "/in" flat) as [ms|e] eqn:E; [|vm_compute in E; discriminate].
  destruct (Scan_sorted_for_any_enumeration tree_orders "/in" flat (@rev _) ms)
    as (_ & _ & H).
  - vm_compute. reflexivity.
  - intros l. symmetry. apply Permutation_rev.
  - exact E.
  - split; [exact H|]. vm_compute in E. inversion E. reflexivity.
Defined.

End ScanFacts.

(** ** Markers named by the suffix alone *)

Section BareMarkerFacts.
Import Strings Path FS Scanner.

Ltac ascii_cases a :=
  destruct a as [[|] [|] [|] [|] [|] [|] [|] [|]]; vm_compute;
  intros H; try discriminate H; auto.

Lemma upper_dot (a : ascii) : upper_ascii a = "."%char -> a = "."%char.
Proof. ascii_cases a. Qed.

Lemma upper_R (a : ascii) :
  upper_ascii a = "R"%char -> a = "R"%char \/ a = "r"%char.
Proof. ascii_cases a. Qed.

Lemma upper_D (a : ascii) :
  upper_ascii a = "D"%char -> a = "D"%char \/ a = "d"%char.
Proof. ascii_cases a. Qed.

Lemma upper_Y (a : ascii) :
  upper_ascii a = "Y"%char -> a = "Y"%char \/ a = "y"%char.
Proof. ascii_cases a. Qed.

(** A name that is the marker suffix and nothing else. *)
Lemma bare_suffix_name nm :
  ToUpper nm = ".RDY" ->
  isReady nm = true /\ Path.Ext nm = nm /\ TrimSuffix nm (Path.Ext nm) = "".
Proof.
  intros H. unfold isReady. rewrite H.
  destruct nm as [|a [|b [|c [|d [|e nm]]]]]; simpl in H; try discriminate H.
  inversion H as [[Ha Hb Hc Hd]].
  apply upper_dot in Ha. apply upper_R in Hb. apply upper_D in Hc. apply upper_Y in Hd.
  subst a. destruct Hb as [-> | ->], Hc as [-> | ->], Hd as [-> | ->];
    repeat split; reflexivity.
Qed.

Lemma descend_app a : forall b n,
  descend (a ++ b) n =
    match descend a n with Some n' => descend b n' | None => None end.
Proof.
  induction a as [|e a IH]; intros b n; simpl; [reflexivity|].
  destruct (follow n) as [[| m r [|] cs |]|]; try reflexivity.
  destruct (child e cs); [apply IH|reflexivity].
Qed.

Lemma locate_render fs rt cs :
  List.Forall (fun c => is_name c = true) cs ->
  locate fs (render rt cs) = descend cs fs.
Proof. intros H. unfold locate. rewrite clean_elems_render by exact H. reflexivity. Qed.

(** At a directory the walk has reached, [os.ReadDir] on the path reads the
    entries the walk goes through, or fails as the walk does. *)
Lemma os_ReadDir_at fs rt cs m r x children :
  List.Forall (fun c => is_name c = true) cs ->
  descend cs fs = Some (Dir m r x children) ->
  os_ReadDir fs (render rt cs)
    = if r then Some (map (entry_of x) children) else None.
Proof.
  intros Hcs Hd. unfold os_ReadDir. rewrite locate_render, Hd by exact Hcs.
  simpl. destruct r; reflexivity.
Qed.

Lemma is_clean_render p :
  is_clean p = true ->
  exists cs, List.Forall (fun c => is_name c = true) cs /\ p = render (is_rooted p) cs.
Proof.
  unfold is_clean. rewrite andb_true_iff, String.eqb_eq, forallb_forall.
  intros [E H]. eexists. split; [|exact E]. apply List.Forall_forall, H.
Qed.

(** What the walk finds is the node walked itself, when it is no
    directory, or an entry of a directory that was reached and listed. *)
Lemma found_inv fs rt n : forall cs name reach rdy,
  wf n = true -> List.Forall (fun c => is_name c = true) cs ->
  unlistable reach n = false ->
  (reach = true -> descend cs fs = Some n) ->
  In rdy (found (render rt cs) name n) ->
  (rdy = render rt cs /\ is_dir n = false) \/
  exists cs' nm c m x children,
    rdy = render rt (cs' ++ [nm]) /\
    List.Forall (fun c => is_name c = true) cs' /\ is_name nm = true /\
    descend cs' fs = Some (Dir m true x children) /\ In (nm, c) children.
Proof.
  induction n as [m c|m r x children IH|m|m t _] using node_ind';
    intros cs name reach rdy Hw Hcs Hu Hd Hin; simpl in Hin;
    try (left; destruct (isReady name); simpl in Hin; [|contradiction];
         destruct Hin as [<-|[]]; split; reflexivity).
  right. simpl in Hu. apply orb_false_iff in Hu as [Hr Hu].
  apply negb_false_iff, andb_true_iff in Hr as [-> ->]. simpl in Hu.
  specialize (Hd eq_refl).
  pose proof (wf_Dir _ _ _ _ Hw) as (Hnames & Hnd & Hwf).
  apply in_flat_map in Hin as ([nm c] & Hc & Hin). simpl in Hin.
  rewrite List.Forall_forall in IH, Hnames, Hwf.
  pose proof (Hnames _ Hc) as Hnm. simpl in Hnm.
  rewrite Join_render_name in Hin by assumption.
  assert (Hcs' : List.Forall (fun c => is_name c = true) (cs ++ [nm]))
    by (apply List.Forall_app; split; [exact Hcs|constructor; [exact Hnm|constructor]]).
  assert (Hux : unlistable x c = false).
  { destruct (unlistable x c) eqn:E; [|reflexivity].
    assert (existsb (fun c => unlistable x (snd c)) children = true); [|congruence].
    apply existsb_exists. exists (nm, c). split; [exact Hc|exact E]. }
  assert (Hdc : x = true -> descend (cs ++ [nm]) fs = Some c).
  { intros ->. rewrite descend_app, Hd. simpl.
    rewrite (child_In nm c children Hnd Hc). reflexivity. }
  destruct (IH _ Hc (cs ++ [nm]) nm x rdy (Hwf _ Hc) Hcs' Hux Hdc Hin) as [[-> _]|H].
  - exists cs, nm, c, m, x, children. repeat split; assumption.
  - exact H.
Qed.

(** The match of a marker named by the suffix alone, found as an entry of a
    directory that lists. *)
Lemma bare_marker_match fs rt cs nd m x children nm c :
  List.Forall (fun c => is_name c = true) cs -> is_name nm = true ->
  ToUpper nm = ".RDY" ->
  descend cs fs = Some nd -> follow nd = Some (Dir m true x children) ->
  In (nm, c) children ->
  let rdy := render rt (cs ++ [nm]) in
  TrimSuffix (Path.Base rdy) (Path.Ext (Path.Base rdy)) = "" /\
  candidateDir rdy = Path.Dir rdy /\
  Folder (matchOf fs rdy) = Path.Dir rdy /\
  MissingFolder (matchOf fs rdy) = false /\
  exists e, In e (FolderEntries (matchOf fs rdy)) /\
            Name e = Path.Base rdy /\ Scanner.Path e = rdy.
Proof.
  intros Hcs Hnm Hup Hd Hf Hc rdy.
  destruct (bare_suffix_name nm Hup) as (_ & _ & Htrim).
  assert (Hbase : Path.Base rdy = nm) by (apply Base_render; assumption).
  assert (Hdir : Path.Dir rdy = render rt cs) by (apply Dir_render; assumption).
  assert (Hcand : candidateDir rdy = render rt cs).
  { unfold candidateDir. rewrite Hbase, Htrim, Hdir. apply Join_render_empty, Hcs. }
  assert (Hstat : os_Stat fs (render rt cs) = Some (info_of (Dir m true x children))).
  { unfold os_Stat. rewrite locate_render, Hd, Hf by exact Hcs. reflexivity. }
  assert (Hread : os_ReadDir fs (render rt cs) = Some (map (entry_of x) children)).
  { unfold os_ReadDir. rewrite locate_render, Hd, Hf by exact Hcs. reflexivity. }
  rewrite Hbase, Htrim, Hcand, Hdir. split; [reflexivity|]. split; [reflexivity|].
  unfold matchOf. rewrite Hcand, Hstat, Hread. simpl.
  split; [reflexivity|]. split; [reflexivity|].
  exists (fileEntry (render rt cs) (entry_of x (nm, c))). split; [|split].
  - eapply Permutation_in; [symmetry; apply sort_by_perm|].
    apply in_map, in_map, Hc.
  - apply fileEntry_Name.
  - unfold fileEntry. simpl. unfold rdy.
    rewrite <- (Join_render_name rt cs nm Hcs Hnm). destruct x; reflexivity.
Qed.

Lemma listing_inv n entries :
  listing n = Some entries ->
  exists m x children, n = Dir m true x children /\ entries = map (entry_of x) children.
Proof.
  destruct n as [|m [|] x cs|]; simpl; try discriminate.
  intros E. inversion E. eauto.
Qed.

(** C9: a marker whose whole name is the suffix, in any letter case.
    Stripping the extension leaves the empty name, so that the candidate
    folder is the directory the marker is in; [Scan] reports that directory
    as the folder, not missing, and the marker itself is among its
    entries. *)
Theorem Scan_bare_suffix_marker fs root opts ms m :
  wf fs = true -> Path.is_clean root = true ->
  Scan fs root opts = inl ms -> In m ms ->
  ToUpper (Path.Base (ReadyFile m)) = ".RDY" ->
  ReadyFile m <> root ->
  TrimSuffix (Path.Base (ReadyFile m)) (Path.Ext (Path.Base (ReadyFile m))) = "" /\
  candidateDir (ReadyFile m) = Path.Dir (ReadyFile m) /\
  Folder m = Path.Dir (ReadyFile m) /\
  MissingFolder m = false /\
  exists e, In e (FolderEntries m) /\
            Name e = Path.Base (ReadyFile m) /\ Scanner.Path e = ReadyFile m.
Proof.
  intros Hw Hclean Hscan Hin Hup Hroot.
  apply is_clean_render in Hclean as (cs & Hcs & Hr).
  set (rt := is_rooted root) in *.
  apply Scan_ok_inv in Hscan as (info & rdyFiles & Hstat & Hdir & Hcol & ->).
  apply in_map_iff in Hin as (rdy & <- & Hin).
  rewrite matchOf_ReadyFile in *.
  assert (Hin' : In rdy rdyFiles)
    by (eapply Permutation_in; [apply sort_by_perm|exact Hin]).
  clear Hin.
  assert (Hloc : locate fs root = descend cs fs)
    by (rewrite Hr at 1; apply locate_render, Hcs).
  assert (Hfound : exists cs' nm c nd mt x children,
            rdy = render rt (cs' ++ [nm]) /\
            List.Forall (fun c => is_name c = true) cs' /\ is_name nm = true /\
            descend cs' fs = Some nd /\ follow nd = Some (Dir mt true x children) /\
            In (nm, c) children).
  { destruct (Recursive opts) eqn:Hrec.
    - destruct (os_Stat_locate _ _ _ Hstat) as [n Hn].
      pose proof (collect_recursive fs root opts n Hrec Hn) as Hc.
      destruct (unlistable true n) eqn:Hu;
        [destruct Hc as [p Hc]; rewrite Hc in Hcol; discriminate|].
      rewrite Hc in Hcol. inversion Hcol; subst rdyFiles.
      rewrite Hr in Hin' at 1.
      destruct (found_inv fs rt n cs (Path.Base root) true rdy) as [[E _]|H]; auto.
      + eapply descend_wf; [exact Hw|]. rewrite <- Hloc. exact Hn.
      + intros _. rewrite <- Hloc. exact Hn.
      + exfalso. apply Hroot. rewrite E. symmetry. exact Hr.
      + destruct H as (cs' & nm & c & mt & x & children & E & H1 & H2 & H3 & H4).
        exists cs', nm, c, (Dir mt true x children), mt, x, children.
        repeat split; assumption.
    - unfold collect in Hcol. rewrite Hrec in Hcol.
      destruct (os_ReadDir fs root) as [entries|] eqn:Hrd; [|discriminate].
      inversion Hcol; subst rdyFiles. clear Hcol.
      unfold os_ReadDir in Hrd. rewrite Hloc in Hrd.
      destruct (descend cs fs) as [nd|] eqn:Hd; [|discriminate].
      destruct (follow nd) as [n'|] eqn:Hf; [|discriminate].
      apply listing_inv in Hrd as (mt & x & children & -> & ->).
      rewrite readyIn_flat_map in Hin'.
      apply in_flat_map in Hin' as (e & He & Hin').
      apply in_map_iff in He as ([nm c] & <- & Hc).
      unfold readyOf in Hin'. simpl in Hin'.
      destruct (is_dir c); [contradiction|].
      destruct (isReady nm); [|contradiction].
      destruct Hin' as [<-|[]].
      assert (Hnm : is_name nm = true).
      { assert (Hwd : wf (Dir mt true x children) = true).
        { eapply follow_wf; [|exact Hf]. eapply descend_wf; [exact Hw|exact Hd]. }
        apply wf_Dir in Hwd as (Hn & _). rewrite List.Forall_forall in Hn.
        apply (Hn _ Hc). }
      exists cs, nm, c, nd, mt, x, children. repeat split; try assumption.
      rewrite Hr at 1. apply Join_render_name; assumption. }
  destruct Hfound as (cs' & nm & c & nd & mt & x & children & -> & H1 & H2 & H3 & H4 & H5).
  rewrite Base_render in Hup by assumption.
  apply (bare_marker_match fs rt cs' nd mt x children nm c); assumption.
Qed.

Lemma Scan_bare_suffix_marker_witness :
  exists m, Scan tree_bare "/in" flat = inl [m] /\
    ReadyFile m = "/in/.rDy" /\ Folder m = "/in" /\ MissingFolder m = false /\
    exists e, In e (FolderEntries m) /\ Name e = ".rDy" /\ Scanner.Path e = "/in/.rDy".
Proof.
  destruct (Scan tree_bare "/in" flat) as [ms|] eqn:E; [|vm_compute in E; discriminate].
  assert (Hms : exists m, ms = [m] /\ ReadyFile m = "/in/.rDy").
  { vm_compute in E. inversion E. eexists. split; reflexivity. }
  destruct Hms as (m & -> & Hrf). exists m. split; [reflexivity|].
  destruct (Scan_bare_suffix_marker tree_bare "/in" flat [m] m)
    as (_ & _ & Hf & Hm & He).
  - vm_compute. reflexivity.
  - vm_compute. reflexivity.
  - exact E.
  - left. reflexivity.
  - rewrite Hrf. vm_compute. reflexivity.
  - rewrite Hrf. discriminate.
  - rewrite Hrf in *. split; [reflexivity|]. split; [exact Hf|]. split; [exact Hm|].
    exact He.
Defined.

End BareMarkerFacts.

(* ===================================================================== *)
(** * SHA-256 on the test vectors of the standard *)
(* ===================================================================== *)

Example sha256_empty :
  Sha256.sum_hex ""
  = "e3b0c44298fc1c149afbf4c8996fb92427ae41e4649b934ca495991b7852b855".
Proof. vm_compute. reflexivity. Qed.

Example sha256_abc :
  Sha256.sum_hex "abc"
  = "ba7816bf8f01cfea414140de5dae2223b00361a396177a9cb410ff61f20015ad".
Proof. vm_compute. reflexivity. Qed.

Example sha256_two_blocks :
  Sha256.sum_hex "abcdbcdecdefdefgefghfghighijhijkijkljklmklmnlmnomnopnopq"
  = "248d6a61d20638b8e5c026930c3e6039a33ce45964ff2167f6ecedd419db06c1".
Proof. vm_compute. reflexivity. Qed.

(* ===================================================================== *)
(** * Properties of the uploader *)
(* ===================================================================== *)

Section UploadFacts.
Import Strings FS Scanner Uploader.

Variable uploadObject : string -> string -> option error.
Variables (fs : node) (u : GCSUploader) (objectPrefix : string).
Variable entries : list FileEntry.

Lemma taskFor_inv bucket fe t :
  In fe entries -> In t (taskFor uploadObject fs u bucket objectPrefix fe) ->
  exists fi objectName,
    eligible fs fe fi /\
    t = uploadTask uploadObject fs u bucket (Name fe) (Scanner.Path fe)
          objectName fi.
Proof.
  intros Hfe. unfold taskFor.
  destruct (String.eqb_spec (Scanner.Path fe) "") as [|Hp]; [contradiction|].
  destruct (os_Lstat fs (Scanner.Path fe)) as [fi|] eqn:Hl; [|contradiction].
  destruct (fi_Symlink fi) eqn:Hs; [contradiction|].
  destruct (fi_IsDir fi) eqn:Hd; [contradiction|].
  destruct (isReady (Name fe)) eqn:Hr; [contradiction|]. simpl.
  intros [<-|[]]. exists fi. eexists. split; [|reflexivity].
  repeat split; assumption.
Qed.

Lemma uploadTask_ok bucket fe fi objectName st :
  In fe entries -> eligible fs fe fi -> effects_ok fs entries st ->
  effects_ok fs entries (fst (uploadTask uploadObject fs u bucket (Name fe)
                     (Scanner.Path fe) objectName fi st)).
Proof.
  intros Hfe He [Hu Hm]. unfold uploadTask, getChecksum.
  destruct (read_file fs (Scanner.Path fe)) as [bytes|] eqn:Hb; [|split; assumption].
  assert (Hup : List.Forall (upload_ok fs entries) (uploads st ++ [(Scanner.Path fe, objectName)])).
  { apply List.Forall_app. split; [exact Hu|]. constructor; [|constructor].
    exists fe, fi. repeat split; try assumption; apply He. }
  destruct (fileUploadHook u) as [hook|]; [split; assumption|].
  destruct bucket; simpl; [|split; assumption].
  destruct (uploadObject _ _); simpl; [split; assumption|].
  split; [exact Hup|]. apply List.Forall_app. split; [exact Hm|].
  constructor; [|constructor]. exists fe, fi, bytes. repeat split; try assumption; apply He.
Qed.

Lemma runTasks_ok (tasks : list (Workerpool.Task effects error)) sched : forall st,
  (forall t, In t tasks -> forall st, effects_ok fs entries st -> effects_ok fs entries (fst (t st))) ->
  effects_ok fs entries st -> effects_ok fs entries (fst (Workerpool.runTasks tasks sched st)).
Proof.
  induction sched as [|i sched IH]; intros st Ht Hst; simpl; [exact Hst|].
  destruct (nth_error tasks i) as [t|] eqn:Hi; [|apply IH; assumption].
  pose proof (Ht t (nth_error_In _ _ Hi) st Hst) as H1.
  destruct (t st) as [st1 e1]. simpl in H1.
  pose proof (IH st1 Ht H1) as H2.
  destruct (Workerpool.runTasks tasks sched st1) as [st2 e2]. exact H2.
Qed.

(** C4: whatever the entries handed over and the order in which the pool
    runs the tasks, every upload started is the upload of the path of an
    entry that names neither a directory nor a symbolic link and whose name
    does not end in the marker suffix, and every file in the metadata
    returned comes from such an entry, with its name, its size and the
    SHA-256 of its bytes as checksum. *)
Theorem UploadListedEntries_only_plain_files (numCPU : Z) (sched : list nat) :
  let r := UploadListedEntries uploadObject fs u numCPU sched
             entries objectPrefix in
  List.Forall (upload_ok fs entries) (started r) /\
  forall delivered, files r = Some delivered -> List.Forall (meta_ok fs entries) delivered.
Proof.
  unfold UploadListedEntries.
  destruct (String.eqb (Bucket u) "");
    [split; [constructor|discriminate]|].
  destruct (negb (hasClient u) && negb (hasHook u));
    [split; [constructor|discriminate]|].
  destruct (Z.of_nat (length entries) =? 0);
    [split; [constructor|intros d E; inversion E; constructor]|].
  destruct (Z.of_nat (length (flat_map _ entries)) =? 0) eqn:Hlen;
    [split; [constructor|intros d E; inversion E; constructor]|].
  unfold Workerpool.RunParallel. rewrite Hlen.
  assert (Hok : effects_ok fs entries (fst (Workerpool.runTasks
            (flat_map (taskFor uploadObject fs u (negb (hasHook u)) objectPrefix)
                      entries)
            sched {| uploads := []; meta := [] |}))).
  { apply runTasks_ok; [|split; constructor].
    intros t Ht st Hst. apply in_flat_map in Ht as (fe & Hfe & Ht).
    destruct (taskFor_inv _ fe t Hfe Ht) as (fi & on & He & ->).
    apply uploadTask_ok; assumption. }
  destruct (Workerpool.runTasks _ sched _) as [st e]. simpl in *.
  destruct Hok as [Hu Hm].
  destruct e; simpl; (split; [exact Hu|]); [discriminate|].
  intros d E. inversion E; subst. exact Hm.
Qed.

End UploadFacts.

Lemma UploadListedEntries_only_plain_files_witness :
  let r := Uploader.UploadListedEntries (fun _ _ => None)
             tree_upload uploader_real 4 [0%nat] entries_upload "" in
  length entries_upload = 4%nat /\
  Uploader.started r = [("/in/ORDER100/a.txt", "ORDER100/a.txt")] /\
  Uploader.files r =
    Some [ {| Uploader.uName := "a.txt"; Uploader.uSize := 1;
              Uploader.uChecksum :=
                "2d711642b726b04401627ca9fbac32f5c8530fb1903cc4db02258717921a4881";
              Uploader.uPath := "ORDER100/a.txt" |} ] /\
  List.Forall (upload_ok tree_upload entries_upload) (Uploader.started r).
Proof.
  intros r.
  split; [vm_compute; reflexivity|]. split; [vm_compute; reflexivity|].
  split; [vm_compute; reflexivity|].
  apply (UploadListedEntries_only_plain_files (fun _ _ => None)
           tree_upload uploader_real "" entries_upload 4 [0%nat]).
Defined.

(* ===================================================================== *)
(** * More on the dedup store *)
(* ===================================================================== *)

Section StoreMore.
Import State.



(** [Save] replaces the state file in one step or not at all: when a call
    fails, at whatever stage, the file at the store's path is what it was
    and the store is untouched (still dirty, so that a later [Save] tries
    again); when it succeeds the file holds the store, no temporary file is
    left, and a second [Save] does nothing. *)
Theorem Save_all_or_nothing (io : save_io) (disk : gmap string fstate) (s : Store) :
  Path s <> "" -> dirty s = true ->
  let '(disk', s', e) := Save io disk s in
  (io <> SaveIoOk ->
     is_Some e /\ s' = s /\ disk' !! Path s = disk !! Path s) /\
  (io = SaveIoOk ->
     e = None /\ disk' !! Path s = Some (saved s) /\
     disk' !! (Path s +:+ ".tmp") = None /\
     dirty s' = false /\
     forall io2, Save io2 disk' s' = (disk', s', None)).
Proof.
  intros Hp Hd. unfold Save. rewrite Hd.
  destruct (String.eqb_spec (Path s) "") as [|_]; [contradiction|]. simpl.
  destruct io; simpl; (split; [intros Hio|intros Hio; try discriminate Hio]);
    try (split; [eauto|split; reflexivity]); try contradiction.
  - split; [eauto|]. split; [reflexivity|].
    apply lookup_insert_ne, append_tmp_neq.
  - split; [reflexivity|]. split; [apply lookup_insert_eq|]. split.
    + rewrite lookup_insert_ne by (intros E; symmetry in E; exact (append_tmp_neq _ E)).
      apply lookup_delete_eq.
    + split; [reflexivity|]. intros io2. simpl. rewrite orb_true_r. reflexivity.
Qed.

Lemma Save_all_or_nothing_witness :
  let '(disk', s', e) := Save RenameFails disk_one store_set in
  (RenameFails <> SaveIoOk ->
     is_Some e /\ s' = store_set /\
     disk' !! Path store_set = disk_one !! Path store_set) /\
  (RenameFails = SaveIoOk ->
     e = None /\ disk' !! Path store_set = Some (saved store_set) /\
     disk' !! (Path store_set +:+ ".tmp") = None /\
     dirty s' = false /\
     forall io2, Save io2 disk' s' = (disk', s', None)).
Proof.
  apply (Save_all_or_nothing RenameFails disk_one store_set);
    [discriminate|reflexivity].
Defined.

(** Reading back: after [Set] the key holds the value; the other keys hold
    what they held; a key never set is reported absent, with value zero. *)
Theorem Get_after_Set (s : Store) (k k' : string) (v : Z) :
  Get (Set_ s k v) k = (v, true) /\
  (k' <> k -> Get (Set_ s k v) k' = Get s k') /\
  (Data s !! k' = None -> Get s k' = (0, false)).
Proof.
  unfold Get. split; [rewrite Set_lookup; reflexivity|]. split.
  - intros Hne. unfold Set_.
    destruct (Data s !! k) as [cur|]; [destruct (negb (cur =? v))|]; simpl;
      rewrite ?lookup_insert_ne by congruence; reflexivity.
  - intros ->. reflexivity.
Qed.

Lemma Get_after_Set_witness :
  Get (Set_ store_two "/in/A.RDY" 9) "/in/A.RDY" = (9, true) /\
  Get (Set_ store_two "/in/A.RDY" 9) "/in/B.RDY" = (2, true) /\
  Get store_two "/in/C.RDY" = (0, false).
Proof.
  destruct (Get_after_Set store_two "/in/A.RDY" "/in/B.RDY" 9) as (H1 & H2 & _).
  destruct (Get_after_Set store_two "/in/A.RDY" "/in/C.RDY" 9) as (_ & _ & H3).
  split; [exact H1|]. split.
  - rewrite H2 by discriminate. reflexivity.
  - apply H3. reflexivity.
Defined.

(** [Load] on a store that already holds tokens merges: a key of the file
    takes the file's token, a key only in memory keeps its own; the last run
    is the file's; path and dirty flag stay.  When the file exists and cannot
    be read, [Load] returns the error and leaves the store as it was. *)
Theorem Load_merges (disk : gmap string fstate) (s : Store) :
  Path s <> "" ->
  (forall ds files,
     disk !! Path s = Some (Readable (Json ds)) -> Files ds = Some files ->
     let s' := fst (Load disk s) in
     snd (Load disk s) = None /\
     (forall k, Data s' !! k =
                match files !! k with Some v => Some v | None => Data s !! k end) /\
     LastRun s' = dsLastRun ds /\ Path s' = Path s /\ dirty s' = dirty s) /\
  (disk !! Path s = Some Unreadable -> Load disk s = (s, Some ErrRead)).
Proof.
  intros Hp. unfold Load.
  destruct (String.eqb_spec (Path s) "") as [|_]; [contradiction|]. split.
  - intros ds files Hd Hf. rewrite Hd, Hf. simpl. repeat split.
    intros k. unfold maps_Copy. rewrite lookup_union.
    destruct (files !! k), (Data s !! k); reflexivity.
  - intros ->. reflexivity.
Qed.

Lemma Load_merges_witness :
  Data (fst (Load disk_one store_two)) !! "/in/A.RDY" = Some 7 /\
  Data (fst (Load disk_one store_two)) !! "/in/B.RDY" = Some 2.
Proof.
  destruct (Load_merges disk_one store_two) as [H _]; [discriminate|].
  destruct (H _ _ (lookup_singleton_eq _ _) eq_refl) as (_ & Hk & _).
  rewrite !Hk. split; reflexivity.
Defined.

(** The state file is rewritten on every run: after [SetLastRun], [Save]
    writes the file even when no token changed, with the new last run and
    the tokens as they are. *)
Theorem SetLastRun_forces_Save (disk : gmap string fstate) (s : Store) (t : Time) :
  Path s <> "" ->
  let '(disk', s', e) := Save SaveIoOk disk (SetLastRun s t) in
  e = None /\
  disk' !! Path s =
    Some (Readable (Json {| Version := 1; dsLastRun := t;
                            Files := Some (Data s) |})) /\
  Data s' = Data s /\ LastRun s' = t /\ dirty s' = false.
Proof.
  intros Hp. unfold Save, SetLastRun. simpl.
  destruct (String.eqb_spec (Path s) "") as [|_]; [contradiction|]. simpl.
  split; [reflexivity|]. split; [apply lookup_insert_eq|]. repeat split.
Qed.

Lemma SetLastRun_forces_Save_witness :
  let '(disk', s', e) := Save SaveIoOk ∅ (SetLastRun (New "/in/state.json") 50) in
  e = None /\
  disk' !! "/in/state.json" =
    Some (Readable (Json {| Version := 1; dsLastRun := 50; Files := Some ∅ |})) /\
  Data s' = ∅ /\ LastRun s' = 50 /\ dirty s' = false.
Proof.
  apply (SetLastRun_forces_Save ∅ (New "/in/state.json") 50). discriminate.
Defined.

(** A store made without a path lives in memory only: [Load] and [Save]
    return nil at once, and no sequence of operations, saves included,
    changes the disk. *)
Theorem pathless_store_never_touches_disk (ops : list op)
    (disk : gmap string fstate) (s : Store) :
  Path s = "" ->
  Load disk s = (s, None) /\
  (forall io, Save io disk s = (disk, s, None)) /\
  fst (run ops (disk, s)) = disk /\
  Path (snd (run ops (disk, s))) = "".
Proof.
  intros Hp. split; [unfold Load; rewrite Hp; reflexivity|].
  split; [intros io; unfold Save; rewrite Hp; reflexivity|].
  split; [apply run_no_path, Hp|].
  destruct (run_keys ops disk s) as (H & _). rewrite H. exact Hp.
Qed.

Lemma pathless_store_never_touches_disk_witness :
  fst (run [OpLoad; OpSet "/in/A.RDY" 7; OpSetLastRun 50; OpSave SaveIoOk]
           (disk_one, New "")) = disk_one.
Proof.
  destruct (pathless_store_never_touches_disk
              [OpLoad; OpSet "/in/A.RDY" 7; OpSetLastRun 50; OpSave SaveIoOk]
              disk_one (New "")) as (_ & _ & H & _); [reflexivity|exact H].
Defined.

End StoreMore.

(* ===================================================================== *)
(** * More on the process lock *)
(* ===================================================================== *)

Section LockMore.
Import Lock.

(** The release function removes the lock file exactly when the call
    acquired the lock, and only the first time it is called. *)
Theorem release_removes_own_lock_once (e : env) (ttl : Duration) (now : Time) :
  let r := acquireLockWith e ttl now in
  owned r = acquired r /\
  release (owned r) = (false, if acquired r then [SysRemove] else []) /\
  release (fst (release (owned r))) = (false, []).
Proof.
  unfold acquireLockWith.
  destruct (open1 e); try (repeat split; fail).
  destruct (stat e) as [mt|]; [|repeat split].
  destruct (Time_Sub now mt >? ttl); [|repeat split].
  destruct (open2 e); repeat split.
Qed.

(** The outcomes of an acquisition.  An error is returned only when the
    first exclusive creation fails for another reason than the file existing.
    The lock is acquired exactly when the file could be created at once, or
    existed, was stale and could be created after its removal.  The file is
    removed only when it was found stale, and the diagnostic line is written
    only into a lock that was acquired. *)
Theorem acquire_outcomes (e : env) (ttl : Duration) (now : Time) :
  let r := acquireLockWith e ttl now in
  (is_Some (err r) <-> open1 e = OpenErrOther) /\
  (acquired r = true <->
     open1 e = OpenOk \/
     (open1 e = OpenErrExist /\ open2 e = OpenOk /\
      exists modTime, stat e = Some modTime /\ Time_Sub now modTime > ttl)) /\
  (In SysRemove (trace r) ->
     open1 e = OpenErrExist /\
     exists modTime, stat e = Some modTime /\ Time_Sub now modTime > ttl) /\
  (In SysFprintf (trace r) <-> acquired r = true).
Proof.
  unfold acquireLockWith.
  destruct (open1 e) eqn:H1;
    [|destruct (stat e) as [mt|] eqn:Hs;
      [destruct (Z.gtb_spec (Time_Sub now mt) ttl) as [Hgt|Hle];
       [destruct (open2 e) eqn:H2|]|]|];
    simpl; repeat split; intros;
    repeat match goal with
           | H : is_Some _ |- _ => destruct H as [? H]
           | H : _ \/ _ |- _ => destruct H
           | H : _ /\ _ |- _ => destruct H
           | H : exists _, _ |- _ => destruct H
           | H : False |- _ => destruct H
           | H : Some _ = Some _ |- _ => inversion H; clear H; subst
           end;
    try congruence; try lia; eauto;
    try solve [left; reflexivity
              |exists mt; split; [reflexivity|lia]
              |right; split; [reflexivity|]; split; [reflexivity|];
               exists mt; split; [reflexivity|lia]
              |do 4 right; left; reflexivity].
Qed.

Lemma acquire_outcomes_witness :
  acquired (acquireLockWith env_stale 1000 4000) = true /\
  In SysFprintf (trace (acquireLockWith env_stale 1000 4000)).
Proof.
  destruct (acquire_outcomes env_stale 1000 4000) as (_ & Ha & _ & Hf).
  assert (H : acquired (acquireLockWith env_stale 1000 4000) = true).
  { apply Ha. right. split; [reflexivity|]. split; [reflexivity|].
    exists 0. split; [reflexivity|]. vm_compute. reflexivity. }
  split; [exact H|]. apply Hf, H.
Defined.

Lemma Time_Sub_range (t u : Time) :
  minDuration <= Time_Sub t u <= maxDuration /\
  (t <= u -> Time_Sub t u <= 0).
Proof.
  unfold Time_Sub, minDuration, maxDuration.
  destruct (Z.gtb_spec (t - u) (2 ^ 63 - 1)); [lia|].
  destruct (Z.ltb_spec (t - u) (- 2 ^ 63)); lia.
Qed.

(** A lock file is never taken for stale, whatever its age, when its
    modification time is not behind the clock (and the TTL is not negative),
    or when the TTL is the largest duration: the age the code compares is
    [now().Sub(modTime)], which is never positive in the first case and never
    above the largest duration in the second. *)
Theorem lock_kept_when_not_behind (e : env) (ttl : Duration) (now modTime : Time) :
  open1 e = OpenErrExist -> stat e = Some modTime ->
  (0 <= ttl /\ now <= modTime) \/ maxDuration <= ttl ->
  let r := acquireLockWith e ttl now in
  acquired r = false /\ err r = None /\ trace r = [SysOpenExcl; SysStat].
Proof.
  intros H1 Hs Hc. unfold acquireLockWith. rewrite H1, Hs.
  destruct (Time_Sub_range now modTime) as [Hr Hn].
  destruct (Z.gtb_spec (Time_Sub now modTime) ttl) as [Hgt|_]; [|repeat split].
  exfalso. destruct Hc as [[Ht Hle]|Ht]; [specialize (Hn Hle)|]; lia.
Qed.

Lemma lock_kept_when_not_behind_witness :
  let r := acquireLockWith env_ahead 1000 4000 in
  acquired r = false /\ err r = None /\ trace r = [SysOpenExcl; SysStat].
Proof.
  apply (lock_kept_when_not_behind env_ahead 1000 4000 5000);
    [reflexivity|reflexivity|left; lia].
Defined.

Lemma Time_Sub_gt (t u : Time) (ttl : Duration) :
  minDuration <= ttl < maxDuration ->
  (Time_Sub t u > ttl <-> t - u > ttl).
Proof.
  unfold Time_Sub, minDuration, maxDuration. intros H.
  destruct (Z.gtb_spec (t - u) (2 ^ 63 - 1)); [lia|].
  destruct (Z.ltb_spec (t - u) (- 2 ^ 63)); lia.
Qed.

(** [AcquireLock] takes an existing lock file for abandoned exactly when
    the clock is more than thirty minutes past its modification time: the
    duration [now().Sub(modTime)] is cut off at the largest and smallest
    [time.Duration], which never changes the outcome of the comparison.
    The lock is then acquired exactly when the second creation succeeds. *)
Theorem AcquireLock_half_hour (e : env) (now modTime : Time) :
  open1 e = OpenErrExist -> stat e = Some modTime ->
  let r := AcquireLock e now in
  (In SysRemove (trace r) <-> now - modTime > 1800 * 1000000000) /\
  (acquired r = true <->
     now - modTime > 1800 * 1000000000 /\ open2 e = OpenOk).
Proof.
  intros H1 Hs. unfold AcquireLock, acquireLockWith. rewrite H1, Hs.
  pose proof (Time_Sub_gt now modTime (30 * 60 * 1000000000)) as Hgt.
  destruct (Z.gtb_spec (Time_Sub now modTime) (30 * 60 * 1000000000)) as [Hg|Hg].
  - apply Z.lt_gt, Hgt in Hg; [|unfold minDuration, maxDuration; lia].
    destruct (open2 e); simpl; split; split; intros H;
      try lia; try (split; [lia|]); try congruence; try tauto;
      try (destruct H as [_ H]; discriminate H).
  - assert (Hn : ~ now - modTime > 30 * 60 * 1000000000).
    { intros H. apply Hgt in H; [lia|unfold minDuration, maxDuration; lia]. }
    simpl. split; split; intros H; try lia; try discriminate H.
    destruct H as [H|[H|[]]]; discriminate H.
Qed.

Lemma AcquireLock_half_hour_witness :
  In SysRemove (trace (AcquireLock env_stale (31 * 60 * 1000000000))) /\
  acquired (AcquireLock env_stale (31 * 60 * 1000000000)) = true.
Proof.
  destruct (AcquireLock_half_hour env_stale (31 * 60 * 1000000000) 0 eq_refl eq_refl)
    as [Hr Ha].
  split; [apply Hr; lia|apply Ha; split; [lia|reflexivity]].
Defined.

End LockMore.

(* ===================================================================== *)
(** * More on the scanner *)
(* ===================================================================== *)

Section ScanMore.
Import Strings FS Scanner.

Lemma walk_each_ext {St E} (f g : string * node -> St -> St * walk_result E) cs :
  List.Forall (fun c => forall st, f c st = g c st) cs ->
  forall st, walk_each St E f cs st = walk_each St E g cs st.
Proof.
  induction 1 as [|c cs Hc _ IH]; intros st; simpl; [reflexivity|].
  rewrite Hc. destruct (g c st) as [st' [| | |e]]; auto.
Qed.

Lemma walkDir_any_options o1 o2 n : forall reach path d st,
  de_IsDir d = is_dir n -> de_Symlink d = is_symlink n ->
  walkDir _ _ ErrReadDir (walkFn o1) reach path d n st
  = walkDir _ _ ErrReadDir (walkFn o2) reach path d n st.
Proof.
  induction n as [m c|m r x cs IH|m|m t _] using node_ind';
    intros reach path d st Hd Hs; simpl; rewrite ?Hd, ?Hs; simpl;
    try reflexivity.
  rewrite !andb_false_r. simpl.
  destruct (reach && r); [|reflexivity].
  apply walk_each_ext.
  eapply List.Forall_impl; [|exact IH]. intros c Hc st'. apply Hc; reflexivity.
Qed.

(** The option [FollowSymlinks] has no effect: a directory entry is never
    at once a directory and a symbolic link, so [walkFn] never returns
    [SkipDir], and [filepath.WalkDir] does not go through links in any case.
    Two scans that differ only in this option return the same. *)
Theorem Scan_ignores_FollowSymlinks fs root (o1 o2 : Options) :
  Recursive o1 = Recursive o2 -> Scan fs root o1 = Scan fs root o2.
Proof.
  intros Hr. unfold Scan, collect. rewrite <- Hr.
  destruct (os_Stat fs root) as [i|]; [|reflexivity].
  destruct (fi_IsDir i); simpl; [|reflexivity].
  destruct (Recursive o1); [|reflexivity].
  unfold WalkDir. destruct (locate fs root) as [n|]; [|reflexivity].
  rewrite (walkDir_any_options o1 o2) by reflexivity. reflexivity.
Qed.

Lemma Scan_ignores_FollowSymlinks_witness :
  Scan tree_links "/in" deep = Scan tree_links "/in" deep_follow /\
  map ReadyFile (match Scan tree_links "/in" deep_follow with
                 | inl ms => ms | inr _ => [] end)
    = ["/in/A.RDY"; "/in/inner/B.rdy"].
Proof.
  split.
  - apply (Scan_ignores_FollowSymlinks tree_links "/in" deep deep_follow).
    reflexivity.
  - vm_compute. reflexivity.
Defined.

Lemma map_ReadyFile_matchOf fs l : map ReadyFile (map (matchOf fs) l) = l.
Proof.
  rewrite map_map. erewrite map_ext; [apply map_id|].
  intros rdy. apply matchOf_ReadyFile.
Qed.

(** The markers of the non-recursive scan are exactly the entries of the
    root that are not directories and whose name ends in the suffix, in any
    letter case; a directory named like a marker is not one. *)
Theorem Scan_flat_markers fs root opts ms :
  Recursive opts = false -> Scan fs root opts = inl ms ->
  exists entries,
    os_ReadDir fs root = Some entries /\
    forall p, In p (map ReadyFile ms) <->
      exists e, In e entries /\ de_IsDir e = false /\
                isReady (de_Name e) = true /\
                p = Path.Join root (de_Name e).
Proof.
  intros Hrec H. apply Scan_ok_inv in H as (i & rdyFiles & _ & _ & Hc & ->).
  unfold collect in Hc. rewrite Hrec in Hc.
  destruct (os_ReadDir fs root) as [entries|]; [|discriminate].
  inversion Hc; subst rdyFiles. exists entries. split; [reflexivity|].
  intros p. rewrite map_ReadyFile_matchOf.
  assert (Hp : In p (sort_Strings (readyIn root entries))
               <-> In p (readyIn root entries)).
  { split; apply Permutation_in; [|symmetry]; apply sort_by_perm. }
  rewrite Hp, readyIn_flat_map, in_flat_map. unfold readyOf.
  split.
  - intros (e & He & Hin). exists e.
    destruct (de_IsDir e); [contradiction|].
    destruct (isReady (de_Name e)); [|contradiction].
    destruct Hin as [<-|[]]. repeat split; assumption.
  - intros (e & He & Hd & Hr & ->). exists e. split; [exact He|].
    rewrite Hd, Hr. left. reflexivity.
Qed.

Lemma Scan_flat_markers_witness :
  exists ms, Scan tree_links "/in" flat = inl ms /\
             map ReadyFile ms = ["/in/A.RDY"].
Proof.
  destruct (Scan tree_links "/in" flat) as [ms|] eqn:E; [|vm_compute in E; discriminate].
  destruct (Scan_flat_markers tree_links "/in" flat ms eq_refl E) as (entries & _ & _).
  exists ms. split; [reflexivity|]. vm_compute in E. inversion E. reflexivity.
Defined.

(** A folder that is reported present is listed whole: its path is the
    candidate folder of the marker, and its entries are those [os.ReadDir]
    gives, each once, under its own name and its path in the folder.  An
    entry whose [Info()] fails is kept, with size zero and the zero time. *)
Theorem Scan_lists_every_entry fs root opts ms m :
  Scan fs root opts = inl ms -> In m ms -> MissingFolder m = false ->
  Folder m = candidateDir (ReadyFile m) /\
  exists entries,
    os_ReadDir fs (Folder m) = Some entries /\
    length (FolderEntries m) = length entries /\
    Permutation (map Name (FolderEntries m)) (map de_Name entries) /\
    forall e, In e entries ->
      exists fe, In fe (FolderEntries m) /\
        Name fe = de_Name e /\
        Scanner.Path fe = Path.Join (Folder m) (de_Name e) /\
        match de_Info e with
        | Some i => Size fe = fi_Size i /\ ModTime fe = fi_ModTime i
        | None => Size fe = 0 /\ ModTime fe = zeroTime
        end.
Proof.
  intros H Hin Hm. apply Scan_ok_inv in H as (i & rdyFiles & _ & _ & _ & ->).
  apply in_map_iff in Hin as (rdy & <- & _).
  rewrite matchOf_ReadyFile. revert Hm. unfold matchOf.
  destruct (os_Stat fs (candidateDir rdy)) as [st|]; [|discriminate].
  destruct (fi_IsDir st); [|discriminate].
  destruct (os_ReadDir fs (candidateDir rdy)) as [entries|] eqn:Hrd;
    [|discriminate].
  simpl. intros _. split; [reflexivity|]. exists entries.
  pose proof (sort_by_perm Name (map (fileEntry (candidateDir rdy)) entries)) as Hp.
  split; [exact Hrd|]. split; [|split].
  - rewrite (Permutation_length Hp). apply length_map.
  - rewrite (Permutation_map Name Hp), map_map.
    erewrite map_ext; [reflexivity|]. intros e. apply fileEntry_Name.
  - intros e He. exists (fileEntry (candidateDir rdy) e). split.
    + eapply Permutation_in; [symmetry; exact Hp|]. apply in_map, He.
    + unfold fileEntry. destruct (de_Info e); repeat split.
Qed.

Lemma Scan_lists_every_entry_witness :
  let m := matchOf tree_orders "/in/ORDER100.RDY" in
  Folder m = candidateDir (ReadyFile m) /\
  map Name (FolderEntries m) = ["data.txt"; "notes.md"].
Proof.
  split; [|vm_compute; reflexivity].
  refine (proj1 (Scan_lists_every_entry tree_orders "/in" flat
            (map (matchOf tree_orders) ["/in/ORDER100.RDY"; "/in/ORDER200.RDY"])
            (matchOf tree_orders "/in/ORDER100.RDY") _ _ _)).
  - vm_compute. reflexivity.
  - left. reflexivity.
  - vm_compute. reflexivity.
Defined.

End ScanMore.

(* ===================================================================== *)
(** * The folder a marker stands for *)
(* ===================================================================== *)

Section PairingMore.
Import Strings Path.

Lemma ext_scan_plain e :
  has_dot e = false -> has_slash e = false -> ext_scan e = None.
Proof.
  induction e as [|c e IH]; simpl; [reflexivity|].
  intros Hd Hs. apply orb_false_iff in Hd as [Hc Hd].
  apply orb_false_iff in Hs as [Hc' Hs].
  rewrite (IH Hd Hs), Hc, Hc'. reflexivity.
Qed.

Lemma ext_scan_last_dot stem e :
  ext_scan e = None ->
  ext_scan (stem +:+ String "." e) = Some (String "." e).
Proof.
  intros He. induction stem as [|c stem IH]; simpl.
  - rewrite He. reflexivity.
  - rewrite IH. reflexivity.
Qed.

Lemma substring_all b : substring 0 (String.length b) b = b.
Proof. induction b as [|c b IH]; simpl; [reflexivity|]. rewrite IH. reflexivity. Qed.

Lemma substring_skip a b m :
  substring (String.length a) m (a +:+ b) = substring 0 m b.
Proof. induction a as [|c a IH]; simpl; [reflexivity|]. exact IH. Qed.

Lemma substring_take a b : substring 0 (String.length a) (a +:+ b) = a.
Proof.
  induction a as [|c a IH]; simpl; [destruct b; reflexivity|].
  rewrite IH. reflexivity.
Qed.

Lemma TrimSuffix_app a b : TrimSuffix (a +:+ b) b = a.
Proof.
  unfold TrimSuffix, HasSuffix. rewrite string_length_app.
  replace (String.length a + String.length b - String.length b)%nat
    with (String.length a) by lia.
  rewrite substring_skip, substring_all, String.eqb_refl, andb_true_r.
  replace (String.length b <=? String.length a + String.length b)%nat with true
    by (symmetry; apply Nat.leb_le; lia).
  apply substring_take.
Qed.

Lemma has_slash_app a b : has_slash (a +:+ b) = has_slash a || has_slash b.
Proof.
  induction a as [|c a IH]; simpl; [reflexivity|].
  rewrite IH, orb_assoc. reflexivity.
Qed.

Lemma Join_render_dot rt cs :
  List.Forall (fun c => is_name c = true) cs ->
  Join (render rt cs) "." = render rt cs.
Proof.
  intros H. unfold Join. rewrite render_not_empty. simpl negb. cbv iota.
  unfold Clean.
  assert (Hne : render rt cs <> "") by (apply String.eqb_neq, render_not_empty).
  rewrite is_rooted_append, is_rooted_render by assumption.
  change ("/" +:+ ".") with (String "/" ".").
  rewrite split_slash_app. unfold clean_elems.
  rewrite fold_clean_render by exact H.
  simpl. change (clean_step rt (rev cs ++ []) ".") with (rev cs ++ []).
  rewrite app_nil_r, rev_involutive. reflexivity.
Qed.

(** The folder of a marker is its sibling named by the marker's name up to
    the last dot, so that [a.b.RDY] stands for [a.b]; what follows the last
    dot plays no part.  When nothing, or one dot, comes before the last dot
    the folder is the directory the marker is in. *)
Theorem candidateDir_drops_last_extension rt cs stem ext :
  List.Forall (fun c => is_name c = true) cs ->
  is_name (stem +:+ String "." ext) = true ->
  has_dot ext = false -> stem <> ".." ->
  Scanner.candidateDir (render rt (cs ++ [stem +:+ String "." ext])) =
    if String.eqb stem "" || String.eqb stem "."
    then render rt cs else render rt (cs ++ [stem]).
Proof.
  intros Hcs Hnm Hdot Hpp.
  pose proof (is_name_inv _ Hnm) as (_ & _ & _ & Hsl).
  rewrite has_slash_app in Hsl. apply orb_false_iff in Hsl as [Hs1 Hs2].
  simpl in Hs2.
  unfold Scanner.candidateDir.
  rewrite Base_render, Dir_render by assumption.
  unfold Ext. rewrite ext_scan_last_dot by (apply ext_scan_plain; assumption).
  rewrite TrimSuffix_app.
  destruct (String.eqb_spec stem "") as [->|H1];
    [apply Join_render_empty, Hcs|].
  destruct (String.eqb_spec stem ".") as [->|H2];
    [apply Join_render_dot, Hcs|].
  apply Join_render_name; [exact Hcs|].
  unfold is_name.
  rewrite (proj2 (String.eqb_neq _ _) H1), (proj2 (String.eqb_neq _ _) H2),
          (proj2 (String.eqb_neq _ _) Hpp), Hs1. reflexivity.
Qed.

Lemma candidateDir_drops_last_extension_witness :
  Scanner.candidateDir "/in/a.b.RDY" = "/in/a.b".
Proof.
  apply (candidateDir_drops_last_extension true ["in"] "a.b" "RDY").
  - repeat constructor.
  - reflexivity.
  - reflexivity.
  - discriminate.
Defined.

End PairingMore.

(* ===================================================================== *)
(** * What the recursive scan finds *)
(* ===================================================================== *)

Section DeepMore.
Import Strings Path FS Scanner.

Lemma last_cons {A} (a : A) l d : List.last (a :: l) d = List.last l a.
Proof.
  revert a d. induction l as [|b l IH]; intros a d; [reflexivity|].
  change (List.last (a :: b :: l) d) with (List.last (b :: l) d).
  rewrite (IH b d), (IH b a). reflexivity.
Qed.

Lemma real_descend_leaf cs n f :
  is_dir n = false -> real_descend cs n = Some f -> cs = [] /\ f = n.
Proof.
  destruct cs as [|c cs]; simpl.
  - intros _ E. inversion E. split; reflexivity.
  - destruct n; simpl; intros; discriminate.
Qed.

(** Every marker the walk of [n] finds is a node below [n] that is no
    directory, reached through directories, under a name with the
    suffix. *)
Lemma found_sound rt n : forall cs name rdy,
  wf n = true -> List.Forall (fun c => is_name c = true) cs ->
  In rdy (found (render rt cs) name n) ->
  exists cs' f,
    List.Forall (fun c => is_name c = true) cs' /\
    real_descend cs' n = Some f /\ is_dir f = false /\
    isReady (List.last cs' name) = true /\ rdy = render rt (cs ++ cs').
Proof.
  induction n as [m c|m r x children IH|m|m t _] using node_ind';
    intros cs name rdy Hw Hcs Hin; simpl in Hin;
    try (destruct (isReady name) eqn:Hr; simpl in Hin; [|contradiction];
         destruct Hin as [<-|[]]; exists []; eexists;
         rewrite app_nil_r; repeat split; [constructor|exact Hr]).
  pose proof (wf_Dir _ _ _ _ Hw) as (Hnames & Hnd & Hwf).
  apply in_flat_map in Hin as ([nm c] & Hc & Hin). simpl in Hin.
  rewrite List.Forall_forall in IH, Hnames, Hwf.
  pose proof (Hnames _ Hc) as Hnm. simpl in Hnm.
  rewrite Join_render_name in Hin by assumption.
  destruct (IH _ Hc (cs ++ [nm]) nm rdy (Hwf _ Hc)) as (cs' & f & H1 & H2 & H3 & H4 & H5).
  - apply List.Forall_app. split; [exact Hcs|constructor; [exact Hnm|constructor]].
  - exact Hin.
  - exists (nm :: cs'), f. split; [constructor; assumption|].
    split; [simpl; rewrite (child_In nm c children Hnd Hc); exact H2|].
    split; [exact H3|]. split; [rewrite last_cons; exact H4|].
    rewrite H5, <- app_assoc. reflexivity.
Qed.

(** And the walk misses none of them. *)
Lemma found_complete rt n : forall cs name cs' f,
  wf n = true -> List.Forall (fun c => is_name c = true) cs ->
  real_descend cs' n = Some f -> is_dir f = false ->
  isReady (List.last cs' name) = true ->
  In (render rt (cs ++ cs')) (found (render rt cs) name n).
Proof.
  induction n as [m c|m r x children IH|m|m t _] using node_ind';
    intros cs name cs' f Hw Hcs Hd Hf Hr;
    try (apply real_descend_leaf in Hd as [-> ->]; [|reflexivity];
         simpl in *; rewrite Hr, app_nil_r; left; reflexivity).
  pose proof (wf_Dir _ _ _ _ Hw) as (Hnames & Hnd & Hwf).
  rewrite List.Forall_forall in IH, Hnames, Hwf.
  destruct cs' as [|nm cs']; simpl in Hd.
  - inversion Hd; subst f. discriminate.
  - destruct (child nm children) as [c|] eqn:Hc; [|discriminate].
    apply child_Some in Hc. pose proof (Hnames _ Hc) as Hnm. simpl in Hnm.
    simpl. apply in_flat_map. exists (nm, c). split; [exact Hc|]. simpl.
    rewrite Join_render_name by assumption.
    replace (cs ++ nm :: cs') with ((cs ++ [nm]) ++ cs')
      by (rewrite <- app_assoc; reflexivity).
    apply (IH _ Hc (cs ++ [nm]) nm cs' f (Hwf _ Hc)); try assumption.
    + apply List.Forall_app. split; [exact Hcs|constructor; [exact Hnm|constructor]].
    + rewrite last_cons in Hr. exact Hr.
Qed.

(** When the recursive scan succeeds, its markers are exactly the paths
    below the root of the nodes that are no directories, are reached
    through directories alone, and have a name with the suffix.  Nothing
    behind a symbolic link is reported, whatever [FollowSymlinks] says; a
    link named like a marker is itself one, and so is the root when it is
    such a link to a directory. *)
Theorem Scan_deep_markers fs root opts ms :
  wf fs = true -> Path.is_clean root = true ->
  Recursive opts = true -> Scan fs root opts = inl ms ->
  exists cs n,
    root = render (is_rooted root) cs /\ locate fs root = Some n /\
    forall p, In p (map ReadyFile ms) <->
      exists cs' f,
        real_descend cs' n = Some f /\ is_dir f = false /\
        isReady (List.last cs' (Path.Base root)) = true /\
        p = render (is_rooted root) (cs ++ cs').
Proof.
  intros Hw Hclean Hrec Hscan.
  apply is_clean_render in Hclean as (cs & Hcs & Hr).
  apply Scan_ok_inv in Hscan as (info & rdyFiles & Hstat & _ & Hcol & ->).
  destruct (os_Stat_locate _ _ _ Hstat) as [n Hn].
  exists cs, n. split; [exact Hr|]. split; [exact Hn|].
  pose proof (collect_recursive fs root opts n Hrec Hn) as Hc.
  destruct (unlistable true n);
    [destruct Hc as [p Hc]; rewrite Hc in Hcol; discriminate|].
  rewrite Hc in Hcol. inversion Hcol; subst rdyFiles. clear Hcol Hc.
  assert (Hwn : wf n = true).
  { eapply descend_wf; [exact Hw|]. rewrite <- Hn, Hr at 1.
    symmetry. apply locate_render, Hcs. }
  intros p. rewrite map_ReadyFile_matchOf.
  assert (Hp : In p (sort_Strings (found root (Path.Base root) n))
               <-> In p (found root (Path.Base root) n)).
  { split; apply Permutation_in; [|symmetry]; apply sort_by_perm. }
  rewrite Hp. rewrite Hr at 1. split.
  - intros Hin.
    destruct (found_sound _ n cs _ p Hwn Hcs Hin) as (cs' & f & _ & H).
    exists cs', f. exact H.
  - intros (cs' & f & H1 & H2 & H3 & ->).
    apply (found_complete _ n cs _ cs' f); assumption.
Qed.

Lemma Scan_deep_markers_witness :
  exists ms, Scan tree_links "/in" deep_follow = inl ms /\
             In "/in/inner/B.rdy" (map ReadyFile ms) /\
             ~ In "/in/link/C.RDY" (map ReadyFile ms).
Proof.
  destruct (Scan tree_links "/in" deep_follow) as [ms|] eqn:E;
    [|vm_compute in E; discriminate].
  destruct (Scan_deep_markers tree_links "/in" deep_follow ms) as (cs & n & _ & _ & H);
    [vm_compute; reflexivity|vm_compute; reflexivity|reflexivity|exact E|].
  exists ms. split; [reflexivity|].
  vm_compute in E. inversion E; subst ms. split.
  - right. left. reflexivity.
  - intros [F|[F|[]]]; discriminate.
Defined.

Lemma render_inj rt a b :
  List.Forall (fun c => is_name c = true) a ->
  List.Forall (fun c => is_name c = true) b ->
  render rt a = render rt b -> a = b.
Proof.
  intros Ha Hb E.
  rewrite <- (clean_elems_render rt rt a Ha), <- (clean_elems_render rt rt b Hb), E.
  reflexivity.
Qed.

Lemma NoDup_flat_map_keys {A B} (key : A -> string) (f : A -> list B) l :
  List.NoDup (map key l) ->
  (forall x, In x l -> List.NoDup (f x)) ->
  (forall x y b, In x l -> In y l -> In b (f x) -> In b (f y) -> key x = key y) ->
  List.NoDup (flat_map f l).
Proof.
  induction l as [|a l IH]; simpl; intros Hnd Hf Hk; [constructor|].
  inversion Hnd as [|? ? Ha Hl]; subst.
  apply List.NoDup_app.
  - apply Hf. left. reflexivity.
  - apply IH; [exact Hl|intros; apply Hf; right; assumption|].
    intros x y b Hx Hy. apply Hk; right; assumption.
  - intros b Hb Hin. apply in_flat_map in Hin as (y & Hy & Hby).
    apply Ha. rewrite (Hk a y b); [apply in_map, Hy|left; reflexivity|right; exact Hy|exact Hb|exact Hby].
Qed.

Lemma found_NoDup rt n : forall cs name,
  wf n = true -> List.Forall (fun c => is_name c = true) cs ->
  List.NoDup (found (render rt cs) name n).
Proof.
  induction n as [m c|m r x children IH|m|m t _] using node_ind';
    intros cs name Hw Hcs; simpl;
    try (destruct (isReady name); repeat constructor; intros []).
  pose proof (wf_Dir _ _ _ _ Hw) as (Hnames & Hnd & Hwf).
  rewrite List.Forall_forall in IH, Hnames, Hwf.
  assert (Hsnoc : forall c, In c children ->
            List.Forall (fun c => is_name c = true) (cs ++ [fst c])).
  { intros c Hc. apply List.Forall_app. split; [exact Hcs|].
    constructor; [apply (Hnames _ Hc)|constructor]. }
  apply (NoDup_flat_map_keys fst); [exact Hnd| |].
  - intros c Hc. rewrite Join_render_name by (auto; apply (Hnames _ Hc)).
    apply IH; auto.
  - intros c1 c2 rdy H1 H2 Hin1 Hin2.
    rewrite Join_render_name in Hin1, Hin2 by (auto; apply (Hnames _ H1) || apply (Hnames _ H2)).
    apply found_sound in Hin1 as (a1 & _ & Ha1 & _ & _ & _ & E1); auto.
    apply found_sound in Hin2 as (a2 & _ & Ha2 & _ & _ & _ & E2); auto.
    rewrite E1 in E2. apply render_inj in E2.
    + rewrite <- !app_assoc in E2. apply app_inv_head in E2.
      simpl in E2. inversion E2. reflexivity.
    + apply List.Forall_app. split; auto.
    + apply List.Forall_app. split; auto.
Qed.

Lemma readyOf_NoDup root e : List.NoDup (readyOf root e).
Proof.
  unfold readyOf. destruct (de_IsDir e); [constructor|].
  destruct (isReady (de_Name e)); repeat constructor. intros [].
Qed.

(** No marker is reported twice: the [ReadyFile] paths of the matches of a
    scan are pairwise distinct. *)
Theorem Scan_markers_distinct fs root opts ms :
  wf fs = true -> Path.is_clean root = true ->
  Scan fs root opts = inl ms -> List.NoDup (map ReadyFile ms).
Proof.
  intros Hw Hclean Hscan.
  apply is_clean_render in Hclean as (cs & Hcs & Hr).
  apply Scan_ok_inv in Hscan as (info & rdyFiles & Hstat & _ & Hcol & ->).
  rewrite map_ReadyFile_matchOf.
  eapply Permutation_NoDup; [symmetry; apply sort_by_perm|].
  assert (Hloc : locate fs root = descend cs fs)
    by (rewrite Hr at 1; apply locate_render, Hcs).
  destruct (Recursive opts) eqn:Hrec.
  - destruct (os_Stat_locate _ _ _ Hstat) as [n Hn].
    pose proof (collect_recursive fs root opts n Hrec Hn) as Hc.
    destruct (unlistable true n);
      [destruct Hc as [p Hc]; rewrite Hc in Hcol; discriminate|].
    rewrite Hc in Hcol. inversion Hcol; subst rdyFiles.
    rewrite Hr at 1. apply found_NoDup; [|exact Hcs].
    eapply descend_wf; [exact Hw|]. rewrite <- Hloc. exact Hn.
  - unfold collect in Hcol. rewrite Hrec in Hcol.
    destruct (os_ReadDir fs root) as [entries|] eqn:Hrd; [|discriminate].
    inversion Hcol; subst rdyFiles. clear Hcol.
    unfold os_ReadDir in Hrd. rewrite Hloc in Hrd.
    destruct (descend cs fs) as [nd|] eqn:Hd; [|discriminate].
    destruct (follow nd) as [n'|] eqn:Hf; [|discriminate].
    apply listing_inv in Hrd as (mt & x & children & -> & ->).
    assert (Hwd : wf (Dir mt true x children) = true).
    { eapply follow_wf; [|exact Hf]. eapply descend_wf; [exact Hw|exact Hd]. }
    apply wf_Dir in Hwd as (Hnames & Hnd & _).
    rewrite List.Forall_forall in Hnames.
    rewrite readyIn_flat_map.
    apply (NoDup_flat_map_keys de_Name).
    + rewrite map_map. exact Hnd.
    + intros e _. apply readyOf_NoDup.
    + intros e1 e2 p H1 H2 Hp1 Hp2.
      apply in_map_iff in H1 as (c1 & <- & Hc1).
      apply in_map_iff in H2 as (c2 & <- & Hc2).
      unfold readyOf in Hp1, Hp2. simpl in *.
      destruct (is_dir (snd c1)); [contradiction|].
      destruct (is_dir (snd c2)); [contradiction|].
      destruct (isReady (fst c1)); [|contradiction].
      destruct (isReady (fst c2)); [|contradiction].
      destruct Hp1 as [<-|[]]. destruct Hp2 as [E|[]].
      rewrite Hr in E.
      rewrite !Join_render_name in E by (auto; apply (Hnames _ Hc1) || apply (Hnames _ Hc2)).
      apply render_inj in E.
      * apply app_inv_head in E. inversion E. reflexivity.
      * apply List.Forall_app. split; [exact Hcs|].
        constructor; [apply (Hnames _ Hc2)|constructor].
      * apply List.Forall_app. split; [exact Hcs|].
        constructor; [apply (Hnames _ Hc1)|constructor].
Qed.

Lemma Scan_markers_distinct_witness :
  exists ms, Scan tree_links "/in" deep = inl ms /\
             List.NoDup (map ReadyFile ms).
Proof.
  eexists. split; [vm_compute; reflexivity|].
  apply (Scan_markers_distinct tree_links "/in" deep); vm_compute; reflexivity.
Defined.

End DeepMore.

(* ===================================================================== *)
(** * More on the uploader *)
(* ===================================================================== *)

Section PrefixMore.
Import Strings Uploader.

Lemma makePrefixGetter_miss objectPrefix cache dir :
  cache !! dir = None ->
  makePrefixGetter objectPrefix cache dir
    = (<[dir := getPrefix objectPrefix dir]> cache, getPrefix objectPrefix dir).
Proof.
  intros H. unfold makePrefixGetter, getPrefix. rewrite H.
  destruct (negb (String.eqb objectPrefix "")); reflexivity.
Qed.

Lemma makePrefixGetter_calls objectPrefix dirs : forall cache,
  (forall d p, cache !! d = Some p -> p = getPrefix objectPrefix d) ->
  snd (calls (makePrefixGetter objectPrefix) cache dirs)
    = map (getPrefix objectPrefix) dirs /\
  forall d, fst (calls (makePrefixGetter objectPrefix) cache dirs) !! d =
            if decide (d ∈ dirs) then Some (getPrefix objectPrefix d)
            else cache !! d.
Proof.
  induction dirs as [|dir dirs IH]; intros cache Hc; simpl.
  - split; [reflexivity|]. intros d.
    destruct (decide (d ∈ [])) as [H|]; [|reflexivity].
    apply elem_of_nil in H. contradiction.
  - destruct (makePrefixGetter objectPrefix cache dir) as [c1 p] eqn:E1.
    assert (H1 : p = getPrefix objectPrefix dir /\
                 (forall d, c1 !! d = if decide (d = dir)
                                      then Some (getPrefix objectPrefix d)
                                      else cache !! d)).
    { destruct (cache !! dir) as [q|] eqn:Hq.
      - unfold makePrefixGetter in E1. rewrite Hq in E1. inversion E1; subst.
        split; [apply Hc, Hq|]. intros d.
        destruct (decide (d = dir)) as [->|]; [|reflexivity].
        rewrite Hq. f_equal. apply Hc, Hq.
      - rewrite makePrefixGetter_miss in E1 by exact Hq. inversion E1; subst.
        split; [reflexivity|]. intros d.
        destruct (decide (d = dir)) as [->|Hne];
          [apply lookup_insert_eq|apply lookup_insert_ne; congruence]. }
    destruct H1 as [-> H1].
    assert (Hc1 : forall d p, c1 !! d = Some p -> p = getPrefix objectPrefix d).
    { intros d q. rewrite H1. destruct (decide (d = dir)); [congruence|apply Hc]. }
    destruct (IH c1 Hc1) as [IH1 IH2].
    destruct (calls (makePrefixGetter objectPrefix) c1 dirs) as [c2 ps].
    simpl in *. split; [rewrite IH1; reflexivity|].
    intros d. rewrite IH2, H1.
    destruct (decide (d ∈ dirs)) as [Hin|Hnin];
      destruct (decide (d ∈ dir :: dirs)) as [Hin'|Hnin'];
      destruct (decide (d = dir)) as [->|Hne];
      try reflexivity; exfalso.
    + apply Hnin'. right. exact Hin.
    + apply Hnin'. right. exact Hin.
    + apply elem_of_cons in Hin' as [|]; contradiction.
    + apply Hnin'. left.
Qed.

(** The cache of the prefix getter is never seen: called for any
    directories in any order, with repeats, a closure made by
    [makePrefixGetter] answers each call with the prefix computed afresh,
    and ends up holding exactly the directories it was asked for. *)
Theorem makePrefixGetter_cache_unseen (objectPrefix : string) (dirs : list string) :
  let '(cache, ps) := calls (makePrefixGetter objectPrefix) ∅ dirs in
  ps = map (getPrefix objectPrefix) dirs /\
  forall d, cache !! d =
            if decide (d ∈ dirs) then Some (getPrefix objectPrefix d) else None.
Proof.
  destruct (makePrefixGetter_calls objectPrefix dirs ∅) as [H1 H2].
  - intros d p H. rewrite lookup_empty in H. discriminate.
  - destruct (calls (makePrefixGetter objectPrefix) ∅ dirs) as [cache ps].
    simpl in *. split; [exact H1|]. intros d. rewrite H2, lookup_empty.
    reflexivity.
Qed.

End PrefixMore.

Section UploadMore.
Import Strings Path FS Scanner Uploader.

Variable uploadObject : string -> string -> option error.
Variables (fs : node) (u : GCSUploader) (objectPrefix : string).
Variable entries : list FileEntry.

Lemma runTasks_inv {S E} (P : S -> Prop)
    (tasks : list (Workerpool.Task S E)) sched : forall st,
  (forall t, In t tasks -> forall st, P st -> P (fst (t st))) ->
  P st -> P (fst (Workerpool.runTasks tasks sched st)).
Proof.
  induction sched as [|i sched IH]; intros st Ht Hst; simpl; [exact Hst|].
  destruct (nth_error tasks i) as [t|] eqn:Hi; [|apply IH; assumption].
  pose proof (Ht t (nth_error_In _ _ Hi) st Hst) as H1.
  destruct (t st) as [st1 e1]. simpl in H1.
  pose proof (IH st1 Ht H1) as H2.
  destruct (Workerpool.runTasks tasks sched st1) as [st2 e2]. exact H2.
Qed.

Lemma taskFor_cases bucket fe :
  taskFor uploadObject fs u bucket objectPrefix fe =
    if eligibleb fs fe then
      match os_Lstat fs (Scanner.Path fe) with
      | Some fi =>
          [uploadTask uploadObject fs u bucket (Name fe) (Scanner.Path fe)
             (objectName objectPrefix fe) fi]
      | None => []
      end
    else [].
Proof.
  unfold taskFor, eligibleb, objectName.
  destruct (String.eqb (Scanner.Path fe) ""); simpl; [reflexivity|].
  destruct (os_Lstat fs (Scanner.Path fe)) as [fi|]; [|reflexivity].
  destruct (fi_Symlink fi || fi_IsDir fi || isReady (Name fe)); reflexivity.
Qed.

(** What holds before the first task and is kept by every task of an entry
    holds of what the call leaves. *)
Lemma UploadListedEntries_inv (P : effects -> Prop) numCPU sched :
  P {| uploads := []; meta := [] |} ->
  (forall fe fi st,
     In fe entries -> eligibleb fs fe = true ->
     os_Lstat fs (Scanner.Path fe) = Some fi -> P st ->
     P (fst (uploadTask uploadObject fs u (negb (hasHook u)) (Name fe)
               (Scanner.Path fe) (objectName objectPrefix fe) fi st))) ->
  let r := UploadListedEntries uploadObject fs u numCPU sched
             entries objectPrefix in
  exists st, P st /\ started r = uploads st /\
             forall d, files r = Some d -> d = meta st.
Proof.
  intros H0 Hstep. unfold UploadListedEntries.
  assert (Hinit : exists st, P st /\ [] = uploads st /\
            forall d, Some (@nil UploadedFile) = Some d -> d = meta st).
  { exists {| uploads := []; meta := [] |}. split; [exact H0|].
    split; [reflexivity|]. intros d E. inversion E. reflexivity. }
  assert (Hfail : exists st, P st /\ [] = uploads st /\
            forall d, @None (list UploadedFile) = Some d -> d = meta st).
  { exists {| uploads := []; meta := [] |}. split; [exact H0|].
    split; [reflexivity|]. discriminate. }
  destruct (String.eqb (Bucket u) ""); [exact Hfail|].
  destruct (negb (hasClient u) && negb (hasHook u)); [exact Hfail|].
  destruct (Z.of_nat (length entries) =? 0); [exact Hinit|].
  destruct (Z.of_nat (length (flat_map _ entries)) =? 0) eqn:Hlen; [exact Hinit|].
  unfold Workerpool.RunParallel. rewrite Hlen.
  assert (Hok : P (fst (Workerpool.runTasks
            (flat_map (taskFor uploadObject fs u (negb (hasHook u)) objectPrefix)
                      entries)
            sched {| uploads := []; meta := [] |}))).
  { apply runTasks_inv; [|exact H0].
    intros t Ht st Hst. apply in_flat_map in Ht as (fe & Hfe & Ht).
    rewrite taskFor_cases in Ht.
    destruct (eligibleb fs fe) eqn:He; [|contradiction].
    destruct (os_Lstat fs (Scanner.Path fe)) as [fi|] eqn:Hl; [|contradiction].
    destruct Ht as [<-|[]]. apply Hstep; assumption. }
  destruct (Workerpool.runTasks _ sched _) as [st e]. simpl in *.
  exists st. split; [exact Hok|].
  destruct e; simpl; (split; [reflexivity|]); [discriminate|].
  intros d E. inversion E. reflexivity.
Qed.

(** With the test hook set the call reports no file, whatever it uploads:
    when it succeeds the metadata returned is empty. *)
Theorem hook_uploads_report_no_file (numCPU : Z) (sched : list nat)
    (hook : string -> string -> option error) (delivered : list UploadedFile) :
  fileUploadHook u = Some hook ->
  files (UploadListedEntries uploadObject fs u numCPU sched
           entries objectPrefix) = Some delivered ->
  delivered = [].
Proof.
  intros Hh Hf.
  destruct (UploadListedEntries_inv (fun st => meta st = []) numCPU sched)
    as (st & Hst & _ & Hd).
  - reflexivity.
  - intros fe fi st _ _ _ Hst. unfold uploadTask.
    destruct (getChecksum fs (Scanner.Path fe)); [|exact Hst].
    rewrite Hh. exact Hst.
  - rewrite (Hd _ Hf). exact Hst.
Qed.

Lemma objectName_in_folder rt cs d fe :
  List.Forall (fun c => is_name c = true) cs -> is_name d = true ->
  is_name (Name fe) = true ->
  Scanner.Path fe = Path.Join (render rt (cs ++ [d])) (Name fe) ->
  objectName objectPrefix fe =
    (if String.eqb objectPrefix "" then d
     else TrimSuffix objectPrefix "/" +:+ "/" +:+ d) +:+ "/" +:+ Name fe.
Proof.
  intros Hcs Hd Hn Hp.
  assert (Hcd : List.Forall (fun c => is_name c = true) (cs ++ [d]))
    by (apply List.Forall_app; split; [exact Hcs|constructor; [exact Hd|constructor]]).
  unfold objectName, getPrefix.
  rewrite Hp, Join_render_name, Dir_render, Base_render by assumption.
  destruct (String.eqb objectPrefix ""); reflexivity.
Qed.

(** The files of a folder go under the folder's own name: when every entry
    handed over lies directly in the folder [.../d], each upload started
    sends the entry's path to the object [P/d/name], and each file reported
    has that object as its path, where [P] is the object prefix less one
    trailing slash; with an empty prefix the object is [d/name]. *)
Theorem uploads_named_after_folder (numCPU : Z) (sched : list nat)
    (rt : bool) (cs : list string) (d : string) :
  List.Forall (fun c => is_name c = true) cs -> is_name d = true ->
  (forall fe, In fe entries ->
     is_name (Name fe) = true /\
     Scanner.Path fe = Path.Join (render rt (cs ++ [d])) (Name fe)) ->
  let r := UploadListedEntries uploadObject fs u numCPU sched
             entries objectPrefix in
  let P := if String.eqb objectPrefix "" then d
           else TrimSuffix objectPrefix "/" +:+ "/" +:+ d in
  (forall up, In up (started r) ->
     exists fe, In fe entries /\
       up = (render rt (cs ++ [d; Name fe]), P +:+ "/" +:+ Name fe)) /\
  (forall delivered uf, files r = Some delivered -> In uf delivered ->
     uPath uf = P +:+ "/" +:+ uName uf /\
     exists fe, In fe entries /\ uName uf = Name fe /\
                In (Scanner.Path fe, uPath uf) (started r)).
Proof.
  intros Hcs Hd Hent r P.
  destruct (UploadListedEntries_inv
    (fun st =>
       List.Forall (fun up => exists fe, In fe entries /\
          up = (Scanner.Path fe, objectName objectPrefix fe)) (uploads st) /\
       List.Forall (fun uf => exists fe, In fe entries /\
          uName uf = Name fe /\ uPath uf = objectName objectPrefix fe /\
          In (Scanner.Path fe, uPath uf) (uploads st)) (meta st))
    numCPU sched) as (st & [Hu Hm] & Hs & Hf).
  - split; constructor.
  - intros fe fi st Hfe _ _ [Hu Hm]. unfold uploadTask.
    destruct (getChecksum fs (Scanner.Path fe)) as [sum|]; [|split; assumption].
    assert (Hup : List.Forall (fun up => exists fe, In fe entries /\
              up = (Scanner.Path fe, objectName objectPrefix fe))
              (uploads st ++ [(Scanner.Path fe, objectName objectPrefix fe)])).
    { apply List.Forall_app. split; [exact Hu|].
      constructor; [|constructor]. exists fe. split; [exact Hfe|reflexivity]. }
    assert (Hm' : List.Forall (fun uf => exists fe0, In fe0 entries /\
              uName uf = Name fe0 /\ uPath uf = objectName objectPrefix fe0 /\
              In (Scanner.Path fe0, uPath uf)
                 (uploads st ++ [(Scanner.Path fe, objectName objectPrefix fe)]))
              (meta st)).
    { eapply List.Forall_impl; [|exact Hm].
      intros uf (fe0 & H1 & H2 & H3 & H4). exists fe0.
      repeat split; try assumption. apply in_or_app. left. exact H4. }
    destruct (fileUploadHook u); [split; assumption|].
    destruct (negb (hasHook u)); simpl; [|split; assumption].
    destruct (uploadObject _ _); simpl; [split; assumption|].
    split; [exact Hup|]. apply List.Forall_app. split; [exact Hm'|].
    constructor; [|constructor]. exists fe. simpl.
    repeat split; try assumption. apply in_or_app. right. left. reflexivity.
  - fold r in Hs, Hf. rewrite List.Forall_forall in Hu, Hm. split.
    + intros up Hup. rewrite Hs in Hup.
      destruct (Hu _ Hup) as (fe & Hfe & ->). exists fe. split; [exact Hfe|].
      destruct (Hent _ Hfe) as [Hn Hp].
      rewrite (objectName_in_folder rt cs d fe) by assumption.
      rewrite Hp, Join_render_name; [|apply List.Forall_app; split;
        [exact Hcs|constructor; [exact Hd|constructor]]|exact Hn].
      rewrite <- app_assoc. reflexivity.
    + intros delivered uf Hfd Huf. rewrite (Hf _ Hfd) in Huf.
      destruct (Hm _ Huf) as (fe & Hfe & H1 & H2 & H3).
      destruct (Hent _ Hfe) as [Hn Hp]. split.
      * rewrite H2, H1. apply (objectName_in_folder rt cs d fe); assumption.
      * exists fe. rewrite Hs. repeat split; assumption.
Qed.

Lemma picked_all {A} (l : list A) : forall pre,
  flat_map (fun i => match nth_error (pre ++ l) i with
                     | Some a => [a] | None => [] end)
           (seq (length pre) (length l)) = l.
Proof.
  induction l as [|a l IH]; intros pre; simpl; [reflexivity|].
  rewrite nth_error_app2, Nat.sub_diag by lia. simpl. f_equal.
  specialize (IH (pre ++ [a])).
  rewrite <- app_assoc, length_app, Nat.add_1_r in IH. exact IH.
Qed.

Lemma tasks_nth bucket : forall l i t,
  nth_error (flat_map (taskFor uploadObject fs u bucket objectPrefix) l) i = Some t ->
  exists fe fi,
    nth_error (List.filter (eligibleb fs) l) i = Some fe /\
    os_Lstat fs (Scanner.Path fe) = Some fi /\
    t = uploadTask uploadObject fs u bucket (Name fe) (Scanner.Path fe)
          (objectName objectPrefix fe) fi.
Proof.
  induction l as [|fe l IH]; intros i t; simpl.
  - destruct i; discriminate.
  - rewrite taskFor_cases. destruct (eligibleb fs fe) eqn:He; [|apply IH].
    unfold eligibleb in He.
    destruct (os_Lstat fs (Scanner.Path fe)) as [fi|] eqn:Hl;
      [|rewrite andb_false_r in He; discriminate].
    destruct i as [|i]; simpl; [|apply IH].
    intros E. inversion E. exists fe, fi. repeat split. exact Hl.
Qed.

Lemma tasks_length bucket l :
  length (flat_map (taskFor uploadObject fs u bucket objectPrefix) l)
    = length (List.filter (eligibleb fs) l).
Proof.
  induction l as [|fe l IH]; simpl; [reflexivity|].
  rewrite length_app, taskFor_cases, IH.
  destruct (eligibleb fs fe) eqn:He; [|reflexivity].
  unfold eligibleb in He.
  destruct (os_Lstat fs (Scanner.Path fe)) as [fi|] eqn:Hl;
    [reflexivity|rewrite andb_false_r in He; discriminate].
Qed.

(** A run in which no task fails records, for every index of the schedule
    that names a task, one upload and one file. *)
Lemma runTasks_all_ok sched : forall st st',
  fileUploadHook u = None ->
  Workerpool.runTasks
    (flat_map (taskFor uploadObject fs u true objectPrefix) entries) sched st
    = (st', None) ->
  let picked :=
    flat_map (fun i => match nth_error (List.filter (eligibleb fs) entries) i with
                       | Some fe => [fe] | None => [] end) sched in
  uploads st' = uploads st ++
    map (fun fe => (Scanner.Path fe, objectName objectPrefix fe)) picked /\
  map (fun uf => (uName uf, uPath uf)) (meta st') =
    map (fun uf => (uName uf, uPath uf)) (meta st) ++
    map (fun fe => (Name fe, objectName objectPrefix fe)) picked.
Proof.
  induction sched as [|i sched IH]; intros st st' Hh; simpl.
  - intros E. inversion E. rewrite !app_nil_r. split; reflexivity.
  - destruct (nth_error (flat_map _ entries) i) as [t|] eqn:Hi.
    + destruct (tasks_nth _ _ _ _ Hi) as (fe & fi & Hfe & _ & ->).
      rewrite Hfe.
      destruct (uploadTask _ _ _ _ _ _ _ _ st) as [st1 e1] eqn:Ht.
      destruct (Workerpool.runTasks _ sched st1) as [st2 e2] eqn:Hr.
      intros E. inversion E; subst st2.
      destruct e1; [discriminate|]. subst e2.
      destruct (IH st1 st' Hh Hr) as [IH1 IH2].
      unfold uploadTask in Ht. rewrite Hh in Ht.
      destruct (getChecksum fs (Scanner.Path fe)); [|discriminate]. simpl in Ht.
      destruct (uploadObject _ _); [discriminate|].
      inversion Ht; subst st1. simpl in *.
      rewrite IH1, IH2, map_app, <- !app_assoc. split; reflexivity.
    + assert (Hn : nth_error (List.filter (eligibleb fs) entries) i = None).
      { apply nth_error_None. rewrite <- (tasks_length true).
        apply nth_error_None, Hi. }
      rewrite Hn. apply IH, Hh.
Qed.

(** Nothing eligible is left behind: without the test hook, when the call
    returns no error and the pool took every task once, there is one
    upload for each entry that names a plain file not named like a marker,
    and one file reported for it, under the entry's name and object name. *)
Theorem upload_delivers_every_plain_file (numCPU : Z) (sched : list nat) :
  fileUploadHook u = None ->
  Permutation sched (seq 0 (length (List.filter (eligibleb fs) entries))) ->
  let r := UploadListedEntries uploadObject fs u numCPU sched
             entries objectPrefix in
  err r = None ->
  exists delivered,
    files r = Some delivered /\
    Permutation (map (fun uf => (uName uf, uPath uf)) delivered)
      (map (fun fe => (Name fe, objectName objectPrefix fe))
           (List.filter (eligibleb fs) entries)) /\
    Permutation (started r)
      (map (fun fe => (Scanner.Path fe, objectName objectPrefix fe))
           (List.filter (eligibleb fs) entries)).
Proof.
  intros Hh Hp. unfold UploadListedEntries, hasHook. rewrite Hh. simpl negb.
  destruct (String.eqb (Bucket u) ""); [discriminate|].
  destruct (negb (hasClient u) && true); [discriminate|].
  destruct (Z.eqb_spec (Z.of_nat (length entries)) 0) as [He|_].
  { destruct entries; [|simpl in He; lia]. intros _. exists [].
    repeat split; constructor. }
  destruct (Z.eqb_spec (Z.of_nat (length (flat_map
      (taskFor uploadObject fs u true objectPrefix) entries))) 0) as [Ht|Ht].
  { rewrite tasks_length in Ht.
    destruct (List.filter (eligibleb fs) entries); [|simpl in Ht; lia].
    intros _. exists []. repeat split; constructor. }
  unfold Workerpool.RunParallel.
  destruct (Z.eqb_spec (Z.of_nat (length (flat_map
      (taskFor uploadObject fs u true objectPrefix) entries))) 0) as [|_];
    [contradiction|].
  destruct (Workerpool.runTasks _ sched _) as [st e] eqn:Hr. simpl.
  destruct e; simpl; [discriminate|]. intros _.
  destruct (runTasks_all_ok sched _ _ Hh Hr) as [H1 H2]. simpl in H1, H2.
  assert (Hpick : Permutation
            (flat_map (fun i => match nth_error (List.filter (eligibleb fs) entries) i with
                                | Some fe => [fe] | None => [] end) sched)
            (List.filter (eligibleb fs) entries)).
  { etransitivity; [apply flat_map_perm, Hp|].
    pose proof (picked_all (List.filter (eligibleb fs) entries) []) as Ha.
    simpl in Ha. rewrite Ha. reflexivity. }
  exists (meta st). split; [reflexivity|]. split.
  - rewrite H2. apply Permutation_map, Hpick.
  - rewrite H1. apply Permutation_map, Hpick.
Qed.

End UploadMore.

Lemma upload_delivers_every_plain_file_witness :
  let r := Uploader.UploadListedEntries (fun _ _ => None)
             tree_upload uploader_real 4 [0%nat] entries_upload "" in
  exists delivered,
    Uploader.files r = Some delivered /\
    Permutation
      (map (fun uf => (Uploader.uName uf, Uploader.uPath uf)) delivered)
      [("a.txt", "ORDER100/a.txt")].
Proof.
  destruct (upload_delivers_every_plain_file (fun _ _ => None) tree_upload
              uploader_real "" entries_upload 4 [0%nat])
    as (delivered & Hf & Hd & _).
  - reflexivity.
  - vm_compute. constructor. constructor.
  - vm_compute. reflexivity.
  - exists delivered. split; [exact Hf|]. exact Hd.
Defined.

Lemma uploads_named_after_folder_witness :
  let r := Uploader.UploadListedEntries (fun _ _ => None)
             tree_upload uploader_real 4 [0%nat] entries_upload "pref/" in
  (forall up, In up (Uploader.started r) ->
     exists fe, In fe entries_upload /\
       up = (Path.render true (["in"] ++ ["ORDER100"; Scanner.Name fe]),
             "pref/ORDER100" +:+ "/" +:+ Scanner.Name fe)) /\
  Uploader.started r = [("/in/ORDER100/a.txt", "pref/ORDER100/a.txt")].
Proof.
  split; [|vm_compute; reflexivity].
  refine (proj1 (uploads_named_after_folder (fun _ _ => None) tree_upload
            uploader_real "pref/" entries_upload 4 [0%nat] true ["in"]
            "ORDER100" _ _ _)).
  - repeat constructor.
  - reflexivity.
  - intros fe Hfe. vm_compute in Hfe.
    destruct Hfe as [<-|[<-|[<-|[<-|[]]]]]; split; vm_compute; reflexivity.
Defined.

Lemma hook_uploads_report_no_file_witness :
  let r := Uploader.UploadListedEntries (fun _ _ => None)
             tree_upload uploader_hook 4 [0%nat] entries_upload "" in
  Uploader.started r = [("/in/ORDER100/a.txt", "ORDER100/a.txt")] /\
  Uploader.files r = Some [].
Proof.
  split; [vm_compute; reflexivity|].
  assert (H : exists d, Uploader.files (Uploader.UploadListedEntries (fun _ _ => None)
             tree_upload uploader_hook 4 [0%nat] entries_upload "") = Some d)
    by (eexists; vm_compute; reflexivity).
  destruct H as [d Hd]. cbv zeta. rewrite Hd. f_equal.
  apply (hook_uploads_report_no_file (fun _ _ => None) tree_upload uploader_hook
           "" entries_upload 4 [0%nat] (fun _ _ => None) d);
    [reflexivity|exact Hd].
Defined.

(* ===================================================================== *)
(** * Checksums and document ids *)
(* ===================================================================== *)

Section FormatMore.
Import Sha256.

Lemma round_length v kw : length (round v kw) = length v.
Proof.
  destruct v as [|a [|b [|c [|d [|e [|f [|g [|h [|i v]]]]]]]]]; reflexivity.
Qed.

Lemma fold_round_length l : forall v, length (fold_left round l v) = length v.
Proof.
  induction l as [|kw l IH]; intros v; simpl; [reflexivity|].
  rewrite IH. apply round_length.
Qed.

Lemma compress_length h block : length (compress h block) = length h.
Proof.
  unfold compress. rewrite length_map, length_combine, fold_round_length.
  apply Nat.min_id.
Qed.

Lemma digest_length msg : length (digest msg) = 8%nat.
Proof.
  unfold digest. generalize (blocks (length (words (pad msg))) (words (pad msg))).
  intros bs. change 8%nat with (length H0). generalize H0.
  induction bs as [|b bs IH]; intros h; simpl; [reflexivity|].
  rewrite IH. apply compress_length.
Qed.

Lemma string_of_list_length l :
  String.length (string_of_list_ascii l) = length l.
Proof. induction l as [|a l IH]; simpl; [reflexivity|]. rewrite IH. reflexivity. Qed.

Lemma all_chars_of_list p l :
  List.Forall (fun a => p a = true) l ->
  all_chars p (string_of_list_ascii l) = true.
Proof.
  induction 1 as [|a l Ha _ IH]; simpl; [reflexivity|]. rewrite Ha, IH. reflexivity.
Qed.

Lemma all_chars_app p a b :
  all_chars p (a +:+ b) = all_chars p a && all_chars p b.
Proof.
  induction a as [|c a IH]; simpl; [reflexivity|].
  rewrite IH, andb_assoc. reflexivity.
Qed.

Lemma append_empty_r (s : string) : s +:+ "" = s.
Proof.
  induction s as [|c s IH]; [reflexivity|].
  change (String c (s +:+ "") = String c s). rewrite IH. reflexivity.
Qed.

Lemma concat_empty_cons x xs :
  String.concat "" (x :: xs) = x +:+ String.concat "" xs.
Proof.
  destruct xs as [|y xs]; simpl; [symmetry; apply append_empty_r|reflexivity].
Qed.

Lemma concat_empty_length n l :
  List.Forall (fun s => String.length s = n) l ->
  String.length (String.concat "" l) = (n * length l)%nat.
Proof.
  induction 1 as [|s l Hs _ IH]; [simpl; lia|].
  rewrite concat_empty_cons, string_length_app, Hs, IH. simpl length. lia.
Qed.

Lemma concat_empty_chars p l :
  List.Forall (fun s => all_chars p s = true) l ->
  all_chars p (String.concat "" l) = true.
Proof.
  induction 1 as [|s l Hs _ IH]; [reflexivity|].
  rewrite concat_empty_cons, all_chars_app, Hs, IH. reflexivity.
Qed.

Lemma hex_digit_is_hex d : 0 <= d < 16 -> is_hex (hex_digit d) = true.
Proof.
  intros H.
  assert (Hd : d = 0 \/ d = 1 \/ d = 2 \/ d = 3 \/ d = 4 \/ d = 5 \/ d = 6 \/
               d = 7 \/ d = 8 \/ d = 9 \/ d = 10 \/ d = 11 \/ d = 12 \/
               d = 13 \/ d = 14 \/ d = 15) by lia.
  repeat (destruct Hd as [->|Hd]; [reflexivity|]). subst d. reflexivity.
Qed.

Lemma hex32_format x :
  String.length (hex32 x) = 8%nat /\ all_chars is_hex (hex32 x) = true.
Proof.
  unfold hex32. split.
  - rewrite string_of_list_length, length_map, length_rev, length_seq. reflexivity.
  - apply all_chars_of_list, List.Forall_forall. intros a Ha.
    apply in_map_iff in Ha as (i & <- & _). apply hex_digit_is_hex.
    change 0xf with (Z.ones 4). rewrite Z.land_ones by lia.
    apply Z.mod_pos_bound. reflexivity.
Qed.

Lemma sum_hex_format content :
  String.length (sum_hex content) = 64%nat /\
  all_chars is_hex (sum_hex content) = true.
Proof.
  unfold sum_hex. split.
  - rewrite (concat_empty_length 8), length_map, digest_length; [reflexivity|].
    apply List.Forall_forall. intros s Hs. apply in_map_iff in Hs as (x & <- & _).
    apply hex32_format.
  - apply concat_empty_chars, List.Forall_forall. intros s Hs.
    apply in_map_iff in Hs as (x & <- & _). apply hex32_format.
Qed.

(** The checksum of a file that can be read is always 64 hexadecimal
    digits in lower case, and a file that cannot be opened has none: the
    error names its path. *)
Theorem getChecksum_format (fs : FS.node) (path : string) :
  match Uploader.getChecksum fs path with
  | inl sum =>
      FS.read_file fs path <> None /\
      String.length sum = 64%nat /\ all_chars is_hex sum = true
  | inr e => FS.read_file fs path = None /\ e = Uploader.ErrChecksumOpen path
  end.
Proof.
  unfold Uploader.getChecksum.
  destruct (FS.read_file fs path) as [bytes|]; [|split; reflexivity].
  split; [discriminate|]. apply sum_hex_format.
Qed.

End FormatMore.

Section FirestoreMore.
Import Firestore.

Lemma enc_safe v : is_url_safe (enc v) = true.
Proof.
  unfold enc.
  assert (H : forallb is_url_safe encodeURL = true) by reflexivity.
  rewrite forallb_forall in H.
  destruct (nth_in_or_default (Z.to_nat v) encodeURL "A"%char) as [Hin| ->];
    [apply H, Hin|reflexivity].
Qed.

Lemma Sum256_length data : length (Sum256 data) = 32%nat.
Proof.
  unfold Sum256. pose proof (digest_length data) as H.
  destruct (Sha256.digest data) as [|a [|b [|c [|d [|e [|f [|g [|h [|i l]]]]]]]]];
    try discriminate H.
  reflexivity.
Qed.

Lemma RawURLEncoding_15 src :
  length src = 15%nat ->
  length (RawURLEncoding src) = 20%nat /\
  List.Forall (fun a => is_url_safe a = true) (RawURLEncoding src).
Proof.
  intros H.
  do 15 (destruct src as [|? src]; [discriminate H|]).
  destruct src; [|discriminate H].
  split; [reflexivity|]. simpl. repeat constructor; apply enc_safe.
Qed.

Lemma hashPath_length path : String.length (hashPath path) = 20%nat.
Proof.
  unfold hashPath. rewrite string_of_list_length.
  apply RawURLEncoding_15. rewrite length_firstn, Sum256_length. reflexivity.
Qed.

Lemma hashPath_safe path : all_chars is_url_safe (hashPath path) = true.
Proof.
  unfold hashPath. apply all_chars_of_list, RawURLEncoding_15.
  rewrite length_firstn, Sum256_length. reflexivity.
Qed.

Lemma hashPath_a_b : hashPath "a/b" = "wUzdwDP2S53qgOpnXPKA".
Proof. vm_compute. reflexivity. Qed.

(** The document a folder record is written to: [WriteFolderRecord] makes
    no write when the collection is empty or when there is neither client
    nor hook, and returns an error then; otherwise it makes one write, of
    the record itself, into the collection given, under the id
    [hashPath(rec.FolderPath)], which is 20 characters long and made of
    letters, digits, hyphens and underscores only; the error returned is
    the answer to that write. *)
Theorem WriteFolderRecord_document_id
    (docSet : string -> string -> FolderRecord -> option error)
    (f : Firestore) (collection : string) (rec : FolderRecord) :
  let '(e, writes) := WriteFolderRecord docSet f collection rec in
  let id := hashPath (FolderPath rec) in
  String.length id = 20%nat /\ all_chars is_url_safe id = true /\
  if String.eqb collection "" then e = Some ErrCollectionRequired /\ writes = []
  else match writeHook f with
       | Some hook => e = hook collection id rec /\ writes = [(collection, id, rec)]
       | None =>
           if hasClient f
           then e = docSet collection id rec /\ writes = [(collection, id, rec)]
           else e = Some ErrClientNotInitialized /\ writes = []
       end.
Proof.
  unfold WriteFolderRecord.
  destruct (String.eqb collection "");
    [split; [apply hashPath_length|split; [apply hashPath_safe|split; reflexivity]]|].
  destruct (writeHook f) as [hook|], (hasClient f); simpl;
    (split; [apply hashPath_length|split; [apply hashPath_safe|split; reflexivity]]).
Qed.

End FirestoreMore.

(* ===================================================================== *)
(** * The worker pool, goroutine by goroutine *)
(* ===================================================================== *)

Section PoolMore.
Import PoolRun.
Context {S E : Type}.
Variable tasks : list (Workerpool.Task S E).

Lemma worker_at (l : list (worker_pc E)) k w :
  l !! k = Some w ->
  exists pre post, l = pre ++ w :: post /\
                   forall w', <[k := w']> l = pre ++ w' :: post.
Proof.
  revert k. induction l as [|a l IH]; intros [|k] H; try discriminate.
  - inversion H; subst. exists [], l. split; reflexivity.
  - destruct (IH k H) as (pre & post & -> & Hi).
    exists (a :: pre), post. split; [reflexivity|].
    intros w'. simpl. rewrite Hi. reflexivity.
Qed.

Lemma inflight_at pre (w : worker_pc E) post :
  Permutation (inflight (pre ++ w :: post))
              (job_of w ++ inflight (pre ++ post)).
Proof.
  unfold inflight. rewrite !flat_map_app. simpl.
  rewrite !app_assoc. apply Permutation_app_tail, Permutation_app_comm.
Qed.

Lemma all_exit_at pre (w : worker_pc E) post :
  forallb is_exit (pre ++ w :: post) = true -> w = WExit.
Proof.
  rewrite forallb_app. simpl. rewrite !andb_true_iff.
  intros (_ & Hw & _). destruct w; try discriminate. reflexivity.
Qed.

Lemma all_exit_inflight (l : list (worker_pc E)) : forallb is_exit l = true -> inflight l = [].
Proof.
  induction l as [|w l IH]; simpl; [reflexivity|].
  rewrite andb_true_iff. intros [Hw Hl]. destruct w; try discriminate.
  simpl. apply IH, Hl.
Qed.

Lemma exit_at pre (w w' : worker_pc E) post :
  w' <> WExit -> In WExit (pre ++ w' :: post) -> In WExit (pre ++ w :: post).
Proof.
  intros Hw. rewrite !in_app_iff. simpl.
  intros [H|[H|H]]; [left; exact H|contradiction|right; right; exact H].
Qed.

Lemma pending_at pre (w : worker_pc E) post :
  Permutation (pending (pre ++ w :: post))
              (error_of w ++ pending (pre ++ post)).
Proof.
  unfold pending. rewrite !flat_map_app. simpl.
  rewrite !app_assoc. apply Permutation_app_tail, Permutation_app_comm.
Qed.

Lemma exited_at pre (w : worker_pc E) post :
  exited (pre ++ w :: post) =
    ((if is_exit w then 1 else 0) + exited (pre ++ post))%nat.
Proof.
  unfold exited. rewrite !List.filter_app, !length_app. simpl.
  destruct (is_exit w); simpl; lia.
Qed.

Lemma exited_le (l : list (worker_pc E)) : (exited l <= length l)%nat.
Proof.
  unfold exited. induction l as [|w l IH]; simpl; [lia|].
  destruct (is_exit w); simpl; lia.
Qed.


Lemma run_errors_snoc sched j : forall st,
  run_errors tasks (sched ++ [j]) st =
    run_errors tasks sched st ++
    match nth_error tasks j with
    | None => []
    | Some t =>
        match snd (t (fst (Workerpool.runTasks tasks sched st))) with
        | Some e => [e]
        | None => []
        end
    end.
Proof.
  induction sched as [|i sched IH]; intros st; simpl.
  - destruct (nth_error tasks j) as [t|]; [|reflexivity].
    destruct (t st) as [s2 [e|]]; reflexivity.
  - destruct (nth_error tasks i) as [t|]; [|apply IH].
    destruct (t st) as [s1 e1]. rewrite IH.
    destruct (Workerpool.runTasks tasks sched s1) as [s2 e2]. simpl.
    destruct e1; reflexivity.
Qed.

Lemma runTasks_snoc sched j : forall st,
  Workerpool.runTasks tasks (sched ++ [j]) st =
    let '(s1, e1) := Workerpool.runTasks tasks sched st in
    match nth_error tasks j with
    | None => (s1, e1)
    | Some t =>
        let '(s2, e2) := t s1 in
        (s2, match e1 with Some e => Some e | None => e2 end)
    end.
Proof.
  induction sched as [|i sched IH]; intros st; simpl.
  - destruct (nth_error tasks j) as [t|]; [|reflexivity].
    destruct (t st) as [s2 e2]. destruct e2; reflexivity.
  - destruct (nth_error tasks i) as [t|]; [|apply IH].
    destruct (t st) as [s1 e1]. rewrite IH.
    destruct (Workerpool.runTasks tasks sched s1) as [s2 e2].
    destruct (nth_error tasks j) as [t'|]; [|reflexivity].
    destruct (t' s2) as [s3 e3]. destruct e1, e2; reflexivity.
Qed.

Lemma perm_snoc_mid (a b c : list nat) x :
  Permutation ((a ++ b ++ c) ++ [x]) (a ++ (x :: b) ++ c).
Proof.
  rewrite <- app_assoc. apply Permutation_app_head.
  symmetry. apply Permutation_cons_append.
Qed.

Lemma length_at {A} (pre post : list A) a b :
  length (pre ++ a :: post) = length (pre ++ b :: post).
Proof. rewrite !length_app. reflexivity. Qed.

Ltac inv_easy :=
  simpl; try solve [auto | discriminate | congruence | lia
                   | intros; discriminate | intros; congruence
                   | apply length_at
                   | rewrite ?pending_at; simpl; assumption
                   | rewrite ?exited_at; simpl; lia].

Ltac not_done Hdone :=
  let e := fresh "e" in let He := fresh "He" in let Hall := fresh "Hall" in
  intros e He; exfalso;
  destruct (Hdone e He) as (_ & Hall & _);
  apply all_exit_at in Hall; discriminate Hall.

Lemma inv_step st0 l (s s' : PoolRun.state S E) :
  inv tasks st0 s -> step tasks l s = Some s' -> inv tasks st0 s'.
Proof.
  intros [Hcap Hsent Hsend (dropped & Hperm & Hdrop) Hwait Hcalled Hpushed
          Hdone Hstore Herr Hroom Hexit].
  destruct s as [m i w p c ec cp st rn].
  unfold step, with_main, with_worker, ctxErr, jobs_closed in *. simpl in *.
  destruct l as [|k|k|].
  - destruct m; try discriminate.
    + destruct ((i <? length tasks)%nat && negb (p || c)) eqn:Hc;
        intros Hs; inversion Hs; subst; clear Hs.
      * apply andb_true_iff in Hc as [Hlt Hctx].
        apply Nat.ltb_lt in Hlt. apply negb_true_iff in Hctx.
        constructor; unfold ctxErr, jobs_closed; inv_easy.
        -- exists dropped. auto.
        -- intros Hc. destruct (Hcalled Hc) as [|[e He]]; [auto|discriminate].
      * constructor; unfold ctxErr, jobs_closed; inv_easy.
        -- exists dropped. auto.
        -- intros _ Hctx. rewrite Hctx in Hc. simpl in Hc.
           rewrite andb_true_r in Hc. apply Nat.ltb_ge in Hc. lia.
        -- intros Hc'. destruct (Hcalled Hc') as [|[e He]]; [auto|discriminate].
    + destruct (forallb is_exit w) eqn:Hall; [|discriminate].
      intros Hs; inversion Hs; subst; clear Hs.
      constructor; unfold ctxErr, jobs_closed; inv_easy.
      * exists dropped. split; [exact Hperm|]. rewrite orb_true_r. discriminate.
      * intros _. right. eauto.
      * intros e He. inversion He; subst. split; [reflexivity|].
        split; [exact Hall|]. intros -> Hn.
        assert (Hec : ec = []) by (destruct ec; [reflexivity|discriminate]).
        assert (Hc : c = false).
        { destruct c; [|reflexivity].
          destruct (Hcalled eq_refl) as [|[e He']]; [contradiction|discriminate]. }
        subst c. rewrite (Hdrop eq_refl), (all_exit_inflight _ Hall), !app_nil_r in Hperm.
        rewrite <- (Hwait eq_refl eq_refl). symmetry. exact Hperm.
  - destruct m; try discriminate.
    destruct (w !! k) as [[| | | |]|] eqn:Hk; try discriminate.
    intros Hs; inversion Hs; subst; clear Hs.
    destruct (worker_at _ _ _ Hk) as (pre & post & -> & Hi). rewrite Hi.
    rewrite inflight_at in Hperm. rewrite pending_at in Herr.
    rewrite exited_at in Hroom. simpl in Hperm, Herr, Hroom.
    constructor; unfold ctxErr, jobs_closed; inv_easy.
    + specialize (Hsend eq_refl). lia.
    + exists dropped. split; [|exact Hdrop].
      change (0%nat :: seq 1 i) with (seq 0 (Datatypes.S i)).
      rewrite seq_S, inflight_at, Hperm. simpl. apply perm_snoc_mid.
    + intros Hc. destruct (Hcalled Hc) as [|[e He]]; [auto|discriminate].
    + intros Hw. apply (exit_at _ WRecv) in Hw; [|discriminate].
      destruct (Hexit Hw) as [|]; [discriminate|auto].
  - destruct (w !! k) as [[|j|j|err|]|] eqn:Hk; try discriminate;
      destruct (worker_at _ _ _ Hk) as (pre & post & -> & Hi); rewrite ?Hi;
      rewrite inflight_at in Hperm; rewrite pending_at in Herr;
      rewrite exited_at in Hroom; simpl in Hperm, Herr, Hroom.
    + destruct m; try discriminate; intros Hs; inversion Hs; subst; clear Hs;
        (constructor; unfold ctxErr, jobs_closed; inv_easy);
        try (exists dropped; split; [|exact Hdrop];
             rewrite inflight_at; exact Hperm).
      not_done Hdone.
    + destruct (p || c) eqn:Hctx; intros Hs; inversion Hs; subst; clear Hs;
        (constructor; unfold ctxErr, jobs_closed; inv_easy);
        try not_done Hdone.
      * exists (j :: dropped). split; [|rewrite Hctx; discriminate].
        rewrite inflight_at, Hperm. simpl.
        apply Permutation_app_head, Permutation_middle.
      * exists dropped. split; [|rewrite Hctx; exact Hdrop].
        rewrite inflight_at. exact Hperm.
      * intros Hw. apply (exit_at _ (WGot j)) in Hw; [|discriminate].
        destruct (Hexit Hw) as [H|H]; [left; exact H|discriminate].
    + destruct (nth_error tasks j) as [t|] eqn:Ht; [|discriminate].
      destruct (t st) as [st' e] eqn:Hts.
      assert (Hne : match e with Some err => WFail err | None => WRecv end
                    <> @WExit E) by (destruct e; discriminate).
      assert (Hst : fst (Workerpool.runTasks tasks (rn ++ [j]) st0) = st').
      { rewrite runTasks_snoc, Ht.
        destruct (Workerpool.runTasks tasks rn st0) as [s1 e1].
        simpl in Hstore. subst s1. rewrite Hts. reflexivity. }
      assert (Hers : Permutation
                (ec ++ pending (pre ++ match e with
                                       | Some err => WFail err
                                       | None => WRecv
                                       end :: post))
                (run_errors tasks (rn ++ [j]) st0)).
      { rewrite run_errors_snoc, Ht, Hstore, Hts, pending_at. simpl.
        rewrite <- Herr. destruct e as [err|]; simpl.
        - rewrite <- Permutation_middle. apply Permutation_cons_append.
        - rewrite app_nil_r. reflexivity. }
      intros Hs; inversion Hs; subst; clear Hs. rewrite Hi.
      constructor; unfold ctxErr, jobs_closed; inv_easy;
        try not_done Hdone.
      * exists dropped. split; [|exact Hdrop].
        rewrite inflight_at, Hperm, <- app_assoc.
        destruct e; reflexivity.
      * intros Hw. apply (exit_at _ (WRun j)) in Hw; [|exact Hne].
        exact (Hexit Hw).
    + destruct (length ec <? cp)%nat eqn:Hlen.
      2:{ exfalso. apply Nat.ltb_ge in Hlen.
          pose proof (exited_le (pre ++ post)) as Hle.
          rewrite length_app in Hcap, Hle. simpl in Hcap. lia. }
      intros Hs; inversion Hs; subst; clear Hs.
      constructor; unfold ctxErr, jobs_closed; inv_easy;
        try not_done Hdone.
      * exists dropped. split; [|rewrite orb_true_r; discriminate].
        rewrite inflight_at. exact Hperm.
      * intros _. left. destruct ec; discriminate.
      * rewrite pending_at. simpl. rewrite <- Herr, <- app_assoc. reflexivity.
      * rewrite length_app, exited_at. simpl. lia.
  - destruct p; [discriminate|].
    intros Hs; inversion Hs; subst; clear Hs.
    constructor; unfold ctxErr, jobs_closed; inv_easy.
    + exists dropped. split; [exact Hperm|]. discriminate.
    + intros e He. destruct (Hdone e He) as (H1 & H2 & _).
      split; [exact H1|]. split; [exact H2|]. discriminate.
Qed.
Lemma exec_inv st0 tr : forall s s' : PoolRun.state S E,
  inv tasks st0 s -> exec tasks tr s = Some s' -> inv tasks st0 s'.
Proof.
  induction tr as [|l tr IH]; simpl; intros s s' Hi He.
  - inversion He; subst. exact Hi.
  - destruct (step tasks l s) as [s1|] eqn:Hs; [|discriminate].
    apply (IH s1); [eapply inv_step; eassumption|exact He].
Qed.

Lemma exec_app tr1 tr2 (s : PoolRun.state S E) :
  exec tasks (tr1 ++ tr2) s =
    match exec tasks tr1 s with
    | Some s1 => exec tasks tr2 s1
    | None => None
    end.
Proof.
  revert s. induction tr1 as [|l tr1 IH]; intros s; simpl; [reflexivity|].
  destruct (step tasks l s); [apply IH|reflexivity].
Qed.

Lemma workers_bounds numCPU concurrency n :
  0 < n -> 1 <= Workerpool.workers numCPU concurrency n <= n.
Proof.
  intros Hn. unfold Workerpool.workers.
  destruct (Z.leb_spec concurrency 0);
    [destruct (Z.gtb_spec (Z.max (Z.min numCPU 8) 2) n)
    |destruct (Z.gtb_spec concurrency n)]; lia.
Qed.

Lemma inflight_repeat n : inflight (repeat (@WRecv E) n) = [].
Proof. induction n as [|n IH]; [reflexivity|exact IH]. Qed.

Lemma pending_repeat n : pending (repeat (@WRecv E) n) = [].
Proof. induction n as [|n IH]; [reflexivity|exact IH]. Qed.

Lemma inv_start numCPU concurrency pd st :
  inv tasks st (start tasks numCPU concurrency pd st).
Proof.
  unfold start. destruct (Nat.eqb_spec (length tasks) 0) as [H0|H0].
  - constructor; unfold ctxErr, jobs_closed; simpl; try solve [auto|lia|discriminate|intros []].
    + exists []. split; [reflexivity|auto].
    + intros e He. inversion He; subst. rewrite H0. repeat split. reflexivity.
  - set (n := Z.to_nat _).
    assert (Hex : ~ In WExit (repeat (@WRecv E) n)).
    { intros H. apply repeat_spec in H. discriminate. }
    constructor; unfold ctxErr, jobs_closed; simpl;
      try solve [auto|lia|discriminate|intros; discriminate|contradiction].
    + apply repeat_length.
    + exists []. split; [|auto].
      rewrite inflight_repeat. reflexivity.
    + rewrite pending_repeat. reflexivity.
Qed.

Lemma step_cap l (s s' : PoolRun.state S E) :
  step tasks l s = Some s' -> cap s' = cap s.
Proof.
  destruct s as [m i w p c ec cp st rn].
  unfold step, with_main, with_worker. simpl.
  destruct l as [|k|k|].
  - destruct m; try discriminate.
    + destruct (_ && _); intros H; inversion H; reflexivity.
    + destruct (forallb is_exit w); intros H; inversion H; reflexivity.
  - destruct m; try discriminate.
    destruct (w !! k) as [[| | | |]|]; try discriminate.
    intros H; inversion H; reflexivity.
  - destruct (w !! k) as [[|j|j|err|]|]; try discriminate.
    + destruct (jobs_closed _); intros H; inversion H; reflexivity.
    + destruct (ctxErr _); intros H; inversion H; reflexivity.
    + destruct (nth_error tasks j) as [t|]; [|discriminate].
      destruct (t st) as [st' e]. intros H; inversion H; reflexivity.
    + destruct (_ <? _)%nat; intros H; inversion H; reflexivity.
  - destruct p; [discriminate|]. intros H; inversion H; reflexivity.
Qed.

Lemma exec_cap tr : forall s s' : PoolRun.state S E,
  exec tasks tr s = Some s' -> cap s' = cap s.
Proof.
  induction tr as [|l tr IH]; simpl; intros s s' He.
  - inversion He; reflexivity.
  - destruct (step tasks l s) as [s1|] eqn:Hs; [|discriminate].
    rewrite (IH _ _ He). apply (step_cap _ _ _ Hs).
Qed.

Lemma start_cap numCPU concurrency pd st :
  Z.of_nat (cap (start tasks numCPU concurrency pd st)) =
    if (Z.of_nat (length tasks) =? 0) then 0
    else Workerpool.workers numCPU concurrency (Z.of_nat (length tasks)).
Proof.
  unfold start. destruct (Nat.eqb_spec (length tasks) 0) as [H0|H0].
  - rewrite H0. reflexivity.
  - destruct (Z.eqb_spec (Z.of_nat (length tasks)) 0) as [|_]; [lia|].
    simpl. pose proof (workers_bounds numCPU concurrency (Z.of_nat (length tasks))).
    lia.
Qed.

Lemma run_errors_none sched : forall st,
  run_errors tasks sched st = [] <->
  snd (Workerpool.runTasks tasks sched st) = None.
Proof.
  induction sched as [|i sched IH]; intros st; simpl; [tauto|].
  destruct (nth_error tasks i) as [t|]; [|apply IH].
  destruct (t st) as [s1 e1]. specialize (IH s1).
  destruct (Workerpool.runTasks tasks sched s1) as [s2 e2]. simpl in *.
  destruct e1; [split; discriminate|exact IH].
Qed.


Lemma some_worker (l : list (worker_pc E)) :
  forallb is_exit l = false -> exists k w, l !! k = Some w /\ w <> WExit.
Proof.
  induction l as [|a l IH]; simpl; [discriminate|].
  destruct (is_exit a) eqn:Ha; simpl.
  - intros H. destruct (IH H) as (k & w & Hk & Hw).
    exists (Datatypes.S k), w. split; assumption.
  - intros _. exists 0%nat, a. split; [reflexivity|].
    intros ->. discriminate.
Qed.

Lemma all_exit_lookup (l : list (worker_pc E)) k w :
  forallb is_exit l = true -> l !! k = Some w -> w = WExit.
Proof.
  intros Hall Hk. destruct (worker_at _ _ _ Hk) as (pre & post & -> & _).
  apply all_exit_at in Hall. exact Hall.
Qed.

Lemma worker_moves st0 (s : PoolRun.state S E) k w :
  inv tasks st0 s -> ws s !! k = Some w -> w <> WExit ->
  main s = MSend \/ main s = MWait ->
  exists l s', l <> LCancel /\ step tasks l s = Some s'.
Proof.
  intros [_ Hsent _ (dropped & Hperm & _) _ _ _ _ _ _ _ _] Hk Hw Hm.
  destruct w as [|j|j|err|]; [| | | |contradiction].
  - destruct Hm as [Hm|Hm].
    + exists (LHand k). unfold step. rewrite Hm, Hk. eexists. split; [discriminate|reflexivity].
    + exists (LWorker k). unfold step, jobs_closed. rewrite Hm, Hk.
      eexists. split; [discriminate|reflexivity].
  - exists (LWorker k). unfold step. rewrite Hk.
    destruct (ctxErr s); eexists; (split; [discriminate|reflexivity]).
  - assert (Hj : (j < length tasks)%nat).
    { destruct (worker_at _ _ _ Hk) as (pre & post & Hws & _).
      rewrite Hws, inflight_at in Hperm. simpl in Hperm.
      assert (Hin : In j (seq 0 (sent s))).
      { eapply Permutation_in; [symmetry; exact Hperm|].
        apply in_or_app. right. left. reflexivity. }
      apply in_seq in Hin. lia. }
    apply nth_error_Some in Hj.
    destruct (nth_error tasks j) as [t|] eqn:Ht; [|contradiction].
    exists (LWorker k). unfold step. rewrite Hk, Ht.
    destruct (t (store s)) as [st' e];
      eexists; (split; [discriminate|reflexivity]).
  - exists (LWorker k). unfold step. rewrite Hk.
    destruct (length (errCh s) <? cap s)%nat;
      eexists; (split; [discriminate|reflexivity]).
Qed.

(** A state that no goroutine can leave has returned, or has the main
    goroutine blocked in the send with every worker gone. *)
Lemma progress st0 (s : PoolRun.state S E) :
  inv tasks st0 s -> (main s = MSend -> (0 < cap s)%nat) ->
  (exists e, main s = MDone e) \/
  (exists l s', l <> LCancel /\ step tasks l s = Some s') \/
  (main s = MSend /\ forallb is_exit (ws s) = true /\
   (parent s = true \/ errCh s <> [])).
Proof.
  intros Hi Hpos. destruct (main s) as [| | |e] eqn:Hm.
  - right. left. exists LMain. unfold step. rewrite Hm.
    destruct (_ && _); eexists; (split; [discriminate|reflexivity]).
  - right. destruct (forallb is_exit (ws s)) eqn:Hall.
    + right. split; [reflexivity|]. split; [reflexivity|].
      specialize (Hpos eq_refl).
      destruct Hi as [Hcap _ _ _ _ Hcalled _ _ _ _ _ Hexit].
      destruct (ws s) as [|w l] eqn:Hws; [simpl in Hcap; lia|].
      assert (Hw : w = WExit) by (apply (all_exit_lookup (w :: l) 0%nat); auto).
      subst w. destruct Hexit as [Hc|Hc]; [left; reflexivity| |].
      * unfold jobs_closed in Hc. rewrite Hm in Hc. discriminate.
      * unfold ctxErr in Hc. apply orb_true_iff in Hc as [Hp|Hc]; [left; exact Hp|].
        right. destruct (Hcalled Hc) as [|[e He]]; [assumption|].
        rewrite Hm in He. discriminate.
    + left. destruct (some_worker _ Hall) as (k & w & Hk & Hw).
      apply (worker_moves st0 s k w); auto.
  - right. left. destruct (forallb is_exit (ws s)) eqn:Hall.
    + exists LMain. unfold step. rewrite Hm, Hall.
      eexists. split; [discriminate|reflexivity].
    + destruct (some_worker _ Hall) as (k & w & Hk & Hw).
      apply (worker_moves st0 s k w); auto.
  - left. eauto.
Qed.

Lemma fuel_at pre (w : worker_pc E) post :
  list_sum (map worker_fuel (pre ++ w :: post)) =
    (worker_fuel w + list_sum (map worker_fuel (pre ++ post)))%nat.
Proof. rewrite !map_app, !list_sum_app. simpl. lia. Qed.

Lemma step_fuel st0 l (s s' : PoolRun.state S E) :
  inv tasks st0 s -> step tasks l s = Some s' -> (fuel tasks s' < fuel tasks s)%nat.
Proof.
  intros [_ _ Hsend _ _ _ _ _ _ _ _ _].
  destruct s as [m i w p c ec cp st rn].
  unfold step, with_main, with_worker, fuel. simpl in *.
  destruct l as [|k|k|].
  - destruct m; try discriminate.
    + destruct (_ && _); intros H; inversion H; subst; simpl; lia.
    + destruct (forallb is_exit w); intros H; inversion H; subst; simpl; lia.
  - destruct m; try discriminate.
    destruct (w !! k) as [[| | | |]|] eqn:Hk; try discriminate.
    destruct (worker_at _ _ _ Hk) as (pre & post & -> & Hi). rewrite Hi.
    intros H; inversion H; subst; simpl. rewrite !fuel_at. simpl.
    specialize (Hsend eq_refl). lia.
  - destruct (w !! k) as [[|j|j|err|]|] eqn:Hk; try discriminate;
      destruct (worker_at _ _ _ Hk) as (pre & post & -> & Hi); rewrite ?Hi.
    + destruct (jobs_closed _); intros H; inversion H; subst; simpl.
      rewrite !fuel_at. simpl. lia.
    + destruct (ctxErr _); intros H; inversion H; subst; simpl;
        rewrite !fuel_at; simpl; lia.
    + destruct (nth_error tasks j) as [t|]; [|discriminate].
      destruct (t st) as [st' [err|]];
        intros H; inversion H; subst; simpl; rewrite Hi, !fuel_at; simpl; lia.
    + destruct (_ <? _)%nat;
        intros H; inversion H; subst; simpl; rewrite !fuel_at; simpl; lia.
  - destruct p; [discriminate|]. intros H; inversion H; subst; simpl. lia.
Qed.

Lemma exec_fuel st0 tr : forall s s' : PoolRun.state S E,
  inv tasks st0 s -> exec tasks tr s = Some s' ->
  (length tr + fuel tasks s' <= fuel tasks s)%nat.
Proof.
  induction tr as [|l tr IH]; simpl; intros s s' Hi He.
  - inversion He; subst. lia.
  - destruct (step tasks l s) as [s1|] eqn:Hs; [|discriminate].
    pose proof (step_fuel _ _ _ _ Hi Hs).
    pose proof (IH s1 s' (inv_step _ _ _ _ Hi Hs) He). lia.
Qed.

Lemma fuel_start numCPU concurrency pd st :
  (fuel tasks (start tasks numCPU concurrency pd st)
   <= 4 * length tasks + cap (start tasks numCPU concurrency pd st) + 3)%nat.
Proof.
  unfold start. destruct (Nat.eqb_spec (length tasks) 0) as [H0|H0].
  - unfold fuel. simpl. destruct pd; lia.
  - set (n := Z.to_nat _). unfold fuel. simpl.
    assert (Hn : list_sum (map worker_fuel (repeat (@WRecv E) n)) = n).
    { induction n as [|n IH]; simpl; [reflexivity|]. rewrite IH. reflexivity. }
    rewrite Hn. destruct pd; lia.
Qed.

Lemma start_cap_pos numCPU concurrency pd st :
  (0 < length tasks)%nat ->
  (0 < cap (start tasks numCPU concurrency pd st))%nat.
Proof.
  intros Hl. pose proof (start_cap numCPU concurrency pd st) as H.
  destruct (Z.eqb_spec (Z.of_nat (length tasks)) 0) as [|_]; [lia|].
  pose proof (workers_bounds numCPU concurrency (Z.of_nat (length tasks))). lia.
Qed.

(** No run goes on for ever: from the start there are at most four steps
    for each task, one for each worker and three more.  And a run stops
    short of the return in one way only: the main goroutine is blocked in
    [jobs <- job{idx: i}] while every worker has returned, which takes a
    task that failed or a parent context that was cancelled. *)
Theorem RunParallel_stops_or_blocks_in_send (numCPU concurrency : Z)
    (parentDone : bool) (st : S) (tr : list label) (s : PoolRun.state S E) :
  exec tasks tr (start tasks numCPU concurrency parentDone st) = Some s ->
  (length tr <= 4 * length tasks + length (ws s) + 3)%nat /\
  ((exists e, main s = MDone e) \/
   (exists l s', l <> LCancel /\ step tasks l s = Some s') \/
   (main s = MSend /\ forallb is_exit (ws s) = true /\
    (parent s = true \/ errCh s <> []))).
Proof.
  intros He.
  pose proof (inv_start numCPU concurrency parentDone st) as H0.
  pose proof (exec_inv st tr _ _ H0 He) as Hi.
  split.
  - pose proof (exec_fuel st tr _ _ H0 He).
    pose proof (fuel_start numCPU concurrency parentDone st).
    rewrite (inv_cap _ _ _ _ _ Hi), (exec_cap _ _ _ He). lia.
  - apply (progress st s Hi). intros Hm.
    rewrite (exec_cap _ _ _ He). apply start_cap_pos.
    pose proof (inv_send _ _ _ _ _ Hi Hm). lia.
Qed.

Lemma runTasks_no_fail sched : forall st,
  (forall t st, In t tasks -> snd (t st) = None) ->
  snd (Workerpool.runTasks tasks sched st) = None.
Proof.
  induction sched as [|i sched IH]; intros st Hok; simpl; [reflexivity|].
  destruct (nth_error tasks i) as [t|] eqn:Hi; [|apply IH, Hok].
  pose proof (Hok t st (nth_error_In _ _ Hi)) as Ht.
  pose proof (IH (fst (t st)) Hok) as Hr.
  destruct (t st) as [s1 e1]. simpl in *.
  destruct (Workerpool.runTasks tasks sched s1) as [s2 e2]. simpl in *.
  subst. reflexivity.
Qed.

(** When no task fails and the parent context is not cancelled,
    [RunParallel] returns nil after every task was called once: a run of
    that kind is never stuck before the return, it is finite, and at the
    return every task was called and the state is the one the tasks leave. *)
Theorem RunParallel_returns_when_no_task_fails (numCPU concurrency : Z)
    (parentDone : bool) (st : S) (tr : list label) (s : PoolRun.state S E) :
  (forall t st, In t tasks -> snd (t st) = None) ->
  exec tasks tr (start tasks numCPU concurrency parentDone st) = Some s ->
  parent s = false ->
  (length tr <= 4 * length tasks + length (ws s) + 3)%nat /\
  ((exists l s', l <> LCancel /\ step tasks l s = Some s') \/
   (main s = MDone None /\ Permutation (ran s) (seq 0 (length tasks)) /\
    Workerpool.runTasks tasks (ran s) st = (store s, None))).
Proof.
  intros Hok He Hp.
  pose proof (inv_start numCPU concurrency parentDone st) as H0.
  pose proof (exec_inv st tr _ _ H0 He) as Hi.
  pose proof (runTasks_no_fail (ran s) st Hok) as Hn.
  assert (Hec : errCh s = []).
  { pose proof (inv_errors _ _ _ _ _ Hi) as Herr.
    rewrite (proj2 (run_errors_none (ran s) st) Hn) in Herr.
    apply Permutation_sym, Permutation_nil, app_eq_nil in Herr. apply Herr. }
  split.
  - pose proof (exec_fuel st tr _ _ H0 He).
    pose proof (fuel_start numCPU concurrency parentDone st).
    rewrite (inv_cap _ _ _ _ _ Hi), (exec_cap _ _ _ He). lia.
  - destruct (progress st s Hi) as [[e Hm]|[H|(_ & _ & [H|H])]].
    + intros Hm. rewrite (exec_cap _ _ _ He). apply start_cap_pos.
      pose proof (inv_send _ _ _ _ _ Hi Hm). lia.
    + right. destruct (inv_done _ _ _ _ _ Hi e Hm) as (-> & _ & Hall).
      rewrite Hec in *. simpl in *. split; [exact Hm|].
      split; [apply Hall; auto|].
      pose proof (inv_store _ _ _ _ _ Hi) as Hst.
      destruct (Workerpool.runTasks tasks (ran s) st) as [st' e'].
      simpl in *. subst. reflexivity.
    + left. exact H.
    + congruence.
    + contradiction.
Qed.

Lemma stuck_forever tr : forall s s' : PoolRun.state S E,
  main s = MSend -> forallb is_exit (ws s) = true ->
  exec tasks tr s = Some s' ->
  main s' = MSend /\ ws s' = ws s /\ ran s' = ran s /\ store s' = store s.
Proof.
  induction tr as [|l tr IH]; simpl; intros s s' Hm Hall He.
  - inversion He; subst. repeat split; assumption.
  - destruct (step tasks l s) as [s1|] eqn:Hs; [|discriminate].
    assert (H1 : main s1 = MSend /\ ws s1 = ws s /\ ran s1 = ran s /\
                 store s1 = store s).
    { unfold step in Hs. destruct l as [|k|k|].
      - rewrite Hm in Hs. discriminate.
      - rewrite Hm in Hs. destruct (ws s !! k) as [w|] eqn:Hk; [|discriminate].
        rewrite (all_exit_lookup _ _ _ Hall Hk) in Hs. discriminate.
      - destruct (ws s !! k) as [w|] eqn:Hk; [|discriminate].
        rewrite (all_exit_lookup _ _ _ Hall Hk) in Hs. discriminate.
      - destruct (parent s); [discriminate|]. inversion Hs; subst. simpl.
        repeat split; assumption. }
    destruct H1 as (Hm1 & Hw1 & Hr1 & Hs1).
    destruct (IH s1 s' Hm1) as (H2 & H3 & H4 & H5);
      [rewrite Hw1; exact Hall|exact He|].
    repeat split; congruence.
Qed.

(** One worker takes the tasks from [j] on, one after the other, as long
    as none fails. *)
Lemma one_worker_feeds k : forall j sj si rn,
  (j + k <= length tasks)%nat ->
  Workerpool.runTasks tasks (seq j k) sj = (si, None) ->
  exists tr,
    exec tasks tr
      {| main := MLoop; sent := j; ws := [WRecv]; parent := false;
         called := false; errCh := []; cap := 1; store := sj; ran := rn |}
    = Some
      {| main := MLoop; sent := j + k; ws := [WRecv]; parent := false;
         called := false; errCh := []; cap := 1; store := si;
         ran := rn ++ seq j k |}.
Proof.
  induction k as [|k IH]; intros j sj si rn Hle Hr; simpl in Hr.
  - inversion Hr; subst. exists []. simpl. rewrite Nat.add_0_r, app_nil_r. reflexivity.
  - assert (Hj : (j < length tasks)%nat) by lia.
    pose proof (proj2 (nth_error_Some tasks j) Hj) as Hsome.
    destruct (nth_error tasks j) as [t|] eqn:Ht; [|contradiction].
    destruct (t sj) as [s1 e1] eqn:Hts.
    destruct (Workerpool.runTasks tasks (seq (Datatypes.S j) k) s1) as [s2 e2] eqn:Hr2.
    inversion Hr; subst s2. destruct e1; [discriminate|]. subst e2.
    destruct (IH (Datatypes.S j) s1 si (rn ++ [j])) as [tr Htr]; [lia|exact Hr2|].
    exists ([LMain; LHand 0; LWorker 0; LWorker 0] ++ tr).
    rewrite exec_app.
    assert (Hround :
      exec tasks [LMain; LHand 0; LWorker 0; LWorker 0]
        {| main := MLoop; sent := j; ws := [WRecv]; parent := false;
           called := false; errCh := []; cap := 1; store := sj; ran := rn |}
      = Some
        {| main := MLoop; sent := Datatypes.S j; ws := [WRecv]; parent := false;
           called := false; errCh := []; cap := 1; store := s1;
           ran := rn ++ [j] |}).
    { unfold exec, step, with_main, with_worker, ctxErr; simpl.
      rewrite (proj2 (Nat.ltb_lt _ _) Hj). simpl. rewrite Ht, Hts. reflexivity. }
    rewrite Hround, Htr.
    replace (j + Datatypes.S k)%nat with (Datatypes.S j + k)%nat by lia.
    simpl. rewrite <- app_assoc. reflexivity.
Qed.

Lemma start_one numCPU pd st :
  (2 <= length tasks)%nat ->
  start tasks numCPU 1 pd st =
    {| main := MLoop; sent := 0; ws := [WRecv]; parent := pd;
       called := false; errCh := []; cap := 1; store := st; ran := [] |}.
Proof.
  intros H. unfold start, Workerpool.workers.
  destruct (Nat.eqb_spec (length tasks) 0) as [|_]; [lia|].
  simpl. destruct (Z.gtb_spec 1 (Z.of_nat (length tasks))); [lia|]. reflexivity.
Qed.

(** With one worker, a task that fails and is not the last one can leave
    [RunParallel] blocked for ever.  The main goroutine tests the context
    for the next task before the worker has run the failing one, and then
    waits in the send for a receiver; the worker records the error, cancels
    and returns.  From there on no step returns from the call or calls
    another task. *)
Theorem RunParallel_can_block_forever (numCPU : Z) (st si si' : S) (i : nat)
    (t : Workerpool.Task S E) (e : E) :
  (Datatypes.S i < length tasks)%nat -> nth_error tasks i = Some t ->
  Workerpool.runTasks tasks (seq 0 i) st = (si, None) ->
  t si = (si', Some e) ->
  exists tr s,
    exec tasks tr (start tasks numCPU 1 false st) = Some s /\
    main s = MSend /\ ran s = seq 0 (Datatypes.S i) /\ errCh s = [e] /\
    forall tr' s', exec tasks tr' s = Some s' ->
                   main s' = MSend /\ ran s' = ran s.
Proof.
  intros Hlt Ht Hr Hts.
  destruct (one_worker_feeds i 0%nat st si []) as [tr Htr]; [lia|exact Hr|].
  simpl in Htr.
  assert (Hi : (i <? length tasks)%nat = true) by (apply Nat.ltb_lt; lia).
  assert (Hi' : (Datatypes.S i <? length tasks)%nat = true) by (apply Nat.ltb_lt; lia).
  assert (Hend :
    exec tasks [LMain; LHand 0; LMain; LWorker 0; LWorker 0; LWorker 0]
      {| main := MLoop; sent := i; ws := [WRecv]; parent := false;
         called := false; errCh := []; cap := 1; store := si;
         ran := seq 0 i |}
    = Some
      {| main := MSend; sent := Datatypes.S i; ws := [WExit]; parent := false;
         called := true; errCh := [e]; cap := 1; store := si';
         ran := seq 0 i ++ [i] |}).
  { unfold exec, step, with_main, with_worker, ctxErr. simpl.
    rewrite Hi. simpl. rewrite Hi'. simpl. rewrite Ht, Hts. reflexivity. }
  exists (tr ++ [LMain; LHand 0; LMain; LWorker 0; LWorker 0; LWorker 0]).
  eexists. rewrite start_one by lia. rewrite exec_app, Htr, Hend.
  split; [reflexivity|]. split; [reflexivity|].
  split; [symmetry; exact (seq_S i 0)|]. split; [reflexivity|].
  intros tr' s' He.
  pose proof (fun a b => stuck_forever tr' _ s' a b He) as Hs.
  destruct (Hs eq_refl eq_refl) as (H1 & _ & H2 & _).
  split; assumption.
Qed.
End PoolMore.


Lemma RunParallel_stops_or_blocks_in_send_witness :
  exists s,
    PoolRun.exec tasks_fail_first run_ahead
      (PoolRun.start tasks_fail_first 4 1 false 0%nat) = Some s /\
    PoolRun.main s = PoolRun.MSend /\
    (length run_ahead <= 4 * length tasks_fail_first + length (PoolRun.ws s) + 3)%nat.
Proof.
  eexists. split; [vm_compute; reflexivity|]. split; [reflexivity|].
  refine (proj1 (RunParallel_stops_or_blocks_in_send tasks_fail_first 4 1 false
                   0%nat run_ahead _ _)).
  vm_compute. reflexivity.
Defined.

Lemma RunParallel_returns_when_no_task_fails_witness :
  exists s,
    PoolRun.exec tasks_ok run_ok (PoolRun.start tasks_ok 4 1 false 0%nat) = Some s /\
    PoolRun.main s = PoolRun.MDone None /\ PoolRun.store s = 2%nat /\
    (length run_ok <= 4 * length tasks_ok + length (PoolRun.ws s) + 3)%nat.
Proof.
  eexists. split; [vm_compute; reflexivity|]. split; [reflexivity|].
  split; [reflexivity|].
  refine (proj1 (RunParallel_returns_when_no_task_fails tasks_ok 4 1 false
                   0%nat run_ok _ _ _ _)).
  - intros t st [<-|[<-|[]]]; reflexivity.
  - vm_compute. reflexivity.
  - reflexivity.
Defined.

Lemma RunParallel_can_block_forever_witness :
  exists tr s,
    PoolRun.exec tasks_fail_first tr
      (PoolRun.start tasks_fail_first 4 1 false 0%nat) = Some s /\
    PoolRun.main s = PoolRun.MSend /\ PoolRun.ran s = [0%nat] /\
    PoolRun.errCh s = [tt] /\
    forall tr' s', PoolRun.exec tasks_fail_first tr' s = Some s' ->
                   PoolRun.main s' = PoolRun.MSend /\
                   PoolRun.ran s' = PoolRun.ran s.
Proof.
  apply (RunParallel_can_block_forever tasks_fail_first 4 0%nat 0%nat 0%nat 0%nat
           (fun n => (n, Some tt)) tt).
  - simpl. lia.
  - reflexivity.
  - reflexivity.
  - reflexivity.
Defined.
